(** * fetch_fbref: merge and scoring pipeline of the La Liga statistics script

    A shallow embedding of [scripts/fetch_fbref.py].  Python strings are
    sequences of Unicode code points, integers are [Z], a [dict] whose
    iteration order matters is an association list in insertion order, and
    the library functions whose tables are not part of the script ([hash],
    [unicodedata.normalize] and the decimal digits of Unicode) are section
    variables. *)

From Stdlib Require Import ZArith NArith List String Ascii Bool Lia.
From Stdlib Require Import DecimalString Permutation Sorted.
Import ListNotations.

Open Scope Z_scope.

(** ** Python strings *)

(** A [str] is a sequence of code points. *)
Definition pystr := list N.

(** An ASCII literal of the script. *)
Definition lit (s : string) : pystr := map N_of_ascii (list_ascii_of_string s).

Fixpoint pystr_eqb (s t : pystr) : bool :=
  match s, t with
  | [], [] => true
  | c :: s', d :: t' => N.eqb c d && pystr_eqb s' t'
  | _, _ => false
  end.

(** [str.isspace] on one code point: the characters [str.strip()] removes. *)
Definition isspace (c : N) : bool :=
  (((9 <=? c) && (c <=? 13)) || ((28 <=? c) && (c <=? 32))
   || (c =? 133) || (c =? 160) || (c =? 5760)
   || ((8192 <=? c) && (c <=? 8202))
   || (c =? 8232) || (c =? 8233) || (c =? 8239) || (c =? 8287)
   || (c =? 12288))%N.

Fixpoint lstrip (s : pystr) : pystr :=
  match s with
  | c :: s' => if isspace c then lstrip s' else s
  | [] => []
  end.

Definition rstrip (s : pystr) : pystr := rev (lstrip (rev s)).

(** [s.strip()] *)
Definition strip (s : pystr) : pystr := rstrip (lstrip s).

(** The white space of the C locale, which [float] trims after it has
    brought its argument to ASCII. *)
Definition is_ctype_space (c : N) : bool :=
  (((9 <=? c) && (c <=? 13)) || (c =? 32))%N.

Fixpoint lstrip_ctype (s : pystr) : pystr :=
  match s with
  | c :: s' => if is_ctype_space c then lstrip_ctype s' else s
  | [] => []
  end.

Definition strip_ctype (s : pystr) : pystr :=
  rev (lstrip_ctype (rev (lstrip_ctype s))).

(** [s.split(",")[0]]: everything before the first comma. *)
Fixpoint split_comma_first (s : pystr) : pystr :=
  match s with
  | c :: s' => if (c =? 44)%N then [] else c :: split_comma_first s'
  | [] => []
  end.

Definition is_ascii (c : N) : bool := (c <? 128)%N.
Definition is_upper (c : N) : bool := ((65 <=? c) && (c <=? 90))%N.
Definition is_lower (c : N) : bool := ((97 <=? c) && (c <=? 122))%N.

(** [s.upper()] and [s.lower()] on the ASCII letters.  The script applies
    [lower] to ASCII text only, and [upper] only to look the result up in
    [POS_MAP], whose keys no code point outside ASCII upper-cases into. *)
Definition upper_char (c : N) : N := if is_lower c then (c - 32)%N else c.
Definition lower_char (c : N) : N := if is_upper c then (c + 32)%N else c.
Definition upper (s : pystr) : pystr := map upper_char s.
Definition lower (s : pystr) : pystr := map lower_char s.

(** [s.encode("ascii", "ignore").decode("ascii")] *)
Definition encode_ascii_ignore (s : pystr) : pystr := filter is_ascii s.

(** ** Cell values *)

(** What a cell of a fetched table, or a default passed in its place, can
    be: [None], a string, an integer, or a float, which is known by the
    text [str()] gives it ([nan] for the missing cell of pandas): the
    script reads a float through [str()] and [isinstance] only. *)
Inductive value :=
| VNone
| VStr (s : pystr)
| VInt (z : Z)
| VFloat (text : pystr).

Definition str_of_Z (z : Z) : pystr := lit (NilZero.string_of_int (Z.to_int z)).

(** [str(val)] *)
Definition str (v : value) : pystr :=
  match v with
  | VNone => lit "None"
  | VStr s => s
  | VInt z => str_of_Z z
  | VFloat t => t
  end.

(** ** Reading numerals, binary64 and [int(x)] *)

(** A binary64 value: not-a-number, an infinity, or [(-1)^neg * m * 2^e]. *)
Inductive pyfloat :=
| FNan
| FInf (neg : bool)
| FFinite (neg : bool) (m e : Z).

Definition is_digit (c : N) : bool := ((48 <=? c) && (c <=? 57))%N.
Definition digit_val (c : N) : Z := Z.of_N c - 48.

(** Underscores of a numeric literal: each one stands between two digits,
    and they are removed before the text is read. *)
Fixpoint drop_underscores (prev : N) (s : pystr) : option pystr :=
  match s with
  | [] => if (prev =? 95)%N then None else Some []
  | c :: s' =>
      if (c =? 95)%N then
        if is_digit prev then drop_underscores c s' else None
      else if (prev =? 95)%N && negb (is_digit c) then None
      else option_map (cons c) (drop_underscores c s')
  end.

Fixpoint span_digits (s : pystr) : pystr * pystr :=
  match s with
  | c :: s' =>
      if is_digit c then let '(d, r) := span_digits s' in (c :: d, r)
      else ([], s)
  | [] => ([], [])
  end.

Definition digits_value (d : pystr) : Z :=
  fold_left (fun acc c => 10 * acc + digit_val c) d 0.

Definition read_sign (s : pystr) : bool * pystr :=
  match s with
  | c :: s' =>
      if (c =? 45)%N then (true, s')
      else if (c =? 43)%N then (false, s')
      else (false, s)
  | [] => (false, [])
  end.

(** The decimal numeral grammar of [float]: sign, digits with an optional
    point, optional exponent.  The result [(neg, M, E)] stands for
    [(-1)^neg * M * 10^E]. *)
Definition parse_decimal (s : pystr) : option (bool * Z * Z) :=
  let '(neg, s1) := read_sign s in
  let '(ip, s2) := span_digits s1 in
  let '(fp, s3) :=
    match s2 with
    | c :: t => if (c =? 46)%N then span_digits t else ([], s2)
    | [] => ([], [])
    end in
  match ip ++ fp with
  | [] => None
  | _ =>
      let M := digits_value (ip ++ fp) in
      let k := Z.of_nat (List.length fp) in
      match s3 with
      | [] => Some (neg, M, - k)
      | c :: t =>
          if (c =? 101)%N || (c =? 69)%N then
            let '(eneg, t1) := read_sign t in
            let '(ed, t2) := span_digits t1 in
            match ed, t2 with
            | _ :: _, [] =>
                let x := digits_value ed in
                Some (neg, M, (if eneg then - x else x) - k)
            | _, _ => None
            end
          else None
      end
  end.

(** [inf], [infinity] and [nan] in any letter case, after the sign. *)
Definition parse_inf_nan (s : pystr) : option pyfloat :=
  let '(neg, s1) := read_sign s in
  let w := lower s1 in
  if pystr_eqb w (lit "inf") || pystr_eqb w (lit "infinity") then Some (FInf neg)
  else if pystr_eqb w (lit "nan") then Some FNan
  else None.

(** Round the non-negative rational [num / den] to the nearest integer,
    ties to even. *)
Definition round_nearest_even (num den : Z) : Z :=
  let q := num / den in
  let r := num mod den in
  if 2 * r <? den then q
  else if den <? 2 * r then q + 1
  else if Z.even q then q else q + 1.

(** [num / den * 2^s] as a fraction. *)
Definition scale2 (num den s : Z) : Z * Z :=
  if 0 <=? s then (num * 2 ^ s, den) else (num, den * 2 ^ (- s)).

(** [floor (log2 (num / den))] for a positive rational. *)
Definition floor_log2_ratio (num den : Z) : Z :=
  let d := Z.log2 num - Z.log2 den in
  let '(n', d') := scale2 num den (- d) in
  if d' <=? n' then d else d - 1.

(** The binary64 value nearest to [num / den] (53-bit significand, least
    exponent -1074, ties to even, overflow to infinity). *)
Definition binary64_of_ratio (neg : bool) (num den : Z) : pyfloat :=
  if num =? 0 then FFinite neg 0 0
  else
    let e := Z.max (floor_log2_ratio num den - 52) (- 1074) in
    let '(n', d') := scale2 num den (- e) in
    let m := round_nearest_even n' d' in
    if (971 <? e) || ((e =? 971) && (m =? 2 ^ 53)) then FInf neg
    else FFinite neg m e.

Definition binary64_of_decimal (neg : bool) (M E : Z) : pyfloat :=
  if 0 <=? E then binary64_of_ratio neg (M * 10 ^ E) 1
  else binary64_of_ratio neg M (10 ^ (- E)).

(** [int(x)] for a float: truncation toward zero; [None] is the
    [ValueError] of a NaN or the [OverflowError] of an infinity. *)
Definition int_of_float (x : pyfloat) : option Z :=
  match x with
  | FNan => None
  | FInf _ => None
  | FFinite neg m e =>
      let a := if 0 <=? e then m * 2 ^ e else m / 2 ^ (- e) in
      Some (if neg then - a else a)
  end.

(** ** Binary64 values and rounding, for the statements *)

(** The finite binary64 values of one sign are the [m * 2^e] with a 53-bit
    [m] and [-1074 <= e <= 971]. *)
Definition binary64_finite (m e : Z) : Prop :=
  0 <= m < 2 ^ 53 /\ - 1074 <= e <= 971.

(** The distance from [num / den] to [m * 2^e], in units of
    [2^-1074 / den]. *)
Definition binary64_dist (num den m e : Z) : Z :=
  Z.abs (num * 2 ^ 1074 - m * 2 ^ (e + 1074) * den).

(** [num / den] is at or beyond the point half-way between the greatest
    binary64 value and 2^1024. *)
Definition binary64_overflow (num den : Z) : Prop :=
  (2 ^ 1024 - 2 ^ 970) * den <= num.

(** [m * 2^e] is the binary64 value nearest to [num / den], the one with
    the even significand where two are equally near; the significand is
    the normal one of the exponent, 2^53 standing for 2^52 at the next
    exponent. *)
Definition nearest_binary64 (num den m e : Z) : Prop :=
  - 1074 <= e <= 971
  /\ 0 <= m <= 2 ^ 53
  /\ (e = 971 -> m < 2 ^ 53)
  /\ (- 1074 < e -> 2 ^ 52 <= m)
  /\ forall m' e' : Z,
      binary64_finite m' e' ->
      binary64_dist num den m e <= binary64_dist num den m' e'
      /\ (binary64_dist num den m e = binary64_dist num den m' e' ->
          m' * 2 ^ (e' + 1074) <> m * 2 ^ (e + 1074) ->
          Z.even m = true).

(** [(-1)^neg * m * 2^e] without its fraction. *)
Definition truncate_binary64 (neg : bool) (m e : Z) : Z :=
  Z.quot ((if neg then - m else m) * 2 ^ Z.max e 0) (2 ^ Z.max (- e) 0).

(** The numeral [M * 10^E] as a fraction of integers. *)
Definition decimal_num (M E : Z) : Z := M * 10 ^ Z.max E 0.
Definition decimal_den (E : Z) : Z := 10 ^ Z.max (- E) 0.

(** ** Dictionaries in insertion order *)

(** A Python [dict] with string keys: the entries in the order their keys
    were first inserted. *)
Definition dict (V : Type) := list (pystr * V).

Fixpoint dict_mem {V} (k : pystr) (d : dict V) : bool :=
  match d with
  | [] => false
  | (k', _) :: d' => pystr_eqb k' k || dict_mem k d'
  end.

(** [d.get(k, default)] *)
Fixpoint dict_get {V} (d : dict V) (k : pystr) (default : V) : V :=
  match d with
  | [] => default
  | (k', v) :: d' => if pystr_eqb k' k then v else dict_get d' k default
  end.

(** [d[k] = v]: a present key keeps its place, a new one goes last. *)
Fixpoint dict_set {V} (k : pystr) (v : V) (d : dict V) : dict V :=
  match d with
  | [] => [(k, v)]
  | (k', v') :: d' =>
      if pystr_eqb k' k then (k', v) :: d' else (k', v') :: dict_set k v d'
  end.

(** [d[k][field] = x]: the value stored under [k] is changed in place. *)
Fixpoint dict_update {V} (k : pystr) (f : V -> V) (d : dict V) : dict V :=
  match d with
  | [] => []
  | (k', v') :: d' =>
      if pystr_eqb k' k then (k', f v') :: d' else (k', v') :: dict_update k f d'
  end.

(** [list(d.values())] *)
Definition dict_values {V} (d : dict V) : list V := map snd d.

(** ** Rows and tables *)

(** A row of a fetched table: column label and cell, in column order. *)
Definition row := dict value.
Definition table := list row.

(** ** Fetched pages *)

(** A cell of a parsed table as [fetch_table] sees it: missing (the NaN of
    pandas), a string, or a number, which is known by the text [str()]
    gives it in its row. *)
Inductive datum :=
| CNa
| CStr (s : pystr)
| CNum (text : pystr).

(** A [DataFrame]: the column labels and the rows, each a cell per column.
    The labels are pairwise distinct, as [pd.read_html] makes them. *)
Record dataframe := mk_dataframe {
  columns : list pystr;
  rows : list (list datum)
}.

Definition wf_dataframe (df : dataframe) : Prop :=
  NoDup (columns df)
  /\ Forall (fun r => List.length r = List.length (columns df)) (rows df).

(** What [requests.get], [raise_for_status] and [pd.read_html] leave: an
    exception, or the list of the tables of the page. *)
Inductive page :=
| Failed
| Parsed (tables : list dataframe).

(** [max(tables, key=lambda t: len(t))], run over the tables after the
    first: a later table replaces the best one only if it has more rows. *)
Fixpoint max_by_len (best : dataframe) (l : list dataframe) : dataframe :=
  match l with
  | [] => best
  | t :: l' =>
      if (List.length (rows best) <? List.length (rows t))%nat
      then max_by_len t l'
      else max_by_len best l'
  end.

(** [cell == s] for a string [s]. *)
Definition cell_is (c : datum) (s : pystr) : bool :=
  match c with
  | CStr t => pystr_eqb t s
  | _ => false
  end.

(** [notna] on one cell. *)
Definition notna (c : datum) : bool :=
  match c with
  | CNa => false
  | _ => true
  end.

Fixpoint index_of (k : pystr) (cols : list pystr) : option nat :=
  match cols with
  | [] => None
  | c :: cols' =>
      if pystr_eqb c k then Some O else option_map S (index_of k cols')
  end.

(** The cell of row [r] in column [k] of a table with labels [cols]. *)
Definition column_cell (cols : list pystr) (k : pystr) (r : list datum) : datum :=
  match index_of k cols with
  | Some i => nth i r CNa
  | None => CNa
  end.

(** [df[mask]]: the rows on which the mask holds. *)
Definition keep_rows (f : list datum -> bool) (df : dataframe) : dataframe :=
  mk_dataframe (columns df) (filter f (rows df)).

(** [fetch_table], as a function of what the request and the parser leave.
    A table without a column makes [df.iloc[:, 0]] raise, which the
    [except] turns into [None]. *)
Definition fetch_table (p : page) : option dataframe :=
  match p with
  | Failed => None
  | Parsed [] => None
  | Parsed (t :: l) =>
      let df := max_by_len t l in
      match columns df with
      | [] => None
      | c0 :: _ =>
          let df := keep_rows (fun r => negb (cell_is (hd CNa r) c0)) df in
          let df :=
            if existsb (fun c => pystr_eqb c (lit "Player")) (columns df) then
              let df :=
                keep_rows
                  (fun r => notna (column_cell (columns df) (lit "Player") r))
                  df in
              keep_rows
                (fun r =>
                   negb (cell_is (column_cell (columns df) (lit "Player") r)
                           (lit "Player")))
                df
            else df in
          Some df
      end
  end.

Definition wf_page (p : page) : Prop :=
  match p with
  | Failed => True
  | Parsed tables => Forall wf_dataframe tables
  end.

(** The three tests a row of the chosen table has to pass: its first cell
    is not the first label again, and, where there is a [Player] column,
    its player cell is neither missing nor the word Player. *)
Definition not_header (cols : list pystr) (r : list datum) : Prop :=
  forall s, hd CNa r = CStr s -> s <> hd [] cols.

Definition names_player (cols : list pystr) (r : list datum) : Prop :=
  In (lit "Player") cols ->
  exists s, (column_cell cols (lit "Player") r = CStr s /\ s <> lit "Player")
            \/ column_cell cols (lit "Player") r = CNum s.

(** The value a row of [iterrows] holds for a cell. *)
Definition value_of_cell (c : datum) : value :=
  match c with
  | CNa => VFloat (lit "nan")
  | CStr s => VStr s
  | CNum t => VFloat t
  end.

(** [df.iterrows()]: each row as a mapping from the labels to its values. *)
Definition iterrows (df : dataframe) : table :=
  map (fun r => combine (columns df) (map value_of_cell r)) (rows df).

(** ** Position mapping *)

Definition POS_MAP : dict pystr :=
  [ (lit "GK", lit "GK");
    (lit "DF", lit "DEF"); (lit "DF,MF", lit "DEF"); (lit "DF,FW", lit "DEF");
    (lit "MF", lit "MID"); (lit "MF,DF", lit "MID"); (lit "MF,FW", lit "MID");
    (lit "FW", lit "FWD"); (lit "FW,MF", lit "FWD"); (lit "FW,DF", lit "FWD") ].

(** The code looked up for a raw position cell:
    [str(raw).split(",")[0].strip().upper()]. *)
Definition pos_code (raw : value) : pystr :=
  upper (strip (split_comma_first (str raw))).

(** [POS_MAP.get(pos_raw, "MID")] *)
Definition classify (raw : value) : pystr :=
  dict_get POS_MAP (pos_code raw) (lit "MID").

(** ** Player records *)

Record player := mk_player {
  id : Z;
  name : pystr;
  club : pystr;
  pos : pystr;
  goals : Z;
  assists : Z;
  yellowCards : Z;
  redCards : Z;
  ownGoals : Z;
  penaltiesMissed : Z;
  shotsOnTarget : Z;
  cleanSheets : Z;
  saves : Z;
  penaltySaves : Z;
  goalsConceded : Z;
  tacklesWon : Z;
  interceptions : Z;
  keyPasses : Z;
  bigChancesCreated : Z;
  motm : Z
}.

Definition set_cleanSheets (x : Z) (p : player) : player :=
  mk_player (id p) (name p) (club p) (pos p) (goals p) (assists p)
    (yellowCards p) (redCards p) (ownGoals p) (penaltiesMissed p)
    (shotsOnTarget p) x (saves p) (penaltySaves p) (goalsConceded p)
    (tacklesWon p) (interceptions p) (keyPasses p) (bigChancesCreated p)
    (motm p).

Definition set_saves (x : Z) (p : player) : player :=
  mk_player (id p) (name p) (club p) (pos p) (goals p) (assists p)
    (yellowCards p) (redCards p) (ownGoals p) (penaltiesMissed p)
    (shotsOnTarget p) (cleanSheets p) x (penaltySaves p) (goalsConceded p)
    (tacklesWon p) (interceptions p) (keyPasses p) (bigChancesCreated p)
    (motm p).

Definition set_penaltySaves (x : Z) (p : player) : player :=
  mk_player (id p) (name p) (club p) (pos p) (goals p) (assists p)
    (yellowCards p) (redCards p) (ownGoals p) (penaltiesMissed p)
    (shotsOnTarget p) (cleanSheets p) (saves p) x (goalsConceded p)
    (tacklesWon p) (interceptions p) (keyPasses p) (bigChancesCreated p)
    (motm p).

Definition set_goalsConceded (x : Z) (p : player) : player :=
  mk_player (id p) (name p) (club p) (pos p) (goals p) (assists p)
    (yellowCards p) (redCards p) (ownGoals p) (penaltiesMissed p)
    (shotsOnTarget p) (cleanSheets p) (saves p) (penaltySaves p) x
    (tacklesWon p) (interceptions p) (keyPasses p) (bigChancesCreated p)
    (motm p).

Definition set_tacklesWon (x : Z) (p : player) : player :=
  mk_player (id p) (name p) (club p) (pos p) (goals p) (assists p)
    (yellowCards p) (redCards p) (ownGoals p) (penaltiesMissed p)
    (shotsOnTarget p) (cleanSheets p) (saves p) (penaltySaves p)
    (goalsConceded p) x (interceptions p) (keyPasses p)
    (bigChancesCreated p) (motm p).

Definition set_interceptions (x : Z) (p : player) : player :=
  mk_player (id p) (name p) (club p) (pos p) (goals p) (assists p)
    (yellowCards p) (redCards p) (ownGoals p) (penaltiesMissed p)
    (shotsOnTarget p) (cleanSheets p) (saves p) (penaltySaves p)
    (goalsConceded p) (tacklesWon p) x (keyPasses p)
    (bigChancesCreated p) (motm p).

Definition set_keyPasses (x : Z) (p : player) : player :=
  mk_player (id p) (name p) (club p) (pos p) (goals p) (assists p)
    (yellowCards p) (redCards p) (ownGoals p) (penaltiesMissed p)
    (shotsOnTarget p) (cleanSheets p) (saves p) (penaltySaves p)
    (goalsConceded p) (tacklesWon p) (interceptions p) x
    (bigChancesCreated p) (motm p).

Definition set_bigChancesCreated (x : Z) (p : player) : player :=
  mk_player (id p) (name p) (club p) (pos p) (goals p) (assists p)
    (yellowCards p) (redCards p) (ownGoals p) (penaltiesMissed p)
    (shotsOnTarget p) (cleanSheets p) (saves p) (penaltySaves p)
    (goalsConceded p) (tacklesWon p) (interceptions p) (keyPasses p) x
    (motm p).

(** The fields written from the standard-stats table, and the fields each
    secondary table owns. *)
Definition standard_fields (p : player) :=
  (id p, name p, club p, pos p, goals p, assists p, yellowCards p,
   redCards p, ownGoals p, penaltiesMissed p, shotsOnTarget p, motm p).
Definition goalkeeping_fields (p : player) :=
  (cleanSheets p, saves p, penaltySaves p, goalsConceded p).
Definition defensive_fields (p : player) := (tacklesWon p, interceptions p).
Definition passing_fields (p : player) := (keyPasses p, bigChancesCreated p).

(** ** Scoring *)

Definition calculate_points (p : player) : Z :=
  let pts := 0 in
  let pts :=
    if pystr_eqb (pos p) (lit "GK") then
      let pts := pts + cleanSheets p * 4 in
      let pts := pts + saves p / 3 in
      let pts := pts + penaltySaves p * 5 in
      pts - goalsConceded p / 2
    else if pystr_eqb (pos p) (lit "DEF") then
      let pts := pts + goals p * 6 in
      let pts := pts + assists p * 3 in
      let pts := pts + cleanSheets p * 4 in
      let pts := pts + tacklesWon p * 1 in
      pts + interceptions p * 1
    else if pystr_eqb (pos p) (lit "MID") then
      let pts := pts + goals p * 5 in
      let pts := pts + assists p * 3 in
      let pts := pts + cleanSheets p * 1 in
      let pts := pts + keyPasses p * 1 in
      let pts := pts + shotsOnTarget p * 1 in
      pts + bigChancesCreated p * 1
    else if pystr_eqb (pos p) (lit "FWD") then
      let pts := pts + goals p * 4 in
      let pts := pts + assists p * 3 in
      let pts := pts + shotsOnTarget p * 1 in
      pts + bigChancesCreated p * 1
    else pts in
  let pts := pts + yellowCards p * -1 in
  let pts := pts + redCards p * -3 in
  let pts := pts + ownGoals p * -2 in
  let pts := pts + penaltiesMissed p * -2 in
  pts.

(** A record after [p["points"] = calculate_points(p)]. *)
Record scored := mk_scored {
  rec : player;
  points : Z
}.

Definition score (p : player) : scored := mk_scored p (calculate_points p).

(** ** Sorting *)

(** [list.sort(key=lambda x: x["points"], reverse=True)], a stable sort:
    an element moves behind the elements with a strictly greater key only. *)
Fixpoint insert_desc (x : scored) (l : list scored) : list scored :=
  match l with
  | [] => [x]
  | y :: l' =>
      if points x <? points y then y :: insert_desc x l' else x :: y :: l'
  end.

Fixpoint sort_points_desc (l : list scored) : list scored :=
  match l with
  | [] => []
  | x :: l' => insert_desc x (sort_points_desc l')
  end.

(** ** The output document and the result of a run *)

(** The document written to [data/laliga-stats.json]; [updatedAt], the
    clock reading at the time of the write, is left out. *)
Record document := mk_document {
  season : pystr;
  league : pystr;
  source : pystr;
  players : list scored
}.

Record outcome := mk_outcome {
  exit_code : Z;
  written : option document
}.

(** ** Views of the record mapping *)

(** The mapping seen through a projection of its records: the keys, in
    order, each with the projected part of its record. *)
Definition view {A} (f : player -> A) (d : dict player) : list (pystr * A) :=
  map (fun e => (fst e, f (snd e))) d.

(** A projection that a field assignment does not change. *)
Definition ignores {A} (f : player -> A) (set : Z -> player -> player) : Prop :=
  forall x p, f (set x p) = f p.

(** Descending order of points: no record is followed by one with more. *)
Definition points_ge (a b : scored) : Prop := points b <= points a.

(** The records of a list whose points are [v], in their order. *)
Definition with_points (v : Z) (l : list scored) : list scored :=
  filter (fun s => points s =? v) l.

(** A decomposition that satisfies what the name examples need of
    [unicodedata.normalize("NFKD", _)]: the acute-accented Latin small
    vowels split into the letter and U+0301, every other code point stays. *)
Definition nfkd_acute (s : pystr) : pystr :=
  flat_map (fun c =>
    if (c =? 225)%N then [97; 769]
    else if (c =? 233)%N then [101; 769]
    else if (c =? 237)%N then [105; 769]
    else if (c =? 243)%N then [111; 769]
    else if (c =? 250)%N then [117; 769]
    else [c])%N s.

(** The decimal digits of three scripts: ASCII, Arabic-Indic, fullwidth. *)
Definition todecimal_some (c : N) : option N :=
  (if (48 <=? c) && (c <=? 57) then Some (c - 48)
   else if (1632 <=? c) && (c <=? 1641) then Some (c - 1632)
   else if (65296 <=? c) && (c <=? 65305) then Some (c - 65296)
   else None)%N.

(** A stand-in for the built-in string [hash]. *)
Definition hash_sum (s : pystr) : Z :=
  fold_left (fun h c => 31 * h - Z.of_N c) s 7.

(** ** A fabricated run *)

Definition cell (k v : string) : pystr * value := (lit k, VStr (lit v)).

(** A primary table of three players, one of them written with an accent,
    and secondary tables that cover two of them and a fourth player. *)
Definition sample_std : table :=
  [ [cell "Player" "Ana"; cell "Pos" "GK"; cell "Squad" "Alfa";
     cell "Gls" "0"; cell "Ast" "0"; cell "CrdY" "0"; cell "CrdR" "0"];
    [(lit "Player", VStr [66; 101; 225]%N); cell "Pos" "DF,MF";
     cell "Squad" "Beta"; cell "Gls" "1"; cell "Ast" "1"; cell "CrdY" "1";
     cell "CrdR" "0"];
    [cell "Player" "Cruz"; cell "Pos" "FW"; cell "Squad" "Gama";
     cell "Gls" "3"; cell "Ast" "1.0"; cell "CrdY" "nan"; cell "SoT" "5"] ].

Definition sample_gk : table :=
  [ [cell "Player" "Ana"; cell "CS" "2"; cell "Saves" "10"; cell "PKsv" "1";
     cell "GA" "3"];
    [cell "Player" "Dan"; cell "CS" "9"; cell "Saves" "30"] ].

Definition sample_def : table :=
  [ [cell "Player" " BEA "; cell "TklW" "2"; cell "Int" "3"];
    [cell "Player" "Dan"; cell "TklW" "7"; cell "Int" "7"] ].

Definition sample_passing : table :=
  [ [cell "Player" "Dan"; cell "KP" "5"; cell "PPA" "4"] ].

(** A page with a small table ahead of the statistics table, which repeats
    its header row and has a row without a player. *)
Definition sample_page : page :=
  Parsed
    [ mk_dataframe [lit "Squad"; lit "W"]
        [ [CStr (lit "Alfa"); CNum (lit "3")] ];
      mk_dataframe [lit "Rk"; lit "Player"; lit "Pos"; lit "Gls"]
        [ [CNum (lit "1"); CStr (lit "Ana"); CStr (lit "GK"); CNum (lit "0")];
          [CStr (lit "Rk"); CStr (lit "Player"); CStr (lit "Pos");
           CStr (lit "Gls")];
          [CNum (lit "2"); CNa; CStr (lit "DF"); CNum (lit "1")];
          [CNum (lit "3"); CStr (lit "Cruz"); CStr (lit "FW"); CNum (lit "3")] ];
      mk_dataframe [lit "Rk"; lit "Squad"; lit "Pts"; lit "GD"]
        [ [CNum (lit "1"); CStr (lit "Alfa"); CNum (lit "9"); CNum (lit "4")];
          [CNum (lit "2"); CStr (lit "Beta"); CNum (lit "6"); CNum (lit "1")];
          [CNum (lit "3"); CStr (lit "Gama"); CNum (lit "3"); CNum (lit "0")];
          [CNum (lit "4"); CStr (lit "Delta"); CNum (lit "0"); CNum (lit "-5")] ] ].

(** A page whose only table has no [Player] column. *)
Definition sample_page_squads : page :=
  Parsed
    [ mk_dataframe [lit "Squad"; lit "CS"]
        [ [CStr (lit "Alfa"); CNum (lit "2")];
          [CStr (lit "Beta"); CNum (lit "1")] ] ].

(** A primary table in which the first and the third player tie. *)
Definition sample_tie : table :=
  [ [cell "Player" "Ada"; cell "Pos" "FW"; cell "Gls" "1"];
    [cell "Player" "Bo"; cell "Pos" "FW"; cell "Gls" "2"];
    [cell "Player" "Cy"; cell "Pos" "FW"; cell "Gls" "1"] ].

Section Script.

Set Default Proof Using "Type".

(** The built-in [hash] on strings, [unicodedata.normalize("NFKD", _)], and
    the decimal digit value of a code point, [None] for one that is no
    decimal digit ([unicodedata.decimal]). *)
Variable hash : pystr -> Z.
Variable nfkd : pystr -> pystr.
Variable todecimal : N -> option N.

(** Propositional reasoning that leaves the library functions alone. *)
Ltac taut := try clear hash; try clear nfkd; try clear todecimal; tauto.

(** ** [float(text)] *)

(** What [float] does to a string that is not ASCII only before reading it:
    white space becomes a blank, a decimal digit of any script the ASCII
    digit, and the text ends in a question mark at the first code point
    that is neither. *)
Fixpoint transform_decimal_and_space (s : pystr) : pystr :=
  match s with
  | [] => []
  | c :: s' =>
      if (c <? 127)%N then c :: transform_decimal_and_space s'
      else if isspace c then 32%N :: transform_decimal_and_space s'
      else
        match todecimal c with
        | Some d => (48 + d)%N :: transform_decimal_and_space s'
        | None => [63%N]
        end
  end.

(** The ASCII text [float] reads for a string. *)
Definition float_text (s : pystr) : pystr :=
  strip_ctype
    (if forallb is_ascii s then s else transform_decimal_and_space s).

(** [float(s)] for a string; [None] is the [ValueError]. *)
Definition float (s : pystr) : option pyfloat :=
  match drop_underscores 0%N (float_text s) with
  | None => None
  | Some t =>
      match parse_inf_nan t with
      | Some f => Some f
      | None =>
          match parse_decimal t with
          | Some (neg, M, E) => Some (binary64_of_decimal neg M E)
          | None => None
          end
      end
  end.

(** ** [safe_int] *)

Definition is_empty_str (v : value) : bool :=
  match v with
  | VStr [] => true
  | _ => false
  end.

Definition is_none (v : value) : bool :=
  match v with
  | VNone => true
  | _ => false
  end.

Definition safe_int (val : value) : Z :=
  let t := strip (str val) in
  if is_none val || is_empty_str val
     || pystr_eqb t [] || pystr_eqb t (lit "nan") || pystr_eqb t (lit "NaN")
  then 0
  else
    match float t with
    | None => 0
    | Some x =>
        match int_of_float x with
        | None => 0
        | Some z => z
        end
    end.

(** ** [normalise_name] *)

Definition normalise_name (name : value) : pystr :=
  match name with
  | VStr s => lower (strip (encode_ascii_ignore (nfkd s)))
  | _ => []
  end.

(** [unaccented s t]: the ASCII text [t] is [s] without its diacritics.
    An ASCII code point stays; a letter that [nfkd] splits into an ASCII
    letter and code points outside ASCII (the marks) gives that letter; a
    code point whose decomposition has no ASCII code point at all (a mark
    on its own, or a letter that does not decompose) gives nothing. *)
Inductive unaccented : pystr -> pystr -> Prop :=
| unaccented_nil : unaccented [] []
| unaccented_plain (b : N) (s t : pystr) :
    is_ascii b = true -> unaccented s t -> unaccented (b :: s) (b :: t)
| unaccented_letter (c b : N) (marks s t : pystr) :
    nfkd [c] = b :: marks -> is_ascii b = true ->
    encode_ascii_ignore marks = [] ->
    unaccented s t -> unaccented (c :: s) (b :: t)
| unaccented_dropped (c : N) (s t : pystr) :
    encode_ascii_ignore (nfkd [c]) = [] ->
    unaccented s t -> unaccented (c :: s) t.

(** ** [main] *)

(** [row.get(k, default)] *)
Definition row_get (r : row) (k : pystr) (default : value) : value :=
  dict_get r k default.

(** The local [get(keys)] of the seeding loop: the first alias that is a
    column of the row, coerced. *)
Fixpoint get (r : row) (keys : list pystr) (default : Z) : Z :=
  match keys with
  | [] => default
  | k :: ks =>
      if dict_mem k r then safe_int (dict_get r k VNone) else get r ks default
  end.

(** [str(row.get("Player", "")).strip()] *)
Definition row_name (r : row) : pystr :=
  strip (str (row_get r (lit "Player") (VStr []))).

(** [not name or name == "Player"]: the row is skipped. *)
Definition skipped (nm : pystr) : bool :=
  pystr_eqb nm [] || pystr_eqb nm (lit "Player").

Definition seed_row (players : dict player) (r : row) : dict player :=
  let nm := row_name r in
  if skipped nm then players
  else
    let pos := classify (row_get r (lit "Pos") (VStr (lit "MF"))) in
    let key := normalise_name (VStr nm) in
    dict_set key
      {| id := Z.abs (hash nm) mod 100000;
         name := nm;
         club := strip (str (row_get r (lit "Squad") (VStr (lit "Unknown"))));
         pos := pos;
         goals := get r [lit "Gls"; lit "Goals"] 0;
         assists := get r [lit "Ast"; lit "Assists"] 0;
         yellowCards := get r [lit "CrdY"] 0;
         redCards := get r [lit "CrdR"] 0;
         ownGoals := get r [lit "OG"] 0;
         penaltiesMissed := get r [lit "PKmiss"; lit "PKM"] 0;
         shotsOnTarget := get r [lit "SoT"] 0;
         cleanSheets := 0;
         saves := 0;
         penaltySaves := 0;
         goalsConceded := 0;
         tacklesWon := 0;
         interceptions := 0;
         keyPasses := 0;
         bigChancesCreated := 0;
         motm := 0 |} players.

Definition seed (std : table) : dict player := fold_left seed_row std [].

Definition gk_row (players : dict player) (r : row) : dict player :=
  let nm := row_name r in
  if skipped nm then players
  else
    let key := normalise_name (VStr nm) in
    if dict_mem key players then
      let players :=
        dict_update key
          (set_cleanSheets (safe_int (row_get r (lit "CS") (VInt 0))))
          players in
      let players :=
        dict_update key
          (set_saves (safe_int (row_get r (lit "Saves") (VInt 0))))
          players in
      let players :=
        dict_update key
          (set_penaltySaves (safe_int (row_get r (lit "PKsv") (VInt 0))))
          players in
      dict_update key
        (set_goalsConceded (safe_int (row_get r (lit "GA") (VInt 0))))
        players
    else players.

Definition def_row (players : dict player) (r : row) : dict player :=
  let nm := row_name r in
  if skipped nm then players
  else
    let key := normalise_name (VStr nm) in
    if dict_mem key players then
      let players :=
        dict_update key
          (set_tacklesWon (safe_int (row_get r (lit "TklW") (VInt 0))))
          players in
      dict_update key
        (set_interceptions (safe_int (row_get r (lit "Int") (VInt 0))))
        players
    else players.

Definition passing_row (players : dict player) (r : row) : dict player :=
  let nm := row_name r in
  if skipped nm then players
  else
    let key := normalise_name (VStr nm) in
    if dict_mem key players then
      let players :=
        dict_update key
          (set_keyPasses (safe_int (row_get r (lit "KP") (VInt 0))))
          players in
      dict_update key
        (set_bigChancesCreated (safe_int (row_get r (lit "PPA") (VInt 0))))
        players
    else players.

(** One enrichment stage: [fetched] is what [fetch_table] returned, [None]
    when the fetch failed. *)
Definition merge_table (step : dict player -> row -> dict player)
    (fetched : option table) (players : dict player) : dict player :=
  match fetched with
  | None => players
  | Some t => fold_left step t players
  end.

Definition merge_all (gk defn passing : option table) (players : dict player)
  : dict player :=
  merge_table passing_row passing
    (merge_table def_row defn (merge_table gk_row gk players)).

(** [main], as a function of what the four calls of [fetch_table] return. *)
Definition main (std gk defn passing : option table) : outcome :=
  match std with
  | None => {| exit_code := 1; written := None |}
  | Some std =>
      let players := seed std in
      let players := merge_all gk defn passing players in
      let player_list := map score (dict_values players) in
      let player_list := sort_points_desc player_list in
      {| exit_code := 0;
         written := Some {| season := lit "2024-25";
                            league := lit "La Liga";
                            source := lit "FBref.com";
                            players := player_list |} |}
  end.

(** The key under which the loops look a row up:
    [normalise_name(str(row.get("Player", "")).strip())]. *)
Definition row_key (r : row) : pystr := normalise_name (VStr (row_name r)).

(** A row that a loop over a table passes over for the key [k]: it is
    skipped for its name, or its key is another one. *)
Definition passes_over (k : pystr) (r : row) : Prop :=
  skipped (row_name r) = true \/ row_key r <> k.

(** The keys of a list in the order of their first occurrence, those in
    [seen] left out. *)
Fixpoint first_occurrences (seen ks : list pystr) : list pystr :=
  match ks with
  | [] => []
  | k :: ks' =>
      if existsb (pystr_eqb k) seen then first_occurrences seen ks'
      else k :: first_occurrences (k :: seen) ks'
  end.

(** The script from the four pages on: each page goes through
    [fetch_table], and [main] iterates over the rows of what comes back. *)
Definition run (std gk defn passing : page) : outcome :=
  main (option_map iterrows (fetch_table std))
    (option_map iterrows (fetch_table gk))
    (option_map iterrows (fetch_table defn))
    (option_map iterrows (fetch_table passing)).

(** [player_list[:5]], the records of the printed summary. *)
Definition top_five (player_list : list scored) : list scored :=
  firstn 5 player_list.

(** The record the seeding loop writes for a row with display name [nm]. *)
Definition seed_record (r : row) (nm : pystr) (p : player) : Prop :=
  id p = Z.abs (hash nm) mod 100000
  /\ name p = nm
  /\ club p = strip (str (row_get r (lit "Squad") (VStr (lit "Unknown"))))
  /\ pos p = classify (row_get r (lit "Pos") (VStr (lit "MF")))
  /\ goals p = get r [lit "Gls"; lit "Goals"] 0
  /\ assists p = get r [lit "Ast"; lit "Assists"] 0
  /\ yellowCards p = get r [lit "CrdY"] 0
  /\ redCards p = get r [lit "CrdR"] 0
  /\ ownGoals p = get r [lit "OG"] 0
  /\ penaltiesMissed p = get r [lit "PKmiss"; lit "PKM"] 0
  /\ shotsOnTarget p = get r [lit "SoT"] 0
  /\ goalkeeping_fields p = (0, 0, 0, 0)
  /\ defensive_fields p = (0, 0)
  /\ passing_fields p = (0, 0)
  /\ motm p = 0.

(** What the seeding pass establishes of an entry of the mapping: it was
    written for a row of the primary table that was not skipped. *)
Definition seeded (std : table) (e : pystr * player) : Prop :=
  exists r, In r std
    /\ skipped (row_name r) = false
    /\ fst e = normalise_name (VStr (row_name r))
    /\ name (snd e) = row_name r
    /\ id (snd e) = Z.abs (hash (row_name r)) mod 100000
    /\ goalkeeping_fields (snd e) = (0, 0, 0, 0)
    /\ defensive_fields (snd e) = (0, 0)
    /\ passing_fields (snd e) = (0, 0).

(** * Properties *)

(** ** Strings *)

Lemma pystr_eqb_eq (s t : pystr) : pystr_eqb s t = true <-> s = t.
Proof.
  revert t; induction s as [|c s IH]; intros [|d t]; simpl;
    try (split; [discriminate | discriminate]); try taut.
  rewrite andb_true_iff, N.eqb_eq, IH.
  split; [intros [-> ->]; reflexivity | intros [= -> ->]; auto].
Qed.

Lemma pystr_eqb_refl (s : pystr) : pystr_eqb s s = true.
Proof. apply pystr_eqb_eq; reflexivity. Qed.

Lemma pystr_eqb_neq (s t : pystr) : pystr_eqb s t = false <-> s <> t.
Proof.
  rewrite <- pystr_eqb_eq. destruct (pystr_eqb s t); split; congruence.
Qed.

(** ** Scoring *)

(** C1: [calculate_points] is the positional sum selected by [pos] (none for
    a [pos] outside GK, DEF, MID, FWD) plus the shared penalties, and the two
    divisions of the GK branch are floor divisions. *)
Theorem calculate_points_formula (p : player) :
  calculate_points p =
    (if pystr_eqb (pos p) (lit "GK") then
       cleanSheets p * 4 + saves p / 3 + penaltySaves p * 5
       - goalsConceded p / 2
     else if pystr_eqb (pos p) (lit "DEF") then
       goals p * 6 + assists p * 3 + cleanSheets p * 4 + tacklesWon p
       + interceptions p
     else if pystr_eqb (pos p) (lit "MID") then
       goals p * 5 + assists p * 3 + cleanSheets p + keyPasses p
       + shotsOnTarget p + bigChancesCreated p
     else if pystr_eqb (pos p) (lit "FWD") then
       goals p * 4 + assists p * 3 + shotsOnTarget p + bigChancesCreated p
     else 0)
    + (yellowCards p * (-1) + redCards p * (-3) + ownGoals p * (-2)
       + penaltiesMissed p * (-2))
  /\ 3 * (saves p / 3) <= saves p < 3 * (saves p / 3) + 3
  /\ 2 * (goalsConceded p / 2) <= goalsConceded p < 2 * (goalsConceded p / 2) + 2.
Proof.
  split.
  - unfold calculate_points.
    destruct (pystr_eqb (pos p) (lit "GK")); [lia|].
    destruct (pystr_eqb (pos p) (lit "DEF")); [lia|].
    destruct (pystr_eqb (pos p) (lit "MID")); [lia|].
    destruct (pystr_eqb (pos p) (lit "FWD")); lia.
  - pose proof (Z.div_mod (saves p) 3 ltac:(lia)) as Hs.
    pose proof (Z.mod_pos_bound (saves p) 3 ltac:(lia)) as Hs'.
    pose proof (Z.div_mod (goalsConceded p) 2 ltac:(lia)) as Hg.
    pose proof (Z.mod_pos_bound (goalsConceded p) 2 ltac:(lia)) as Hg'.
    lia.
Qed.

(** The two worked examples of the scoring rules. *)
Example calculate_points_def_example :
  calculate_points
    (mk_player 1 (lit "A") (lit "X") (lit "DEF") 1 1 1 0 0 0 0 1 0 0 0 2 3 0 0 0)
  = 17.
Proof. reflexivity. Qed.

Example calculate_points_gk_example :
  calculate_points
    (mk_player 1 (lit "A") (lit "X") (lit "GK") 0 0 0 0 0 0 0 2 10 1 3 0 0 0 0 0)
  = 15.
Proof. reflexivity. Qed.


(** ** Position classifier *)

Lemma pystr_eqb_sym (s t : pystr) : pystr_eqb s t = pystr_eqb t s.
Proof.
  destruct (pystr_eqb t s) eqn:E.
  - apply pystr_eqb_eq in E. subst. apply pystr_eqb_refl.
  - apply pystr_eqb_neq. apply pystr_eqb_neq in E. congruence.
Qed.

Lemma In_lstrip (c : N) (s : pystr) : In c (lstrip s) -> In c s.
Proof.
  induction s as [|d s IH]; simpl; [taut|].
  destruct (isspace d); simpl; taut.
Qed.

Lemma In_strip (c : N) (s : pystr) : In c (strip s) -> In c s.
Proof.
  unfold strip, rstrip. intros H.
  apply In_lstrip. apply in_rev. apply In_lstrip. apply in_rev in H. exact H.
Qed.

Lemma split_comma_first_no_comma (s : pystr) : ~ In 44%N (split_comma_first s).
Proof.
  induction s as [|c s IH]; simpl; [taut|].
  destruct (N.eqb_spec c 44); simpl; [taut|].
  intros [H|H]; [congruence | taut].
Qed.

Lemma split_comma_first_idem (s : pystr) :
  split_comma_first (split_comma_first s) = split_comma_first s.
Proof.
  induction s as [|c s IH]; simpl; [reflexivity|].
  destruct (N.eqb_spec c 44) as [E|E]; simpl; [reflexivity|].
  destruct (N.eqb_spec c 44); [contradiction|]. now rewrite IH.
Qed.

Lemma upper_char_comma (c : N) : upper_char c = 44%N -> c = 44%N.
Proof.
  unfold upper_char, is_lower.
  destruct (N.leb_spec 97 c); destruct (N.leb_spec c 122); simpl; lia.
Qed.

Lemma pos_code_no_comma (raw : value) : ~ In 44%N (pos_code raw).
Proof.
  unfold pos_code, upper. intros H.
  apply in_map_iff in H. destruct H as (c & Hc & Hin).
  apply upper_char_comma in Hc. subst c.
  apply In_strip in Hin. exact (split_comma_first_no_comma _ Hin).
Qed.

Lemma comma_key_mismatch (k c : pystr) :
  In 44%N k -> ~ In 44%N c -> pystr_eqb k c = false.
Proof. intros Hk Hc. apply pystr_eqb_neq. intros ->. contradiction. Qed.

(** ** Name keys *)

Lemma lstrip_length (s : pystr) : (List.length (lstrip s) <= List.length s)%nat.
Proof.
  induction s as [|c s IH]; simpl; [lia|].
  destruct (isspace c); simpl; lia.
Qed.

Lemma lstrip_idem (s : pystr) : lstrip (lstrip s) = lstrip s.
Proof.
  induction s as [|c s IH]; simpl; [reflexivity|].
  destruct (isspace c) eqn:E; [exact IH|]. simpl. now rewrite E.
Qed.

Lemma lstrip_app_last (l : pystr) (c : N) :
  lstrip (l ++ [c]) =
    match lstrip l with
    | [] => if isspace c then [] else [c]
    | _ :: _ => lstrip l ++ [c]
    end.
Proof.
  induction l as [|d l IH]; simpl; [reflexivity|].
  destruct (isspace d); [exact IH | reflexivity].
Qed.

Lemma rstrip_cons (c : N) (s : pystr) :
  rstrip (c :: s) =
    match rstrip s with
    | [] => if isspace c then [] else [c]
    | _ :: _ => c :: rstrip s
    end.
Proof.
  unfold rstrip. simpl rev. rewrite lstrip_app_last.
  destruct (lstrip (rev s)) as [|x l]; simpl.
  - destruct (isspace c); reflexivity.
  - rewrite rev_app_distr. simpl.
    destruct (rev l ++ [x]) eqn:E; [|reflexivity].
    destruct (rev l); discriminate.
Qed.

Lemma lstrip_fixed_head (c : N) (s : pystr) :
  lstrip (c :: s) = c :: s -> isspace c = false.
Proof.
  simpl. destruct (isspace c); [|reflexivity].
  intros H. pose proof (lstrip_length s) as L. rewrite H in L. simpl in L. lia.
Qed.

Lemma lstrip_rstrip_fixed (s : pystr) :
  lstrip s = s -> lstrip (rstrip s) = rstrip s.
Proof.
  destruct s as [|c s]; [reflexivity|].
  intros H. apply lstrip_fixed_head in H.
  rewrite rstrip_cons. destruct (rstrip s); rewrite ?H; simpl; rewrite ?H; reflexivity.
Qed.

Lemma rstrip_idem (s : pystr) : rstrip (rstrip s) = rstrip s.
Proof. unfold rstrip. now rewrite rev_involutive, lstrip_idem. Qed.

Lemma strip_idem (s : pystr) : strip (strip s) = strip s.
Proof.
  unfold strip.
  rewrite (lstrip_rstrip_fixed (lstrip s)) by apply lstrip_idem.
  apply rstrip_idem.
Qed.

Lemma isspace_printable (c : N) : (33 <= c <= 132)%N -> isspace c = false.
Proof.
  intros H. unfold isspace.
  repeat (apply orb_false_intro); try (apply N.eqb_neq; lia);
    apply andb_false_iff;
    solve [left; apply N.leb_gt; lia | right; apply N.leb_gt; lia].
Qed.

Lemma is_upper_range (c : N) : is_upper c = true -> (65 <= c <= 90)%N.
Proof.
  unfold is_upper. rewrite andb_true_iff, !N.leb_le. taut.
Qed.

Lemma isspace_lower_char (c : N) : isspace (lower_char c) = isspace c.
Proof.
  unfold lower_char. destruct (is_upper c) eqn:E; [|reflexivity].
  apply is_upper_range in E.
  rewrite !isspace_printable by lia. reflexivity.
Qed.

Lemma lstrip_lower (s : pystr) : lstrip (lower s) = lower (lstrip s).
Proof.
  induction s as [|c s IH]; simpl; [reflexivity|].
  rewrite isspace_lower_char. destruct (isspace c); [exact IH | reflexivity].
Qed.

Lemma strip_lower (s : pystr) : strip (lower s) = lower (strip s).
Proof.
  unfold strip, rstrip. rewrite lstrip_lower.
  unfold lower at 1. rewrite <- map_rev.
  fold (lower (rev (lstrip s))). rewrite lstrip_lower.
  unfold lower. now rewrite map_rev.
Qed.

Lemma lower_char_ascii (c : N) :
  is_ascii c = true ->
  is_ascii (lower_char c) = true /\ is_upper (lower_char c) = false.
Proof.
  unfold lower_char, is_ascii. intros H. apply N.ltb_lt in H.
  destruct (is_upper c) eqn:E.
  - apply is_upper_range in E. split; [apply N.ltb_lt; lia|].
    unfold is_upper. apply andb_false_iff. right. apply N.leb_gt. lia.
  - split; [apply N.ltb_lt; lia | exact E].
Qed.

Lemma lower_char_idem (c : N) : lower_char (lower_char c) = lower_char c.
Proof.
  unfold lower_char. destruct (is_upper c) eqn:E.
  - apply is_upper_range in E.
    replace (is_upper (c + 32)) with false; [reflexivity|].
    symmetry. unfold is_upper. apply andb_false_iff. right. apply N.leb_gt. lia.
  - now rewrite E.
Qed.

Lemma lower_idem (s : pystr) : lower (lower s) = lower s.
Proof.
  unfold lower. rewrite map_map. apply map_ext. apply lower_char_idem.
Qed.

Lemma Forall_strip (P : N -> Prop) (s : pystr) :
  Forall P s -> Forall P (strip s).
Proof.
  rewrite !Forall_forall. intros H c Hc. apply H. now apply In_strip.
Qed.

(** The ASCII part of a decomposition read off code point by code point. *)
Lemma unaccented_ascii_part (s t : pystr) :
  (forall u, encode_ascii_ignore (nfkd u)
             = flat_map (fun c => encode_ascii_ignore (nfkd [c])) u) ->
  (forall c, is_ascii c = true -> nfkd [c] = [c]) ->
  unaccented s t -> encode_ascii_ignore (nfkd s) = t.
Proof.
  intros N1 N2 H. rewrite N1.
  induction H as [|b s t Hb H IH|c b marks s t Hc Hb Hm H IH|c s t Hc H IH];
    simpl.
  - reflexivity.
  - rewrite (N2 b Hb), IH. unfold encode_ascii_ignore. simpl. now rewrite Hb.
  - rewrite Hc, IH. unfold encode_ascii_ignore in *. simpl.
    now rewrite Hb, Hm.
  - now rewrite Hc, IH.
Qed.

(** C8 (amended): the key of a string is ASCII only, has no upper-case
    letter and no white space at either end; where the ASCII part of a
    decomposition is that of its code points and ASCII code points do not
    decompose, two names that are one ASCII text once their diacritics are
    taken off (the marks [nfkd] splits from an ASCII letter, and the code
    points without any ASCII part, which are dropped) get one key, the
    trimmed small letters of that text; a value that is not a string gets
    the empty key; and, [nfkd] splitting the e-acute into the letter and
    U+0301 and keeping the two ASCII spellings, the three spellings of Jose
    all get the key jose. *)
Theorem normalise_name_key :
  (forall s : pystr,
      Forall (fun c => is_ascii c = true /\ is_upper c = false)
        (normalise_name (VStr s))
      /\ lower (normalise_name (VStr s)) = normalise_name (VStr s)
      /\ strip (normalise_name (VStr s)) = normalise_name (VStr s))
  /\ ((forall u, encode_ascii_ignore (nfkd u)
                 = flat_map (fun c => encode_ascii_ignore (nfkd [c])) u) ->
      (forall c, is_ascii c = true -> nfkd [c] = [c]) ->
      forall s s' t : pystr,
        unaccented s t -> unaccented s' t ->
        normalise_name (VStr s) = lower (strip t)
        /\ normalise_name (VStr s') = normalise_name (VStr s))
  /\ (nfkd [74; 111; 115; 233]%N = [74; 111; 115; 101; 769]%N ->
      nfkd (lit "Jose") = lit "Jose" ->
      nfkd (lit " JOSE ") = lit " JOSE " ->
      normalise_name (VStr [74; 111; 115; 233]%N) = lit "jose"
      /\ normalise_name (VStr (lit "Jose")) = lit "jose"
      /\ normalise_name (VStr (lit " JOSE ")) = lit "jose")
  /\ normalise_name VNone = []
  /\ (forall z : Z, normalise_name (VInt z) = [])
  /\ (forall t : pystr, normalise_name (VFloat t) = [])
  /\ (forall v : value, (forall s, v <> VStr s) -> normalise_name v = []).
Proof.
  split; [|split; [|split; [|split; [|split; [|split]]]]].
  - intros s. unfold normalise_name. repeat split.
    + unfold lower. apply Forall_map.
      apply Forall_impl with (P := fun c => is_ascii c = true);
        [intros c; apply lower_char_ascii|].
      apply Forall_strip. unfold encode_ascii_ignore.
      apply Forall_forall. intros c Hc. now apply filter_In in Hc.
    + apply lower_idem.
    + now rewrite strip_lower, strip_idem.
  - intros N1 N2 s s' t Hs Hs'. unfold normalise_name.
    rewrite (unaccented_ascii_part s t N1 N2 Hs).
    rewrite (unaccented_ascii_part s' t N1 N2 Hs'). split; reflexivity.
  - intros H1 H2 H3. unfold normalise_name. rewrite H1, H2, H3.
    repeat split; reflexivity.
  - reflexivity.
  - reflexivity.
  - reflexivity.
  - intros [|s|z|t] H; try reflexivity. exfalso. now apply (H s).
Qed.

(** ** Value coercion *)

Lemma round_nearest_even_bounds (num den : Z) :
  0 <= num -> 0 < den ->
  num / den <= round_nearest_even num den
  /\ 2 * round_nearest_even num den * den <= 2 * num + den.
Proof.
  intros Hn Hd. unfold round_nearest_even.
  pose proof (Z.div_mod num den ltac:(lia)) as E.
  pose proof (Z.mod_pos_bound num den Hd) as B.
  set (q := num / den) in *. set (r := num mod den) in *.
  destruct (Z.ltb_spec (2 * r) den); [nia|].
  destruct (Z.ltb_spec den (2 * r)); [nia|].
  destruct (Z.even q); nia.
Qed.

Lemma floor_log2_ratio_lower (num den : Z) :
  0 < num -> 0 < den ->
  (0 <= floor_log2_ratio num den -> den * 2 ^ floor_log2_ratio num den <= num)
  /\ (floor_log2_ratio num den < 0 -> den <= num * 2 ^ (- floor_log2_ratio num den)).
Proof.
  intros Hn Hd. unfold floor_log2_ratio, scale2.
  pose proof (Z.log2_spec num Hn) as [An An'].
  pose proof (Z.log2_spec den Hd) as [Bn Bn'].
  pose proof (Z.log2_nonneg num) as Ha. pose proof (Z.log2_nonneg den) as Hb.
  set (a := Z.log2 num) in *. set (b := Z.log2 den) in *.
  replace (Z.succ a) with (a + 1) in * by lia.
  replace (Z.succ b) with (b + 1) in * by lia.
  destruct (Z.leb_spec 0 (- (a - b))) as [S|S].
  - (* a <= b *)
    destruct (Z.leb_spec den (num * 2 ^ (- (a - b)))) as [T|T].
    + split; intros L.
      * assert (a - b = 0) as E0 by lia. rewrite E0 in *. simpl in T. simpl. lia.
      * exact T.
    + split; intros L; [lia|].
      replace (- (a - b - 1)) with ((b + 1) - a) by lia.
      assert (2 ^ (b + 1) = 2 ^ a * 2 ^ (b + 1 - a)) as P.
      { rewrite <- Z.pow_add_r by lia. f_equal; lia. }
      assert (0 < 2 ^ (b + 1 - a)) by (apply Z.pow_pos_nonneg; lia).
      nia.
  - (* b < a *)
    replace (- - (a - b)) with (a - b) by lia.
    destruct (Z.leb_spec (den * 2 ^ (a - b)) num) as [T|T].
    + split; intros L; [exact T | lia].
    + split; intros L; [|lia].
      assert (2 ^ a = 2 ^ (b + 1) * 2 ^ (a - b - 1)) as P.
      { rewrite <- Z.pow_add_r by lia. f_equal; lia. }
      assert (0 < 2 ^ (a - b - 1)) by (apply Z.pow_pos_nonneg; lia).
      nia.
Qed.

Lemma pow2_pos (k : Z) : 0 <= k -> 0 < 2 ^ k.
Proof. intros H. apply Z.pow_pos_nonneg; lia. Qed.

Lemma pow2_add (a b : Z) : 0 <= a -> 0 <= b -> 2 ^ (a + b) = 2 ^ a * 2 ^ b.
Proof. intros; apply Z.pow_add_r; lia. Qed.

Lemma pow2_le (a b : Z) : 0 <= a <= b -> 2 ^ a <= 2 ^ b.
Proof. intros H. apply Z.pow_le_mono_r; lia. Qed.

Lemma pow2_diff (a b : Z) : 0 <= a <= b -> 2 ^ b = 2 ^ a * 2 ^ (b - a).
Proof.
  intros H. rewrite <- pow2_add by lia. f_equal. lia.
Qed.

Lemma round_nearest_even_spec (n d : Z) :
  0 <= n -> 0 < d ->
  0 <= round_nearest_even n d
  /\ 2 * Z.abs (n - round_nearest_even n d * d) <= d
  /\ (2 * Z.abs (n - round_nearest_even n d * d) = d ->
      Z.even (round_nearest_even n d) = true).
Proof.
  intros Hn Hd. unfold round_nearest_even.
  pose proof (Z.div_mod n d ltac:(lia)) as E.
  pose proof (Z.mod_pos_bound n d Hd) as B.
  assert (Q : 0 <= n / d) by (apply Z.div_pos; lia).
  set (q := n / d) in *. set (r := n mod d) in *. clearbody q r.
  assert (E1 : n - q * d = r) by lia.
  assert (E2 : n - (q + 1) * d = r - d) by lia.
  destruct (Z.ltb_spec (2 * r) d).
  { rewrite E1. repeat split; lia. }
  destruct (Z.ltb_spec d (2 * r)).
  { rewrite E2. repeat split; lia. }
  destruct (Z.even q) eqn:Ev.
  - rewrite E1. repeat split; try lia. intros _. exact Ev.
  - rewrite E2. repeat split; try lia. intros _.
    replace (q + 1) with (Z.succ q) by lia.
    rewrite Z.even_succ, <- Z.negb_even, Ev. reflexivity.
Qed.

(** The integer within half a unit is as near as any integer. *)
Lemma nearest_multiple (X U m k : Z) :
  0 < U -> 2 * Z.abs (X - m * U) <= U ->
  Z.abs (X - m * U) <= Z.abs (X - k * U)
  /\ (Z.abs (X - m * U) = Z.abs (X - k * U) -> k <> m ->
      2 * Z.abs (X - m * U) = U).
Proof.
  intros HU H.
  destruct (Z.eq_dec k m) as [->|Hk]; [split; [lia | congruence]|].
  assert (D : k * U <= m * U - U \/ m * U + U <= k * U) by nia.
  set (a := m * U) in *. set (b := k * U) in *. clearbody a b.
  split; [lia | intros; lia].
Qed.

(** Comparing after scaling both sides of a ratio by powers of two. *)
Lemma scale_le (num den k A B : Z) :
  0 <= num -> 0 < den ->
  (0 <= k -> den * 2 ^ k <= num) ->
  (k < 0 -> den <= num * 2 ^ (- k)) ->
  0 <= A -> 0 <= B -> A - B <= k ->
  den * 2 ^ A <= num * 2 ^ B.
Proof.
  intros Hn Hd H1 H2 HA HB HK.
  pose proof (pow2_pos A HA) as PA. pose proof (pow2_pos B HB) as PB.
  destruct (Z.le_gt_cases 0 k) as [K|K].
  - specialize (H1 K). pose proof (pow2_pos k K) as PK.
    destruct (Z.le_gt_cases k A) as [L|L].
    + rewrite (pow2_diff k A) by lia.
      assert (2 ^ (A - k) <= 2 ^ B) by (apply pow2_le; lia).
      pose proof (pow2_pos (A - k) ltac:(lia)). nia.
    + assert (2 ^ A <= 2 ^ k) by (apply pow2_le; lia). nia.
  - specialize (H2 K). pose proof (pow2_pos (- k) ltac:(lia)) as PK.
    assert (E : 2 ^ (A - k) = 2 ^ (- k) * 2 ^ A).
    { rewrite <- pow2_add by lia. f_equal. lia. }
    assert (2 ^ (A - k) <= 2 ^ B) by (apply pow2_le; lia).
    nia.
Qed.

Lemma scale_lt (num den k A B : Z) :
  0 <= num -> 0 < den ->
  (0 <= k -> num < den * 2 ^ k) ->
  (k < 0 -> num * 2 ^ (- k) < den) ->
  0 <= A -> 0 <= B -> k <= A - B ->
  num * 2 ^ B < den * 2 ^ A.
Proof.
  intros Hn Hd H1 H2 HA HB HK.
  pose proof (pow2_pos A HA) as PA. pose proof (pow2_pos B HB) as PB.
  destruct (Z.le_gt_cases 0 k) as [K|K].
  - specialize (H1 K). pose proof (pow2_pos k K) as PK.
    assert (E : 2 ^ (k + B) = 2 ^ k * 2 ^ B) by (apply pow2_add; lia).
    assert (2 ^ (k + B) <= 2 ^ A) by (apply pow2_le; lia).
    nia.
  - specialize (H2 K). pose proof (pow2_pos (- k) ltac:(lia)) as PK.
    destruct (Z.le_gt_cases (- k) B) as [L|L].
    + rewrite (pow2_diff (- k) B) by lia.
      assert (2 ^ (B - - k) <= 2 ^ A) by (apply pow2_le; lia).
      pose proof (pow2_pos (B - - k) ltac:(lia)). nia.
    + assert (2 ^ B <= 2 ^ (- k)) by (apply pow2_le; lia). nia.
Qed.

Lemma floor_log2_ratio_upper (num den : Z) :
  0 < num -> 0 < den ->
  (0 <= floor_log2_ratio num den + 1 ->
   num < den * 2 ^ (floor_log2_ratio num den + 1))
  /\ (floor_log2_ratio num den + 1 < 0 ->
      num * 2 ^ (- (floor_log2_ratio num den + 1)) < den).
Proof.
  intros Hn Hd. unfold floor_log2_ratio, scale2.
  pose proof (Z.log2_spec num Hn) as [An An'].
  pose proof (Z.log2_spec den Hd) as [Bn Bn'].
  pose proof (Z.log2_nonneg num) as Ha. pose proof (Z.log2_nonneg den) as Hb.
  set (a := Z.log2 num) in *. set (b := Z.log2 den) in *.
  replace (Z.succ a) with (a + 1) in * by lia.
  replace (Z.succ b) with (b + 1) in * by lia.
  clearbody a b.
  assert (G : forall A B, 0 <= A -> 0 <= B -> a + 1 + B <= b + A ->
                          num * 2 ^ B < den * 2 ^ A).
  { intros A B HA HB H.
    pose proof (pow2_pos A HA). pose proof (pow2_pos B HB).
    assert (E1 : 2 ^ (a + 1 + B) = 2 ^ (a + 1) * 2 ^ B) by (apply pow2_add; lia).
    assert (E2 : 2 ^ (b + A) = 2 ^ b * 2 ^ A) by (apply pow2_add; lia).
    assert (2 ^ (a + 1 + B) <= 2 ^ (b + A)) by (apply pow2_le; lia).
    nia. }
  destruct (Z.leb_spec 0 (- (a - b))) as [S|S].
  - destruct (Z.leb_spec den (num * 2 ^ (- (a - b)))) as [T|T].
    + split; intros L.
      * specialize (G (a - b + 1) 0 ltac:(lia) ltac:(lia) ltac:(lia)).
        simpl (2 ^ 0) in G. lia.
      * specialize (G 0 (- (a - b + 1)) ltac:(lia) ltac:(lia) ltac:(lia)).
        simpl (2 ^ 0) in G. lia.
    + replace (a - b - 1 + 1) with (a - b) by lia.
      split; intros L.
      * assert (a - b = 0) as E0 by lia. rewrite E0 in *. simpl in T. simpl.
        lia.
      * exact T.
  - replace (- - (a - b)) with (a - b) by lia.
    destruct (Z.leb_spec (den * 2 ^ (a - b)) num) as [T|T].
    + split; intros L; [|lia].
      specialize (G (a - b + 1) 0 ltac:(lia) ltac:(lia) ltac:(lia)).
      simpl (2 ^ 0) in G. lia.
    + replace (a - b - 1 + 1) with (a - b) by lia.
      split; intros L; [exact T | lia].
Qed.

(** The significand and exponent [binary64_of_ratio] computes: the
    significand is within half a unit of the scaled ratio, even at a tie,
    and the unit is that of the ratio's binade. *)
Lemma binary64_of_ratio_rounding (neg : bool) (num den : Z) :
  0 < num -> 0 < den ->
  exists m e : Z,
    binary64_of_ratio neg num den
    = (if (971 <? e) || ((e =? 971) && (m =? 2 ^ 53)) then FInf neg
       else FFinite neg m e)
    /\ - 1074 <= e
    /\ 0 <= m
    /\ 2 * Z.abs (num * 2 ^ 1074 - m * (den * 2 ^ (e + 1074)))
       <= den * 2 ^ (e + 1074)
    /\ (2 * Z.abs (num * 2 ^ 1074 - m * (den * 2 ^ (e + 1074)))
        = den * 2 ^ (e + 1074) -> Z.even m = true)
    /\ (- 1074 < e -> 2 ^ 52 * (den * 2 ^ (e + 1074)) <= num * 2 ^ 1074)
    /\ num * 2 ^ 1074 < 2 ^ 53 * (den * 2 ^ (e + 1074))
    /\ (1023 <= floor_log2_ratio num den <-> 971 <= e)
    /\ (1024 <= floor_log2_ratio num den <-> 971 < e).
Proof.
  intros Hn Hd. unfold binary64_of_ratio.
  destruct (Z.eqb_spec num 0) as [?|_]; [lia|].
  cbv zeta.
  pose proof (floor_log2_ratio_lower num den Hn Hd) as [L1 L2].
  pose proof (floor_log2_ratio_upper num den Hn Hd) as [U1 U2].
  set (L := floor_log2_ratio num den) in *. clearbody L.
  set (e := Z.max (L - 52) (- 1074)).
  assert (He : - 1074 <= e) by lia.
  assert (HeL : e = L - 52 \/ (e = - 1074 /\ L - 52 <= - 1074)) by lia.
  clearbody e.
  pose proof (pow2_pos (e + 1074) ltac:(lia)) as PG.
  pose proof (pow2_pos 1074 ltac:(lia)) as PP.
  (* the scaled fraction, and the factor that brings it to the unit 2^-1074 *)
  assert (S : exists n' d' c : Z,
             scale2 num den (- e) = (n', d') /\ 0 <= n' /\ 0 < d' /\ 0 < c
             /\ num * 2 ^ 1074 = n' * c /\ den * 2 ^ (e + 1074) = d' * c).
  { unfold scale2. destruct (Z.leb_spec 0 (- e)) as [H|H].
    - exists (num * 2 ^ (- e)), den, (2 ^ (e + 1074)).
      pose proof (pow2_pos (- e) H).
      split; [reflexivity|]. split; [apply Z.mul_nonneg_nonneg; lia|].
      split; [exact Hd|]. split; [exact PG|]. split; [|reflexivity].
      rewrite <- Z.mul_assoc, <- pow2_add by lia. do 2 f_equal. lia.
    - exists num, (den * 2 ^ (- - e)), (2 ^ 1074).
      pose proof (pow2_pos (- - e) ltac:(lia)).
      split; [reflexivity|]. split; [lia|].
      split; [apply Z.mul_pos_pos; lia|]. split; [exact PP|].
      split; [reflexivity|].
      rewrite <- Z.mul_assoc, <- pow2_add by lia. do 2 f_equal. lia. }
  destruct S as (n' & d' & c & -> & Hn' & Hd' & Hc & EX & EU).
  pose proof (round_nearest_even_spec n' d' Hn' Hd') as (R0 & R1 & R2).
  set (m := round_nearest_even n' d') in *. clearbody m.
  exists m, e.
  assert (EA : Z.abs (num * 2 ^ 1074 - m * (den * 2 ^ (e + 1074)))
               = c * Z.abs (n' - m * d')).
  { rewrite EX, EU.
    replace (n' * c - m * (d' * c)) with (c * (n' - m * d')) by ring.
    rewrite Z.abs_mul, (Z.abs_eq c) by lia. reflexivity. }
  split; [reflexivity|]. split; [exact He|]. split; [exact R0|].
  split.
  { rewrite EA, EU.
    replace (2 * (c * Z.abs (n' - m * d')))
      with (c * (2 * Z.abs (n' - m * d'))) by ring.
    rewrite (Z.mul_comm d' c). apply Z.mul_le_mono_nonneg_l; lia. }
  split.
  { rewrite EA, EU. intros H. apply R2.
    apply (Z.mul_reg_l _ _ c); [lia|]. rewrite <- (Z.mul_comm d' c), <- H.
    ring. }
  split; [|split].
  - intros H. assert (e = L - 52) as -> by lia.
    rewrite Z.mul_assoc, (Z.mul_comm (2 ^ 52)), <- Z.mul_assoc.
    rewrite <- pow2_add by lia.
    apply scale_le with (k := L); try lia.
  - rewrite Z.mul_assoc, (Z.mul_comm (2 ^ 53)), <- Z.mul_assoc.
    rewrite <- pow2_add by lia.
    apply scale_lt with (k := L + 1); try lia.
  - lia.
Qed.

(** A significand within half a unit of the ratio, in the ratio's binade,
    is at least as near as every binary64 value. *)
Lemma nearest_of_rounding (num den m e : Z) :
  0 < den -> - 1074 <= e ->
  2 * Z.abs (num * 2 ^ 1074 - m * (den * 2 ^ (e + 1074)))
  <= den * 2 ^ (e + 1074) ->
  (2 * Z.abs (num * 2 ^ 1074 - m * (den * 2 ^ (e + 1074)))
   = den * 2 ^ (e + 1074) -> Z.even m = true) ->
  (- 1074 < e -> 2 ^ 52 * (den * 2 ^ (e + 1074)) <= num * 2 ^ 1074) ->
  forall m' e' : Z,
    binary64_finite m' e' ->
    binary64_dist num den m e <= binary64_dist num den m' e'
    /\ (binary64_dist num den m e = binary64_dist num den m' e' ->
        m' * 2 ^ (e' + 1074) <> m * 2 ^ (e + 1074) ->
        Z.even m = true).
Proof.
  intros Hd He R1 R2 B m' e' [[Hm0 Hm'] [He0 He']].
  unfold binary64_dist.
  replace (m * 2 ^ (e + 1074) * den) with (m * (den * 2 ^ (e + 1074))) by ring.
  pose proof (pow2_pos (e + 1074) ltac:(lia)) as PG.
  set (X := num * 2 ^ 1074) in *. clearbody X.
  assert (HU : 0 < den * 2 ^ (e + 1074)) by (apply Z.mul_pos_pos; lia).
  destruct (Z.le_gt_cases e e') as [C|C].
  - (* the candidate is a multiple of the unit *)
    assert (E : 2 ^ (e' + 1074) = 2 ^ (e + 1074) * 2 ^ (e' - e)).
    { rewrite <- pow2_add by lia. f_equal. lia. }
    rewrite E.
    replace (m' * (2 ^ (e + 1074) * 2 ^ (e' - e)) * den)
      with (m' * 2 ^ (e' - e) * (den * 2 ^ (e + 1074))) by ring.
    set (U := den * 2 ^ (e + 1074)) in *.
    destruct (nearest_multiple X U m (m' * 2 ^ (e' - e)) HU R1) as [N1 N2].
    split; [exact N1|].
    intros Heq Hne. apply R2. apply N2; [exact Heq|].
    intros K. apply Hne. rewrite <- K. ring.
  - (* the candidate lies below the binade *)
    specialize (B ltac:(lia)).
    assert (E : 2 ^ (e + 1074) = 2 ^ (e' + 1074) * 2 ^ (e - e')).
    { rewrite <- pow2_add by lia. f_equal. lia. }
    pose proof (pow2_pos (e' + 1074) ltac:(lia)) as Pg.
    assert (T : 2 ^ 1 <= 2 ^ (e - e')) by (apply pow2_le; lia).
    change (2 ^ 1) with 2 in T.
    set (U := den * 2 ^ (e + 1074)) in *.
    destruct (nearest_multiple X U m (2 ^ 52) HU R1) as [N1 _].
    assert (V : m' * 2 ^ (e' + 1074) * den < 2 ^ 52 * U).
    { unfold U. rewrite E.
      set (g := 2 ^ (e' + 1074)) in *. set (t := 2 ^ (e - e')) in *.
      clearbody g t. clear - Hd Hm0 Hm' Pg T.
      assert (m' * g * den <= (2 ^ 53 - 1) * (g * den)).
      { rewrite <- Z.mul_assoc. apply Z.mul_le_mono_nonneg_r; nia. }
      assert (2 * (g * den) <= t * (g * den)).
      { apply Z.mul_le_mono_nonneg_r; nia. }
      assert (0 < g * den) by nia.
      replace (2 ^ 52 * (den * (g * t))) with (2 ^ 52 * (t * (g * den))) by ring.
      set (a := g * den) in *. set (b := t * a) in *. set (c := m' * g * den) in *.
      clearbody a b c. lia. }
    set (W := m' * 2 ^ (e' + 1074) * den) in *. clearbody W.
    set (a := m * U) in *. set (b := 2 ^ 52 * U) in *. clearbody a b.
    split; [lia | intros; lia].
Qed.

(** [binary64_of_ratio] gives the nearest binary64 value, and an infinity
    from the half-way point above the greatest one on. *)
Lemma binary64_of_ratio_nearest (neg : bool) (num den : Z) :
  0 < num -> 0 < den ->
  match binary64_of_ratio neg num den with
  | FFinite n m e =>
      n = neg /\ ~ binary64_overflow num den /\ nearest_binary64 num den m e
  | FInf n => n = neg /\ binary64_overflow num den
  | FNan => False
  end.
Proof.
  intros Hn Hd.
  destruct (binary64_of_ratio_rounding neg num den Hn Hd)
    as (m & e & -> & He & Hm & R1 & R2 & B1 & B2 & L1 & L2).
  pose proof (floor_log2_ratio_lower num den Hn Hd) as [F1 F2].
  pose proof (floor_log2_ratio_upper num den Hn Hd) as [G1 G2].
  set (L := floor_log2_ratio num den) in *. clearbody L.
  pose proof (pow2_pos 1074 ltac:(lia)) as PP.
  pose proof (pow2_pos (e + 1074) ltac:(lia)) as PG.
  assert (HU : 0 < den * 2 ^ (e + 1074)) by (apply Z.mul_pos_pos; lia).
  (* the significand is at most 2^53 *)
  assert (M53 : m <= 2 ^ 53).
  { set (U := den * 2 ^ (e + 1074)) in *. clearbody U.
    set (X := num * 2 ^ 1074) in *. clearbody X.
    assert (2 * m * U < (2 ^ 54 + 1) * U).
    { set (a := m * U) in *. set (b := 2 ^ 53 * U) in *.
      replace (2 * m * U) with (2 * a) by (unfold a; ring).
      replace ((2 ^ 54 + 1) * U) with (2 * b + U) by (unfold b; ring).
      clearbody a b. lia. }
    assert (2 * m < 2 ^ 54 + 1) by (apply (Z.mul_lt_mono_pos_r U); lia).
    lia. }
  assert (M52 : - 1074 < e -> 2 ^ 52 <= m).
  { intros H. specialize (B1 H).
    set (U := den * 2 ^ (e + 1074)) in *. clearbody U.
    set (X := num * 2 ^ 1074) in *. clearbody X.
    assert ((2 ^ 53 - 1) * U <= 2 * m * U).
    { set (a := m * U) in *. set (b := 2 ^ 52 * U) in *.
      replace (2 * m * U) with (2 * a) by (unfold a; ring).
      replace ((2 ^ 53 - 1) * U) with (2 * b - U) by (unfold b; ring).
      clearbody a b. lia. }
    assert (2 ^ 53 - 1 <= 2 * m) by (apply (Z.mul_le_mono_pos_r _ _ U); lia).
    lia. }
  (* at the top exponent, the threshold in units of 2^-1074 *)
  assert (TOP : e = 971 ->
                (binary64_overflow num den <->
                 (2 ^ 54 - 1) * (den * 2 ^ (e + 1074)) <= 2 * (num * 2 ^ 1074))).
  { intros ->. unfold binary64_overflow.
    replace (971 + 1074) with (971 + 1074) by reflexivity.
    rewrite (pow2_add 971 1074) by lia.
    set (P := 2 ^ 1074) in *. clearbody P.
    replace ((2 ^ 54 - 1) * (den * (2 ^ 971 * P)))
      with (2 * ((2 ^ 1024 - 2 ^ 970) * den * P)).
    2:{ replace (2 ^ 1024) with (2 ^ 53 * 2 ^ 971) by reflexivity.
        replace (2 ^ 971) with (2 * 2 ^ 970) by reflexivity.
        replace (2 ^ 54) with (2 * 2 ^ 53) by reflexivity. ring. }
    split; intros H.
    - apply Z.mul_le_mono_nonneg_l; [lia|].
      apply Z.mul_le_mono_nonneg_r; lia.
    - apply (Z.mul_le_mono_pos_r _ _ P); lia. }
  destruct (Z.ltb_spec 971 e) as [E1|E1]; cbv beta iota delta [orb andb].
  { (* beyond the greatest exponent *)
    split; [reflexivity|]. unfold binary64_overflow.
    assert (1024 <= L) by lia.
    assert (K : den * 2 ^ 1024 <= num * 2 ^ 0)
      by (apply scale_le with (k := L); lia).
    change (2 ^ 0) with 1 in K.
    clear - K Hd. lia. }
  destruct (Z.eqb_spec e 971) as [E2|E2]; cbv beta iota delta [orb andb].
  - destruct (Z.eqb_spec m (2 ^ 53)) as [E3|E3].
    + (* rounded up to 2^1024 *)
      split; [reflexivity|]. apply (TOP E2). subst m.
      set (U := den * 2 ^ (e + 1074)) in *. clearbody U.
      set (X := num * 2 ^ 1074) in *. clearbody X.
      replace ((2 ^ 54 - 1) * U) with (2 * (2 ^ 53 * U) - U)
        by (replace (2 ^ 54) with (2 * 2 ^ 53) by reflexivity; ring).
      set (b := 2 ^ 53 * U) in *. clearbody b. lia.
    + split; [reflexivity|]. split.
      * intros O. apply (TOP E2) in O.
        set (U := den * 2 ^ (e + 1074)) in *. clearbody U.
        set (X := num * 2 ^ 1074) in *. clearbody X.
        assert (Q : (2 ^ 54 - 2) * U <= 2 * m * U).
        { set (a := m * U) in *.
          replace (2 * m * U) with (2 * a) by (unfold a; ring).
          replace ((2 ^ 54 - 2) * U) with ((2 ^ 54 - 1) * U - U) by ring.
          set (c := (2 ^ 54 - 1) * U) in *. clearbody a c. lia. }
        assert (2 ^ 54 - 2 <= 2 * m)
          by (apply (Z.mul_le_mono_pos_r _ _ U); lia).
        assert (Em : m = 2 ^ 53 - 1) by lia.
        assert (Ev : Z.even m = true).
        { apply R2. subst m.
          replace ((2 ^ 54 - 1) * U) with (2 * ((2 ^ 53 - 1) * U) + U) in O
            by (replace (2 ^ 54) with (2 * 2 ^ 53) by reflexivity; ring).
          set (a := (2 ^ 53 - 1) * U) in *. clearbody a. lia. }
        rewrite Em in Ev. vm_compute in Ev. discriminate.
      * unfold nearest_binary64.
        split; [lia|]. split; [lia|]. split; [lia|]. split; [exact M52|].
        apply nearest_of_rounding; assumption.
  - split; [reflexivity|]. split.
    + unfold binary64_overflow. intros O.
      assert (L + 1 <= 1023) by lia.
      assert (K : num * 2 ^ 0 < den * 2 ^ 1023)
        by (apply scale_lt with (k := L + 1); lia).
      change (2 ^ 0) with 1 in K.
      clear - O K Hd. lia.
    + unfold nearest_binary64.
      split; [lia|]. split; [lia|]. split; [lia|]. split; [exact M52|].
      apply nearest_of_rounding; assumption.
Qed.

Lemma binary64_dist_value (num den m e m' e' : Z) :
  m * 2 ^ (e + 1074) = m' * 2 ^ (e' + 1074) ->
  binary64_dist num den m e = binary64_dist num den m' e'.
Proof. unfold binary64_dist. intros ->. reflexivity. Qed.

(** A nearest value written with the significand 2^53 is a binary64 value
    of the next exponent. *)
Lemma nearest_binary64_finite (num den m e : Z) :
  nearest_binary64 num den m e ->
  exists mc ec : Z,
    binary64_finite mc ec /\ mc * 2 ^ (ec + 1074) = m * 2 ^ (e + 1074).
Proof.
  intros (He & Hm & Htop & _).
  destruct (Z.eq_dec m (2 ^ 53)) as [->|Hne].
  - exists (2 ^ 52), (e + 1). split.
    + split; [split; [apply Z.lt_le_incl, pow2_pos; lia|]|].
      * apply Z.pow_lt_mono_r; lia.
      * assert (e <> 971) by (intros K; specialize (Htop K); lia). lia.
    + replace (e + 1 + 1074) with (1 + (e + 1074)) by lia.
      rewrite pow2_add by lia.
      replace (2 ^ 53) with (2 ^ 52 * 2 ^ 1) by reflexivity. ring.
  - exists m, e. split; [|reflexivity]. split; lia.
Qed.

(** No binary64 value lies strictly between two values at the same
    distance from the ratio, if one of them is a nearest one. *)
Lemma nearest_binary64_not_between (num den m e v k f : Z) :
  0 < den ->
  nearest_binary64 num den m e ->
  binary64_dist num den m e = Z.abs (num * 2 ^ 1074 - v * den) ->
  binary64_finite k f ->
  m * 2 ^ (e + 1074) < k * 2 ^ (f + 1074) < v
  \/ v < k * 2 ^ (f + 1074) < m * 2 ^ (e + 1074) ->
  False.
Proof.
  intros Hd (_ & _ & _ & _ & N) E Hk B.
  destruct (N k f Hk) as [N1 _]. unfold binary64_dist in *.
  set (X := num * 2 ^ 1074) in *. clearbody X.
  set (a := m * 2 ^ (e + 1074)) in *. set (w := k * 2 ^ (f + 1074)) in *.
  clearbody a w.
  assert (B' : a * den < w * den < v * den \/ v * den < w * den < a * den).
  { destruct B as [[B1 B2]|[B1 B2]]; [left | right]; split;
      apply Z.mul_lt_mono_pos_r; assumption. }
  set (a' := a * den) in *. set (w' := w * den) in *. set (v' := v * den) in *.
  clearbody a' w' v'. lia.
Qed.

Lemma nearest_binary64_unique_le (num den m e m' e' : Z) :
  0 < den -> e <= e' ->
  nearest_binary64 num den m e -> nearest_binary64 num den m' e' ->
  m * 2 ^ (e + 1074) = m' * 2 ^ (e' + 1074).
Proof.
  intros Hd Hee N N'.
  destruct (Z.eq_dec (m * 2 ^ (e + 1074)) (m' * 2 ^ (e' + 1074))) as [|Hne];
    [assumption | exfalso].
  destruct (nearest_binary64_finite _ _ _ _ N) as (mc & ec & Fc & Vc).
  destruct (nearest_binary64_finite _ _ _ _ N') as (mc' & ec' & Fc' & Vc').
  pose proof N as (He & Hm & Htop & Hnorm & C).
  pose proof N' as (He' & Hm' & Htop' & Hnorm' & C').
  destruct (C mc' ec' Fc') as [D1 T1]. destruct (C' mc ec Fc) as [D2 T2].
  rewrite (binary64_dist_value num den mc' ec' m' e' Vc') in D1, T1.
  rewrite (binary64_dist_value num den mc ec m e Vc) in D2, T2.
  assert (D : binary64_dist num den m e = binary64_dist num den m' e') by lia.
  assert (Ev : Z.even m = true) by (apply T1; [exact D | congruence]).
  assert (Ev' : Z.even m' = true)
    by (apply T2; [symmetry; exact D | congruence]).
  clear D1 D2 T1 T2 mc ec Fc Vc mc' ec' Fc' Vc'.
  assert (D' : binary64_dist num den m' e' = binary64_dist num den m e)
    by (symmetry; exact D).
  pose proof (pow2_pos (e + 1074) ltac:(lia)) as PG.
  destruct (Z.eq_dec e e') as [<-|Hlt].
  - (* one exponent: the significands are neighbours *)
    assert (Hmm : m <> m') by congruence.
    destruct (Z.lt_total m m') as [L|[L|L]]; [|congruence|].
    + destruct (Z.eq_dec m' (m + 1)) as [->|S].
      * replace (m + 1) with (Z.succ m) in Ev' by lia.
        rewrite Z.even_succ, <- Z.negb_even, Ev in Ev'. discriminate.
      * apply (nearest_binary64_not_between num den m e
                 (m' * 2 ^ (e + 1074)) (m + 1) e Hd N).
        -- rewrite D. unfold binary64_dist. reflexivity.
        -- split; lia.
        -- left. split; apply Z.mul_lt_mono_pos_r; lia.
    + destruct (Z.eq_dec m (m' + 1)) as [->|S].
      * replace (m' + 1) with (Z.succ m') in Ev by lia.
        rewrite Z.even_succ, <- Z.negb_even, Ev' in Ev. discriminate.
      * apply (nearest_binary64_not_between num den m' e
                 (m * 2 ^ (e + 1074)) (m' + 1) e Hd N').
        -- rewrite D'. unfold binary64_dist. reflexivity.
        -- split; lia.
        -- left. split; apply Z.mul_lt_mono_pos_r; lia.
  - (* two exponents: the values are the two sides of a power of two *)
    assert (Hn52 : 2 ^ 52 <= m') by (apply Hnorm'; lia).
    assert (EG : 2 ^ (e' + 1074) = 2 * 2 ^ (e + 1074) * 2 ^ (e' - e - 1)).
    { replace (2 * 2 ^ (e + 1074)) with (2 ^ (1 + (e + 1074)))
        by (rewrite pow2_add by lia; reflexivity).
      rewrite <- pow2_add by lia. f_equal. lia. }
    pose proof (pow2_pos (e' - e - 1) ltac:(lia)) as Ps.
    assert (EW : 2 ^ 52 * 2 ^ (e + 1 + 1074) = 2 ^ 53 * 2 ^ (e + 1074)).
    { replace (e + 1 + 1074) with (1 + (e + 1074)) by lia.
      rewrite pow2_add by lia.
      replace (2 ^ 53) with (2 ^ 52 * 2 ^ 1) by reflexivity. ring. }
    assert (EW2 : (2 ^ 52 + 1) * 2 ^ (e + 1 + 1074)
                  = (2 ^ 53 + 2) * 2 ^ (e + 1074)).
    { replace (e + 1 + 1074) with (1 + (e + 1074)) by lia.
      rewrite pow2_add by lia.
      replace (2 ^ 53) with (2 ^ 52 * 2 ^ 1) by reflexivity.
      change (2 ^ 1) with 2. ring. }
    assert (F1 : binary64_finite (2 ^ 52) (e + 1)).
    { split; [|lia]. split; [apply Z.lt_le_incl, pow2_pos; lia|].
      apply Z.pow_lt_mono_r; lia. }
    assert (F2 : binary64_finite (2 ^ 52 + 1) (e + 1)).
    { split; [|lia]. split; [pose proof (pow2_pos 52); lia|].
      vm_compute. reflexivity. }
    remember (2 ^ (e + 1074)) as G eqn:HG in *.
    remember (2 ^ (e' - e - 1)) as s eqn:Hs in *.
    rewrite EG in Hne.
    (* the values in units of G *)
    assert (V' : m' * (2 * G * s) = (2 * (m' * s)) * G) by ring.
    rewrite V' in Hne.
    assert (Hms : 2 ^ 52 <= m' * s).
    { assert (m' * 1 <= m' * s) by (apply Z.mul_le_mono_nonneg_l; lia). lia. }
    assert (Hle : m <= 2 * (m' * s)).
    { replace (2 ^ 53) with (2 * 2 ^ 52) in Hm by reflexivity. lia. }
    assert (Hlt' : m < 2 * (m' * s)).
    { destruct (Z.eq_dec m (2 * (m' * s))) as [K|K]; [|lia].
      exfalso. apply Hne. rewrite K. reflexivity. }
    destruct (Z.lt_total m (2 ^ 53)) as [L|[L|L]]; [| |lia].
    + (* the lower value is below 2^53 G *)
      destruct (Z.eq_dec m (2 ^ 53 - 1)) as [K|K].
      * rewrite K in Ev. vm_compute in Ev. discriminate.
      * apply (nearest_binary64_not_between num den m' e'
                 (m * G) (2 ^ 53 - 1) e Hd N').
        -- rewrite D'. unfold binary64_dist. rewrite <- HG. reflexivity.
        -- split; [|lia]. split; [vm_compute; discriminate|].
           vm_compute. reflexivity.
        -- right. rewrite <- HG, EG, V'.
           replace (2 ^ 53) with (2 * 2 ^ 52) in * by reflexivity.
           split; apply Z.mul_lt_mono_pos_r; lia.
    + (* the lower value is 2^53 G *)
      subst m.
      replace (2 ^ 53) with (2 * 2 ^ 52) in * by reflexivity.
      assert (Hms' : 2 ^ 52 < m' * s) by lia.
      destruct (Z.eq_dec (m' * s) (2 ^ 52 + 1)) as [K|K].
      * assert (S1 : s = 1) by (clear - K Hn52 Ps; nia).
        rewrite S1, Z.mul_1_r in K. rewrite K in Ev'.
        vm_compute in Ev'. discriminate.
      * apply (nearest_binary64_not_between num den (2 * 2 ^ 52) e
                 (2 * (m' * s) * G) (2 ^ 52 + 1) (e + 1) Hd N).
        -- rewrite D. unfold binary64_dist. rewrite EG, V'.
           reflexivity.
        -- exact F2.
        -- left. rewrite <- HG, EW2.
           split; apply Z.mul_lt_mono_pos_r; lia.
Qed.

Lemma nearest_binary64_unique (num den m e m' e' : Z) :
  0 < den ->
  nearest_binary64 num den m e -> nearest_binary64 num den m' e' ->
  m * 2 ^ (e + 1074) = m' * 2 ^ (e' + 1074).
Proof.
  intros Hd N N'. destruct (Z.le_ge_cases e e') as [H|H].
  - apply (nearest_binary64_unique_le num den); assumption.
  - symmetry. apply (nearest_binary64_unique_le num den); assumption.
Qed.

Lemma int_of_binary64_of_ratio (neg : bool) (num den : Z) :
  0 <= num < 2 ^ 53 -> 0 < den ->
  int_of_float (binary64_of_ratio neg num den)
  = Some (if neg then - (num / den) else num / den).
Proof.
  intros [Hn0 Hn] Hd. unfold binary64_of_ratio. cbv zeta.
  destruct (Z.eqb_spec num 0) as [->|Hnz].
  - simpl. rewrite Z.div_0_l by lia. destruct neg; reflexivity.
  - pose proof (floor_log2_ratio_lower num den ltac:(lia) Hd) as [L1 L2].
    set (L := floor_log2_ratio num den) in *. clearbody L.
    assert (HL : L <= 52).
    { destruct (Z.le_gt_cases 0 L) as [H|H]; [|lia]. specialize (L1 H).
      assert (0 < 2 ^ L) by (apply Z.pow_pos_nonneg; lia).
      assert (G0 : 2 ^ L <= den * 2 ^ L) by nia.
      assert (H1 : 2 ^ L < 2 ^ 53) by lia.
      apply Z.pow_lt_mono_r_iff in H1; lia. }
    (* the significand is scaled by 2^p, p = 52 - L or, for a subnormal, 1074 *)
    set (e := Z.max (L - 52) (- 1074)).
    assert (He : e <= 0) by lia.
    assert (Hp : 52 - L <= - e \/ - e = 1074) by lia.
    clearbody e.
    set (p := - e) in *. assert (Ep : e = - p) by lia. clearbody p.
    assert (Hden : den < 2 * 2 ^ p \/ 2 * num < den).
    { destruct Hp as [Hp|Hp].
      - left.
        assert (M1 : 2 ^ (53 - L) <= 2 * 2 ^ p).
        { replace (2 * 2 ^ p) with (2 ^ (p + 1)) by (rewrite Z.pow_add_r by lia; lia).
          apply Z.pow_le_mono_r; lia. }
        destruct (Z.le_gt_cases 0 L) as [H|H].
        + specialize (L1 H).
          assert (P : 2 ^ 53 = 2 ^ (53 - L) * 2 ^ L).
          { rewrite <- Z.pow_add_r by lia. f_equal; lia. }
          assert (0 < 2 ^ L) by (apply Z.pow_pos_nonneg; lia).
          nia.
        + specialize (L2 H).
          assert (P : 2 ^ (53 - L) = 2 ^ 53 * 2 ^ (- L)).
          { rewrite <- Z.pow_add_r by lia. f_equal; lia. }
          assert (0 < 2 ^ (- L)) by (apply Z.pow_pos_nonneg; lia).
          nia.
      - subst p.
        destruct (Z.lt_ge_cases den (2 * 2 ^ 1074)) as [H|H]; [left; exact H|].
        right.
        assert (2 * 2 ^ 53 <= 2 * 2 ^ 1074)
          by (apply Z.leb_le; vm_compute; reflexivity).
        lia. }
    subst e. unfold scale2.
    destruct (Z.leb_spec 0 p) as [_|H]; [|lia].
    assert (HP : 0 < 2 ^ p) by (apply Z.pow_pos_nonneg; lia).
    pose proof (round_nearest_even_bounds (num * 2 ^ p) den ltac:(nia) Hd) as [R1 R2].
    set (m := round_nearest_even (num * 2 ^ p) den) in *. clearbody m.
    destruct (Z.ltb_spec 971 (- p)) as [H|_]; [lia|].
    destruct (Z.eqb_spec (- p) 971) as [H|_]; [lia|].
    simpl orb. cbv iota.
    pose proof (Z.div_mod num den ltac:(lia)) as E.
    pose proof (Z.mod_pos_bound num den Hd) as B.
    set (n := num / den) in *. clearbody n.
    assert (Hm : m / 2 ^ p = n).
    { assert (Q : n * 2 ^ p <= num * 2 ^ p / den).
      { apply Z.div_le_lower_bound; nia. }
      symmetry. apply Z.div_unique with (r := m - 2 ^ p * n); [|lia].
      left. split; [lia|].
      assert (m * den < (n + 1) * 2 ^ p * den); [|nia].
      destruct Hden as [Hden|Hden]; [nia|].
      assert (n = 0) by nia. subst n. nia. }
    unfold int_of_float.
    destruct (Z.leb_spec 0 (- p)) as [H|H].
    + assert (p = 0) as E0 by lia. subst p.
      simpl in Hm. rewrite Z.div_1_r in Hm. simpl. rewrite Z.mul_1_r, Hm.
      reflexivity.
    + rewrite Z.opp_involutive, Hm. reflexivity.
Qed.

(** Where the digits of a numeral, scaled by a positive exponent if there
    is one, stay below 2^53, reading it as binary64 and truncating is
    truncating the numeral. *)
Lemma int_of_binary64_of_decimal (neg : bool) (M E : Z) :
  0 <= M -> M * 10 ^ Z.max E 0 < 2 ^ 53 ->
  int_of_float (binary64_of_decimal neg M E)
  = Some (Z.quot ((if neg then - M else M) * 10 ^ Z.max E 0)
            (10 ^ Z.max (- E) 0)).
Proof.
  intros HM HB. unfold binary64_of_decimal.
  assert (HP : 0 < 10 ^ Z.max E 0) by (apply Z.pow_pos_nonneg; lia).
  assert (HQ : 0 < 10 ^ Z.max (- E) 0) by (apply Z.pow_pos_nonneg; lia).
  assert (R : Z.quot ((if neg then - M else M) * 10 ^ Z.max E 0)
                (10 ^ Z.max (- E) 0)
              = if neg then - (M * 10 ^ Z.max E 0 / 10 ^ Z.max (- E) 0)
                else M * 10 ^ Z.max E 0 / 10 ^ Z.max (- E) 0).
  { destruct neg.
    - rewrite Z.mul_opp_l, Z.quot_opp_l by lia.
      rewrite Z.quot_div_nonneg by nia. reflexivity.
    - apply Z.quot_div_nonneg; nia. }
  rewrite R.
  destruct (Z.leb_spec 0 E) as [H|H].
  - rewrite (Z.max_l E 0), (Z.max_r (- E) 0) in * by lia.
    simpl (10 ^ 0). apply int_of_binary64_of_ratio; [nia | lia].
  - rewrite (Z.max_r E 0), (Z.max_l (- E) 0) in * by lia.
    simpl (10 ^ 0) in *. rewrite Z.mul_1_r in *.
    apply int_of_binary64_of_ratio; lia.
Qed.

Lemma is_digit_lower_char (c : N) : is_digit c = true -> lower_char c = c.
Proof.
  unfold is_digit, lower_char, is_upper. rewrite andb_true_iff, !N.leb_le.
  intros [_ H]. destruct (N.leb_spec 65 c); [lia | reflexivity].
Qed.

Lemma is_digit_range (c : N) : is_digit c = true -> (48 <= c <= 57)%N.
Proof. unfold is_digit. rewrite andb_true_iff, !N.leb_le. taut. Qed.

(** A text that starts like a numeral is none of the special words. *)
Lemma not_word_of_head (neg : bool) (c : N) (s : pystr) :
  (lower_char c <> 105)%N -> (lower_char c <> 110)%N ->
  (if pystr_eqb (lower (c :: s)) (lit "inf")
      || pystr_eqb (lower (c :: s)) (lit "infinity")
   then Some (FInf neg)
   else if pystr_eqb (lower (c :: s)) (lit "nan") then Some FNan else None)
  = None.
Proof.
  intros H1 H2. simpl.
  apply N.eqb_neq in H1. apply N.eqb_neq in H2.
  change (N_of_ascii "i") with 105%N. change (N_of_ascii "n") with 110%N.
  now rewrite H1, H2.
Qed.

Lemma parse_decimal_not_inf_nan (t : pystr) (r : bool * Z * Z) :
  parse_decimal t = Some r -> parse_inf_nan t = None.
Proof.
  unfold parse_decimal, parse_inf_nan.
  destruct (read_sign t) as [neg s1].
  destruct s1 as [|c s1]; [simpl; discriminate|].
  destruct (is_digit c) eqn:D.
  - intros _. apply not_word_of_head;
      rewrite is_digit_lower_char by exact D; apply is_digit_range in D; lia.
  - simpl span_digits. rewrite D.
    destruct (N.eqb_spec c 46) as [->|Hc].
    + intros _. apply not_word_of_head; vm_compute; discriminate.
    + simpl. discriminate.
Qed.

Lemma safe_int_of_decimal (s t : pystr) (neg : bool) (M E : Z) :
  drop_underscores 0%N (float_text (strip s)) = Some t ->
  parse_decimal t = Some (neg, M, E) ->
  0 <= M -> M * 10 ^ Z.max E 0 < 2 ^ 53 ->
  safe_int (VStr s)
  = Z.quot ((if neg then - M else M) * 10 ^ Z.max E 0) (10 ^ Z.max (- E) 0).
Proof.
  intros Hd Hp HM HE.
  assert (G : forall u, In u [[]; lit "nan"; lit "NaN"] ->
                        pystr_eqb (strip s) u = false).
  { intros u Hu. apply pystr_eqb_neq. intros Heq. rewrite Heq in Hd.
    destruct Hu as [<-|[<-|[<-|[]]]]; vm_compute in Hd;
      injection Hd as <-; vm_compute in Hp; discriminate. }
  unfold safe_int. simpl str. simpl is_none.
  assert (is_empty_str (VStr s) = false) as ->.
  { destruct s; [|reflexivity]. specialize (G [] ltac:(simpl; auto)).
    vm_compute in G. discriminate. }
  rewrite !G by (simpl; auto). simpl orb. cbv iota.
  unfold float. rewrite Hd, (parse_decimal_not_inf_nan _ _ Hp), Hp.
  now rewrite int_of_binary64_of_decimal.
Qed.

(** The guards of [safe_int] only anticipate what the conversion gives. *)
Lemma safe_int_as_conversion (v : value) :
  safe_int v =
    match float (strip (str v)) with
    | Some x =>
        match int_of_float x with
        | Some z => z
        | None => 0
        end
    | None => 0
    end.
Proof.
  assert (G : forall u, In u [[]; lit "nan"; lit "NaN"] ->
                match float u with
                | Some x => match int_of_float x with
                            | Some z => z
                            | None => 0
                            end
                | None => 0
                end = 0).
  { intros u [<-|[<-|[<-|[]]]]; vm_compute; reflexivity. }
  unfold safe_int.
  destruct (is_none v) eqn:E0.
  { destruct v; try discriminate. vm_compute. reflexivity. }
  destruct (is_empty_str v) eqn:E1.
  { destruct v as [|[|c s]|z|t]; try discriminate. vm_compute. reflexivity. }
  simpl orb.
  destruct (pystr_eqb (strip (str v)) []) eqn:E2.
  { apply pystr_eqb_eq in E2. rewrite E2. symmetry. apply G. simpl. auto. }
  destruct (pystr_eqb (strip (str v)) (lit "nan")) eqn:E3.
  { apply pystr_eqb_eq in E3. rewrite E3. symmetry. apply G. simpl. auto. }
  destruct (pystr_eqb (strip (str v)) (lit "NaN")) eqn:E4.
  { apply pystr_eqb_eq in E4. rewrite E4. symmetry. apply G. simpl. auto. }
  reflexivity.
Qed.

Lemma safe_int_blank (s : pystr) :
  In (strip s) [[]; lit "nan"; lit "NaN"] -> safe_int (VStr s) = 0.
Proof.
  intros H. unfold safe_int. simpl str.
  destruct H as [<-|[<-|[<-|[]]]]; rewrite ?pystr_eqb_refl;
    rewrite ?orb_true_r; reflexivity.
Qed.

Lemma safe_int_unparseable (s : pystr) :
  float (strip s) = None -> safe_int (VStr s) = 0.
Proof.
  intros H. unfold safe_int. simpl str. rewrite H.
  destruct (_ || _); reflexivity.
Qed.

Lemma binary64_of_decimal_ratio (neg : bool) (M E : Z) :
  binary64_of_decimal neg M E
  = binary64_of_ratio neg (decimal_num M E) (decimal_den E).
Proof.
  unfold binary64_of_decimal, decimal_num, decimal_den.
  destruct (Z.leb_spec 0 E) as [H|H].
  - rewrite (Z.max_l E 0), (Z.max_r (- E) 0) by lia. reflexivity.
  - rewrite (Z.max_r E 0), (Z.max_l (- E) 0) by lia.
    change (10 ^ 0) with 1. rewrite Z.mul_1_r. reflexivity.
Qed.

Lemma int_of_float_finite (neg : bool) (m e : Z) :
  0 <= m ->
  int_of_float (FFinite neg m e) = Some (truncate_binary64 neg m e).
Proof.
  intros Hm. unfold int_of_float, truncate_binary64. f_equal.
  destruct (Z.leb_spec 0 e) as [H|H].
  - rewrite (Z.max_l e 0), (Z.max_r (- e) 0) by lia.
    change (2 ^ 0) with 1. rewrite Z.quot_1_r. destruct neg; ring.
  - rewrite (Z.max_r e 0), (Z.max_l (- e) 0) by lia.
    change (2 ^ 0) with 1. rewrite Z.mul_1_r.
    pose proof (pow2_pos (- e) ltac:(lia)).
    destruct neg.
    + rewrite Z.quot_opp_l by lia. rewrite Z.quot_div_nonneg by lia.
      reflexivity.
    + rewrite Z.quot_div_nonneg by lia. reflexivity.
Qed.

(** The truncation depends on the value only. *)
Lemma truncate_binary64_value (neg : bool) (m e : Z) :
  0 <= m -> - 1074 <= e ->
  truncate_binary64 neg m e
  = (if neg then - (m * 2 ^ (e + 1074) / 2 ^ 1074)
     else m * 2 ^ (e + 1074) / 2 ^ 1074).
Proof.
  intros Hm He. pose proof (int_of_float_finite neg m e Hm) as H.
  unfold int_of_float in H. injection H as <-.
  assert (E : (if 0 <=? e then m * 2 ^ e else m / 2 ^ (- e))
              = m * 2 ^ (e + 1074) / 2 ^ 1074).
  { pose proof (pow2_pos 1074 ltac:(lia)) as PP.
    destruct (Z.leb_spec 0 e) as [K|K].
    - rewrite pow2_add, Z.mul_assoc by lia. symmetry. apply Z.div_mul. lia.
    - pose proof (pow2_pos (e + 1074) ltac:(lia)) as PG.
      assert (P : 2 ^ 1074 = 2 ^ (- e) * 2 ^ (e + 1074)).
      { rewrite <- pow2_add by lia. f_equal. lia. }
      rewrite P. symmetry. apply Z.div_mul_cancel_r; lia. }
  rewrite E. reflexivity.
Qed.

Lemma nearest_binary64_truncate (neg : bool) (num den m e m' e' : Z) :
  0 < den ->
  nearest_binary64 num den m e -> nearest_binary64 num den m' e' ->
  m * 2 ^ (e + 1074) = m' * 2 ^ (e' + 1074)
  /\ truncate_binary64 neg m e = truncate_binary64 neg m' e'.
Proof.
  intros Hd N N'.
  pose proof (nearest_binary64_unique num den m e m' e' Hd N N') as V.
  split; [exact V|].
  destruct N as (He & Hm & _). destruct N' as (He' & Hm' & _).
  rewrite !truncate_binary64_value by lia. rewrite V. reflexivity.
Qed.

Lemma span_digits_spec (s : pystr) :
  s = fst (span_digits s) ++ snd (span_digits s)
  /\ forallb is_digit (fst (span_digits s)) = true.
Proof.
  induction s as [|c s [IH1 IH2]]; [split; reflexivity|].
  simpl. destruct (is_digit c) eqn:D.
  - destruct (span_digits s) as [d r]. simpl in *.
    split; [now f_equal | now rewrite D].
  - split; reflexivity.
Qed.

Lemma digits_value_bound (d : pystr) :
  forallb is_digit d = true ->
  0 <= digits_value d < 10 ^ Z.of_nat (List.length d).
Proof.
  unfold digits_value.
  assert (G : forall (l : pystr) (acc : Z),
             forallb is_digit l = true -> 0 <= acc ->
             0 <= fold_left (fun a c => 10 * a + digit_val c) l acc
             < (acc + 1) * 10 ^ Z.of_nat (List.length l)).
  { induction l as [|c l IH]; intros acc H Ha.
    - simpl. lia.
    - simpl forallb in H. apply andb_true_iff in H as [Hc H].
      apply is_digit_range in Hc. simpl fold_left.
      assert (Hv : 0 <= digit_val c <= 9) by (unfold digit_val; lia).
      specialize (IH (10 * acc + digit_val c) H ltac:(lia)).
      replace (Z.of_nat (List.length (c :: l)))
        with (1 + Z.of_nat (List.length l)) by (simpl List.length; lia).
      rewrite Z.pow_add_r by lia. change (10 ^ 1) with 10.
      assert (0 < 10 ^ Z.of_nat (List.length l))
        by (apply Z.pow_pos_nonneg; lia).
      set (P := 10 ^ Z.of_nat (List.length l)) in *.
      set (v := digit_val c) in *.
      set (f := fold_left _ _ _) in *. clearbody P v f.
      split; [lia|].
      assert ((10 * acc + v + 1) * P <= (10 * acc + 10) * P)
        by (apply Z.mul_le_mono_nonneg_r; lia).
      replace ((acc + 1) * (10 * P)) with ((10 * acc + 10) * P) by ring.
      lia. }
  intros H. specialize (G d 0 H ltac:(lia)). lia.
Qed.

(** The digits of a numeral are a number of at most as many digits as the
    text has characters. *)
Lemma parse_decimal_bound (t : pystr) (neg : bool) (M E : Z) :
  parse_decimal t = Some (neg, M, E) ->
  0 <= M < 10 ^ Z.of_nat (List.length t).
Proof.
  unfold parse_decimal.
  destruct (read_sign t) as [n s1] eqn:R.
  assert (L1 : (List.length s1 <= List.length t)%nat).
  { unfold read_sign in R. destruct t as [|c t'].
    - injection R as _ <-. simpl. lia.
    - destruct (c =? 45)%N; [injection R as _ <-; simpl; lia|].
      destruct (c =? 43)%N; injection R as _ <-; simpl; lia. }
  pose proof (span_digits_spec s1) as [S1 S2].
  destruct (span_digits s1) as [ip s2]. simpl in S1, S2.
  match goal with
  | |- context [let '(fp, s3) := ?X in _] => destruct X as [fp s3] eqn:F
  end.
  assert (L2 : forallb is_digit fp = true
               /\ (List.length fp <= List.length s2)%nat).
  { destruct s2 as [|c u].
    - injection F as <- _. split; [reflexivity | simpl; lia].
    - destruct (c =? 46)%N.
      + pose proof (span_digits_spec u) as [U1 U2]. rewrite F in U1, U2.
        simpl in U1, U2. split; [exact U2|].
        apply (f_equal (@List.length N)) in U1. rewrite length_app in U1.
        simpl. lia.
      + injection F as <- _. split; [reflexivity | simpl; lia]. }
  destruct L2 as [L2 L3].
  assert (B : 0 <= digits_value (ip ++ fp) < 10 ^ Z.of_nat (List.length t)).
  { pose proof (digits_value_bound (ip ++ fp)) as B.
    rewrite forallb_app, S2, L2 in B. specialize (B eq_refl).
    assert (LL : (List.length (ip ++ fp) <= List.length t)%nat).
    { rewrite length_app. rewrite S1, length_app in L1. lia. }
    assert (10 ^ Z.of_nat (List.length (ip ++ fp))
            <= 10 ^ Z.of_nat (List.length t))
      by (apply Z.pow_le_mono_r; lia).
    lia. }
  destruct (ip ++ fp) as [|c0 l] eqn:Eapp; [discriminate|].
  cbv zeta.
  destruct s3 as [|c u]; [intros H; injection H as _ <- _; exact B|].
  destruct ((c =? 101)%N || (c =? 69)%N); [|discriminate].
  destruct (read_sign u) as [eneg t1].
  destruct (span_digits t1) as [ed t2].
  destruct ed as [|d ed]; [discriminate|].
  destruct t2; [|discriminate].
  intros H; injection H as _ <- _; exact B.
Qed.

Lemma float_of_decimal (u t : pystr) (neg : bool) (M E : Z) :
  drop_underscores 0%N (float_text u) = Some t ->
  parse_decimal t = Some (neg, M, E) ->
  float u = Some (binary64_of_ratio neg (decimal_num M E) (decimal_den E)).
Proof.
  intros Hd Hp. unfold float.
  rewrite Hd, (parse_decimal_not_inf_nan _ _ Hp), Hp.
  now rewrite binary64_of_decimal_ratio.
Qed.

(** A numeral is read as the nearest binary64 value, and as an infinity
    from the half-way point above the greatest one on. *)
Lemma safe_int_nearest (v : value) (t : pystr) (neg : bool) (M E : Z) :
  drop_underscores 0%N (float_text (strip (str v))) = Some t ->
  parse_decimal t = Some (neg, M, E) -> 0 < M ->
  (binary64_overflow (decimal_num M E) (decimal_den E) -> safe_int v = 0)
  /\ (~ binary64_overflow (decimal_num M E) (decimal_den E) ->
      exists m e : Z,
        nearest_binary64 (decimal_num M E) (decimal_den E) m e
        /\ safe_int v = truncate_binary64 neg m e).
Proof.
  intros Hd Hp HM.
  rewrite safe_int_as_conversion, (float_of_decimal _ _ _ _ _ Hd Hp).
  assert (Hn : 0 < decimal_num M E).
  { unfold decimal_num. apply Z.mul_pos_pos; [exact HM|].
    apply Z.pow_pos_nonneg; lia. }
  assert (Hden : 0 < decimal_den E)
    by (unfold decimal_den; apply Z.pow_pos_nonneg; lia).
  pose proof (binary64_of_ratio_nearest neg _ _ Hn Hden) as B.
  destruct (binary64_of_ratio neg (decimal_num M E) (decimal_den E))
    as [|n|n m e]; [contradiction| |].
  - destruct B as [_ O]. split; [reflexivity | intros K; contradiction].
  - destruct B as (-> & NO & N). split; [intros O; contradiction|].
    intros _. exists m, e. split; [exact N|].
    rewrite int_of_float_finite; [reflexivity|].
    destruct N as (_ & [H _] & _). exact H.
Qed.

Lemma safe_int_inf_nan (v : value) (t : pystr) (x : pyfloat) :
  drop_underscores 0%N (float_text (strip (str v))) = Some t ->
  parse_inf_nan t = Some x -> safe_int v = 0.
Proof.
  intros Hd Hp. rewrite safe_int_as_conversion. unfold float.
  rewrite Hd, Hp. unfold parse_inf_nan in Hp.
  destruct (read_sign t) as [n s1].
  destruct (_ || _) in Hp; [injection Hp as <-; reflexivity|].
  destruct (pystr_eqb _ _) in Hp; [injection Hp as <-; reflexivity|].
  discriminate.
Qed.

(** What [float] makes of a text: nothing, one of the special words, or a
    numeral. *)
Lemma float_cases (u : pystr) :
  float u = None
  \/ (exists (t : pystr) (x : pyfloat),
        drop_underscores 0%N (float_text u) = Some t
        /\ parse_inf_nan t = Some x)
  \/ (exists (t : pystr) (neg : bool) (M E : Z),
        drop_underscores 0%N (float_text u) = Some t
        /\ parse_decimal t = Some (neg, M, E) /\ 0 <= M).
Proof.
  unfold float.
  destruct (drop_underscores 0%N (float_text u)) as [t|]; [|left; reflexivity].
  destruct (parse_inf_nan t) as [x|] eqn:W.
  { right. left. exists t, x. split; reflexivity || exact W. }
  destruct (parse_decimal t) as [[[neg M] E]|] eqn:P; [|left; reflexivity].
  right. right. exists t, neg, M, E.
  split; [reflexivity|]. split; [exact P|].
  apply parse_decimal_bound in P. lia.
Qed.

Lemma safe_int_short (s t : pystr) (neg : bool) (M E : Z) :
  drop_underscores 0%N (float_text (strip s)) = Some t ->
  parse_decimal t = Some (neg, M, E) ->
  E <= 0 -> (List.length t <= 15)%nat ->
  safe_int (VStr s)
  = Z.quot ((if neg then - M else M) * 10 ^ Z.max E 0) (10 ^ Z.max (- E) 0).
Proof.
  intros Hd Hp HE HL.
  pose proof (parse_decimal_bound _ _ _ _ Hp) as [B0 B1].
  apply (safe_int_of_decimal s t); try assumption.
  rewrite Z.max_r by lia. change (10 ^ 0) with 1. rewrite Z.mul_1_r.
  assert (10 ^ Z.of_nat (List.length t) <= 10 ^ 15)
    by (apply Z.pow_le_mono_r; lia).
  assert (10 ^ 15 < 2 ^ 53) by (vm_compute; reflexivity).
  lia.
Qed.

(** C6 (amended): [safe_int] is total; it is 0 for [None], for an empty or
    blank text and for the markers nan and NaN, and 0 for every text [float]
    rejects; for every value it is the truncation toward zero of the
    binary64 value [float] reads from the trimmed text, and 0 where there is
    none or it is no finite number.  For a numeral that value is the
    binary64 value nearest to it, the one with the even significand where
    two are equally near, which its distance to the numeral determines; the
    result is 0 where the numeral is at or beyond 2^1024 - 2^970, which is
    read as an infinity, and for the words inf, infinity and nan; a text
    [float] accepts is one of these words or a numeral.  For a numeral
    whose digits, read without the point and scaled by the net exponent
    where that is positive, are an integer below 2^53, the result is the
    truncation toward zero of the numeral itself; so it is for every
    numeral of at most 15 characters whose net exponent is not positive.
    Beyond 2^53 the rounding shows: 9007199254740995 gives
    9007199254740996. *)
Theorem safe_int_coercion :
  safe_int VNone = 0
  /\ (forall s : pystr,
        In (strip s) [[]; lit "nan"; lit "NaN"] -> safe_int (VStr s) = 0)
  /\ (forall s : pystr, float (strip s) = None -> safe_int (VStr s) = 0)
  /\ (forall v : value,
        safe_int v =
          match float (strip (str v)) with
          | Some x =>
              match int_of_float x with
              | Some z => z
              | None => 0
              end
          | None => 0
          end)
  /\ (forall (s t : pystr) (neg : bool) (M E : Z),
        drop_underscores 0%N (float_text (strip s)) = Some t ->
        parse_decimal t = Some (neg, M, E) ->
        0 <= M -> M * 10 ^ Z.max E 0 < 2 ^ 53 ->
        safe_int (VStr s)
        = Z.quot ((if neg then - M else M) * 10 ^ Z.max E 0)
            (10 ^ Z.max (- E) 0))
  /\ (forall (t : pystr) (neg : bool) (M E : Z),
        parse_decimal t = Some (neg, M, E) ->
        0 <= M < 10 ^ Z.of_nat (List.length t))
  /\ (forall (s t : pystr) (neg : bool) (M E : Z),
        drop_underscores 0%N (float_text (strip s)) = Some t ->
        parse_decimal t = Some (neg, M, E) ->
        E <= 0 -> (List.length t <= 15)%nat ->
        safe_int (VStr s)
        = Z.quot ((if neg then - M else M) * 10 ^ Z.max E 0)
            (10 ^ Z.max (- E) 0))
  /\ (forall (v : value) (t : pystr) (neg : bool) (M E : Z),
        drop_underscores 0%N (float_text (strip (str v))) = Some t ->
        parse_decimal t = Some (neg, M, E) -> 0 < M ->
        (binary64_overflow (decimal_num M E) (decimal_den E) ->
         safe_int v = 0)
        /\ (~ binary64_overflow (decimal_num M E) (decimal_den E) ->
            exists m e : Z,
              nearest_binary64 (decimal_num M E) (decimal_den E) m e
              /\ safe_int v = truncate_binary64 neg m e))
  /\ (forall (neg : bool) (num den m e m' e' : Z),
        0 < den ->
        nearest_binary64 num den m e -> nearest_binary64 num den m' e' ->
        m * 2 ^ (e + 1074) = m' * 2 ^ (e' + 1074)
        /\ truncate_binary64 neg m e = truncate_binary64 neg m' e')
  /\ (forall (v : value) (t : pystr) (x : pyfloat),
        drop_underscores 0%N (float_text (strip (str v))) = Some t ->
        parse_inf_nan t = Some x -> safe_int v = 0)
  /\ (forall v : value,
        float (strip (str v)) = None
        \/ (exists (t : pystr) (x : pyfloat),
              drop_underscores 0%N (float_text (strip (str v))) = Some t
              /\ parse_inf_nan t = Some x)
        \/ (exists (t : pystr) (neg : bool) (M E : Z),
              drop_underscores 0%N (float_text (strip (str v))) = Some t
              /\ parse_decimal t = Some (neg, M, E) /\ 0 <= M))
  /\ safe_int (VStr (lit "12.0")) = 12
  /\ safe_int (VStr (lit "-3.7")) = -3
  /\ safe_int (VStr (lit "abc")) = 0
  /\ safe_int (VStr (lit "1e400")) = 0
  /\ safe_int (VInt 0) = 0
  /\ safe_int (VStr (lit "9007199254740995")) = 9007199254740996
  /\ safe_int (VStr (lit "9007199254740997")) = 9007199254740996
  /\ safe_int (VStr (lit "-9007199254740995")) = -9007199254740996
  /\ safe_int (VStr (lit "0.99999999999999999999")) = 1
  /\ safe_int (VStr (lit "1e23")) = 99999999999999991611392
  /\ safe_int (VStr (lit "123456789012345000000")) = 123456789012344995840
  /\ safe_int (VFloat (lit "12.9")) = 12
  /\ safe_int (VStr (lit "-inf")) = 0
  /\ safe_int (VStr (lit "4.9e-324")) = 0.
Proof.
  split; [reflexivity|].
  split; [exact safe_int_blank|].
  split; [exact safe_int_unparseable|].
  split; [exact safe_int_as_conversion|].
  split; [exact safe_int_of_decimal|].
  split; [exact parse_decimal_bound|].
  split; [exact safe_int_short|].
  split; [exact safe_int_nearest|].
  split; [intros neg num den m e m' e'; apply nearest_binary64_truncate|].
  split; [exact safe_int_inf_nan|].
  split; [intros v; apply float_cases|].
  repeat split; vm_compute; reflexivity.
Qed.

(** ** The record mapping *)

Lemma view_keys {A} (f : player -> A) (d : dict player) :
  map fst (view f d) = map fst d.
Proof. unfold view. rewrite map_map. reflexivity. Qed.

Lemma view_update {A} (f : player -> A) (g : player -> player) (k : pystr)
    (d : dict player) :
  (forall p, f (g p) = f p) -> view f (dict_update k g d) = view f d.
Proof.
  intros Hg. induction d as [|[k' v] d IH]; simpl; [reflexivity|].
  destruct (pystr_eqb k' k); simpl; [now rewrite Hg | now rewrite IH].
Qed.

Lemma gk_row_view {A} (f : player -> A) (d : dict player) (r : row) :
  ignores f set_cleanSheets -> ignores f set_saves ->
  ignores f set_penaltySaves -> ignores f set_goalsConceded ->
  view f (gk_row d r) = view f d.
Proof.
  intros H1 H2 H3 H4. unfold gk_row.
  destruct (skipped (row_name r)); [reflexivity|].
  destruct (dict_mem _ d); [|reflexivity].
  rewrite !view_update; auto.
Qed.

Lemma def_row_view {A} (f : player -> A) (d : dict player) (r : row) :
  ignores f set_tacklesWon -> ignores f set_interceptions ->
  view f (def_row d r) = view f d.
Proof.
  intros H1 H2. unfold def_row.
  destruct (skipped (row_name r)); [reflexivity|].
  destruct (dict_mem _ d); [|reflexivity].
  rewrite !view_update; auto.
Qed.

Lemma passing_row_view {A} (f : player -> A) (d : dict player) (r : row) :
  ignores f set_keyPasses -> ignores f set_bigChancesCreated ->
  view f (passing_row d r) = view f d.
Proof.
  intros H1 H2. unfold passing_row.
  destruct (skipped (row_name r)); [reflexivity|].
  destruct (dict_mem _ d); [|reflexivity].
  rewrite !view_update; auto.
Qed.

Lemma merge_table_view {A} (f : player -> A)
    (step : dict player -> row -> dict player) (fetched : option table)
    (d : dict player) :
  (forall d' r, view f (step d' r) = view f d') ->
  view f (merge_table step fetched d) = view f d.
Proof.
  intros Hstep. destruct fetched as [t|]; [|reflexivity]. simpl.
  revert d. induction t as [|r t IH]; intros d; simpl; [reflexivity|].
  now rewrite IH, Hstep.
Qed.

(** The fields a pass does not own are the same before and after it. *)
Lemma merge_gk_frame (gk : option table) (d : dict player) :
  view standard_fields (merge_table gk_row gk d) = view standard_fields d
  /\ view defensive_fields (merge_table gk_row gk d) = view defensive_fields d
  /\ view passing_fields (merge_table gk_row gk d) = view passing_fields d.
Proof.
  repeat split; apply merge_table_view; intros d' r; apply gk_row_view;
    intros x p; reflexivity.
Qed.

Lemma merge_def_frame (defn : option table) (d : dict player) :
  view standard_fields (merge_table def_row defn d) = view standard_fields d
  /\ view goalkeeping_fields (merge_table def_row defn d)
     = view goalkeeping_fields d
  /\ view passing_fields (merge_table def_row defn d) = view passing_fields d.
Proof.
  repeat split; apply merge_table_view; intros d' r; apply def_row_view;
    intros x p; reflexivity.
Qed.

Lemma merge_passing_frame (passing : option table) (d : dict player) :
  view standard_fields (merge_table passing_row passing d)
  = view standard_fields d
  /\ view goalkeeping_fields (merge_table passing_row passing d)
     = view goalkeeping_fields d
  /\ view defensive_fields (merge_table passing_row passing d)
     = view defensive_fields d.
Proof.
  repeat split; apply merge_table_view; intros d' r; apply passing_row_view;
    intros x p; reflexivity.
Qed.

Lemma merge_all_standard (gk defn passing : option table) (d : dict player) :
  view standard_fields (merge_all gk defn passing d) = view standard_fields d.
Proof.
  unfold merge_all.
  rewrite (proj1 (merge_passing_frame _ _)), (proj1 (merge_def_frame _ _)).
  apply merge_gk_frame.
Qed.

(** C4: each enrichment pass leaves the keys and, for every record, all
    fields but those its table owns as they were; after the three passes
    id, name, club, pos and the standard-stat fields of every record are
    those of the end of the seeding pass. *)
Theorem enrichment_frame (gk defn passing : option table) (d : dict player)
    (std : table) :
  (view standard_fields (merge_table gk_row gk d) = view standard_fields d
   /\ view defensive_fields (merge_table gk_row gk d) = view defensive_fields d
   /\ view passing_fields (merge_table gk_row gk d) = view passing_fields d)
  /\ (view standard_fields (merge_table def_row defn d)
      = view standard_fields d
      /\ view goalkeeping_fields (merge_table def_row defn d)
         = view goalkeeping_fields d
      /\ view passing_fields (merge_table def_row defn d)
         = view passing_fields d)
  /\ (view standard_fields (merge_table passing_row passing d)
      = view standard_fields d
      /\ view goalkeeping_fields (merge_table passing_row passing d)
         = view goalkeeping_fields d
      /\ view defensive_fields (merge_table passing_row passing d)
         = view defensive_fields d)
  /\ view standard_fields (merge_all gk defn passing (seed std))
     = view standard_fields (seed std).
Proof.
  split; [apply merge_gk_frame|].
  split; [apply merge_def_frame|].
  split; [apply merge_passing_frame|].
  apply merge_all_standard.
Qed.

(** ** Seeding *)

Lemma dict_set_Forall {V} (P : pystr * V -> Prop) (k : pystr) (v : V)
    (d : dict V) :
  Forall P d -> P (k, v) -> Forall P (dict_set k v d).
Proof.
  intros Hd Hkv. induction Hd as [|[k' v'] d Hx Hd IH]; simpl.
  - constructor; [exact Hkv | constructor].
  - destruct (pystr_eqb k' k) eqn:E.
    + apply pystr_eqb_eq in E. subst k'. constructor; assumption.
    + constructor; assumption.
Qed.

Lemma seed_row_seeded (std : table) (d : dict player) (r : row) :
  In r std -> Forall (seeded std) d -> Forall (seeded std) (seed_row d r).
Proof.
  intros Hr Hd. unfold seed_row.
  destruct (skipped (row_name r)) eqn:S; [exact Hd|].
  apply dict_set_Forall; [exact Hd|].
  exists r. simpl. repeat split; assumption.
Qed.

Lemma seed_seeded (std : table) : Forall (seeded std) (seed std).
Proof.
  unfold seed.
  assert (G : forall l d, incl l std -> Forall (seeded std) d ->
                          Forall (seeded std) (fold_left seed_row l d)).
  { induction l as [|r l IH]; intros d Hl Hd; simpl; [exact Hd|].
    apply IH.
    - intros x Hx. apply Hl. now right.
    - apply seed_row_seeded; [apply Hl; now left | exact Hd]. }
  apply G; [apply incl_refl | constructor].
Qed.

(** ** From the output back to the seeding pass *)

Lemma view_In {A} (f : player -> A) (d d' : dict player) (e' : pystr * player) :
  view f d' = view f d -> In e' d' ->
  exists e, In e d /\ fst e = fst e' /\ f (snd e) = f (snd e').
Proof.
  intros Hv Hin.
  assert (H : In (fst e', f (snd e')) (view f d)).
  { rewrite <- Hv. unfold view.
    apply in_map with (f := fun e => (fst e, f (snd e))) in Hin. exact Hin. }
  unfold view in H. apply in_map_iff in H. destruct H as (e & He & Hine).
  exists e. inversion He. auto.
Qed.

Lemma insert_desc_perm (x : scored) (l : list scored) :
  Permutation (insert_desc x l) (x :: l).
Proof.
  induction l as [|y l IH]; simpl; [reflexivity|].
  destruct (points x <? points y); [|reflexivity].
  rewrite IH. apply perm_swap.
Qed.

Lemma sort_points_desc_perm (l : list scored) :
  Permutation (sort_points_desc l) l.
Proof.
  induction l as [|x l IH]; simpl; [reflexivity|].
  rewrite insert_desc_perm. now constructor.
Qed.

Lemma main_written (std : table) (gk defn passing : option table) :
  main (Some std) gk defn passing =
    {| exit_code := 0;
       written := Some {| season := lit "2024-25";
                          league := lit "La Liga";
                          source := lit "FBref.com";
                          players :=
                            sort_points_desc
                              (map score
                                 (dict_values
                                    (merge_all gk defn passing (seed std)))) |} |}.
Proof. reflexivity. Qed.

Lemma output_origin (std : table) (gk defn passing : option table)
    (doc : document) (sp : scored) :
  written (main (Some std) gk defn passing) = Some doc ->
  In sp (players doc) ->
  exists e, In e (merge_all gk defn passing (seed std)) /\ sp = score (snd e).
Proof.
  rewrite main_written. simpl. intros [= <-]. simpl. intros Hin.
  apply (Permutation_in _ (sort_points_desc_perm _)) in Hin.
  apply in_map_iff in Hin. destruct Hin as (p & <- & Hp).
  unfold dict_values in Hp. apply in_map_iff in Hp.
  destruct Hp as (e & <- & He). exists e. auto.
Qed.

Lemma output_seeded (std : table) (gk defn passing : option table)
    (doc : document) (sp : scored) :
  written (main (Some std) gk defn passing) = Some doc ->
  In sp (players doc) ->
  exists e, seeded std e
            /\ standard_fields (snd e) = standard_fields (rec sp).
Proof.
  intros Hw Hin.
  destruct (output_origin _ _ _ _ _ _ Hw Hin) as (e' & He' & ->).
  destruct (view_In standard_fields _ _ e'
              (merge_all_standard gk defn passing (seed std)) He')
    as (e & He & _ & Hf).
  exists e. split; [|exact Hf].
  pose proof (seed_seeded std) as S. rewrite Forall_forall in S. now apply S.
Qed.

(** C3: no enrichment pass changes the keys of the mapping, so after the
    three passes they are the keys of the seeding pass, each of them the key
    of a row of the primary table that was not skipped; and a key that no
    such row has is the key of no record of the output, whatever the
    secondary tables hold. *)
Theorem primary_table_only (std : table) (gk defn passing : option table) :
  (forall d : dict player,
      map fst (merge_table gk_row gk d) = map fst d
      /\ map fst (merge_table def_row defn d) = map fst d
      /\ map fst (merge_table passing_row passing d) = map fst d)
  /\ map fst (merge_all gk defn passing (seed std)) = map fst (seed std)
  /\ (forall k : pystr,
        In k (map fst (seed std)) ->
        exists r, In r std /\ skipped (row_name r) = false
                  /\ k = normalise_name (VStr (row_name r)))
  /\ (forall (key : pystr) (doc : document) (sp : scored),
        (forall r, In r std -> skipped (row_name r) = false ->
                   normalise_name (VStr (row_name r)) <> key) ->
        written (main (Some std) gk defn passing) = Some doc ->
        In sp (players doc) ->
        normalise_name (VStr (name (rec sp))) <> key).
Proof.
  split; [|split; [|split]].
  - intros d.
    rewrite <- (view_keys standard_fields (merge_table gk_row gk d)),
      <- (view_keys standard_fields (merge_table def_row defn d)),
      <- (view_keys standard_fields (merge_table passing_row passing d)).
    rewrite (proj1 (merge_gk_frame _ _)), (proj1 (merge_def_frame _ _)),
      (proj1 (merge_passing_frame _ _)), view_keys.
    auto.
  - rewrite <- (view_keys standard_fields (merge_all _ _ _ _)).
    now rewrite merge_all_standard, view_keys.
  - intros k Hk. apply in_map_iff in Hk. destruct Hk as (e & <- & He).
    pose proof (seed_seeded std) as S. rewrite Forall_forall in S.
    destruct (S e He) as (r & Hr & Hs & Hkey & _). exists r. auto.
  - intros key doc sp Hkey Hw Hin.
    destruct (output_seeded _ _ _ _ _ _ Hw Hin)
      as (e & (r & Hr & Hs & _ & Hn & _) & Hf).
    assert (Hname : name (rec sp) = row_name r).
    { unfold standard_fields in Hf. congruence. }
    rewrite Hname. now apply Hkey.
Qed.

(** C10: every record of the output has the id its seeding row gave it,
    the absolute value of the hash of the display name modulo 100000, and
    so an id from 0 up to 99999. *)
Theorem output_id_range (std gk defn passing : option table) (doc : document) :
  written (main std gk defn passing) = Some doc ->
  Forall (fun sp =>
            0 <= id (rec sp) < 100000
            /\ id (rec sp) = Z.abs (hash (name (rec sp))) mod 100000)
    (players doc).
Proof.
  destruct std as [t|]; [|discriminate].
  intros Hw. apply Forall_forall. intros sp Hin.
  destruct (output_seeded _ _ _ _ _ _ Hw Hin)
    as (e & (r & _ & _ & _ & Hn & Hid & _) & Hf).
  assert (Hid' : id (rec sp) = id (snd e) /\ name (rec sp) = name (snd e)).
  { unfold standard_fields in Hf. split; congruence. }
  destruct Hid' as [-> ->]. rewrite Hn, Hid.
  split; [apply Z.mod_pos_bound; lia | reflexivity].
Qed.

(** ** Failed and empty secondary tables *)

Lemma output_field_default {A} (f : player -> A) (a : A) (std : table)
    (gk defn passing : option table) (doc : document) :
  view f (merge_all gk defn passing (seed std)) = view f (seed std) ->
  (forall e, seeded std e -> f (snd e) = a) ->
  written (main (Some std) gk defn passing) = Some doc ->
  Forall (fun sp => f (rec sp) = a) (players doc).
Proof.
  intros Hv Ha Hw. apply Forall_forall. intros sp Hin.
  destruct (output_origin _ _ _ _ _ _ Hw Hin) as (e' & He' & ->). simpl.
  destruct (view_In f _ _ e' Hv He') as (e & He & _ & <-).
  apply Ha. pose proof (seed_seeded std) as S. rewrite Forall_forall in S.
  now apply S.
Qed.

Lemma merge_table_skipped (step : dict player -> row -> dict player)
    (fetched : option table) (d : dict player) :
  fetched = None \/ fetched = Some [] -> merge_table step fetched d = d.
Proof. intros [-> | ->]; reflexivity. Qed.

(** C5: a secondary table that could not be fetched, or that has no row,
    changes nothing in the mapping; the run still ends with exit code 0 and
    writes the scored and sorted records; and the fields that table owns
    are 0 in every record of the output. *)
Theorem secondary_failure_tolerated (std : table)
    (gk defn passing : option table) :
  (forall (step : dict player -> row -> dict player) (d : dict player),
      merge_table step None d = d /\ merge_table step (Some []) d = d)
  /\ exists doc,
       main (Some std) gk defn passing
       = {| exit_code := 0; written := Some doc |}
       /\ players doc
          = sort_points_desc
              (map score (dict_values (merge_all gk defn passing (seed std))))
       /\ (gk = None \/ gk = Some [] ->
           Forall (fun sp => goalkeeping_fields (rec sp) = (0, 0, 0, 0))
             (players doc))
       /\ (defn = None \/ defn = Some [] ->
           Forall (fun sp => defensive_fields (rec sp) = (0, 0)) (players doc))
       /\ (passing = None \/ passing = Some [] ->
           Forall (fun sp => passing_fields (rec sp) = (0, 0)) (players doc)).
Proof.
  split; [intros step d; split; reflexivity|].
  eexists. split; [apply main_written|]. split; [reflexivity|].
  split; [|split]; intros Hskip.
  - apply (output_field_default goalkeeping_fields (0, 0, 0, 0) std gk defn passing).
    + unfold merge_all.
      rewrite (proj1 (proj2 (merge_passing_frame _ _))),
        (proj1 (proj2 (merge_def_frame _ _))).
      now rewrite merge_table_skipped.
    + intros e (r & _ & _ & _ & _ & _ & H & _). exact H.
    + rewrite main_written. reflexivity.
  - apply (output_field_default defensive_fields (0, 0) std gk defn passing).
    + unfold merge_all.
      rewrite (proj2 (proj2 (merge_passing_frame _ _))).
      rewrite (merge_table_skipped def_row) by exact Hskip.
      apply merge_gk_frame.
    + intros e (r & _ & _ & _ & _ & _ & _ & H & _). exact H.
    + rewrite main_written. reflexivity.
  - apply (output_field_default passing_fields (0, 0) std gk defn passing).
    + unfold merge_all.
      rewrite (merge_table_skipped passing_row) by exact Hskip.
      rewrite (proj2 (proj2 (merge_def_frame _ _))).
      apply merge_gk_frame.
    + intros e (r & _ & _ & _ & _ & _ & _ & _ & H). exact H.
    + rewrite main_written. reflexivity.
Qed.

(** ** Sorting *)

Lemma insert_desc_sorted (x : scored) (l : list scored) :
  StronglySorted points_ge l -> StronglySorted points_ge (insert_desc x l).
Proof.
  induction 1 as [|y l Hl IH Hy]; simpl.
  - constructor; constructor.
  - destruct (Z.ltb_spec (points x) (points y)) as [Hlt|Hge].
    + constructor; [exact IH|].
      apply (Permutation_Forall (Permutation_sym (insert_desc_perm x l))).
      constructor; [unfold points_ge; lia | exact Hy].
    + constructor; [constructor; assumption|].
      constructor; [unfold points_ge; lia|].
      apply Forall_impl with (P := points_ge y); [|exact Hy].
      unfold points_ge. intros z Hz. lia.
Qed.

Lemma sort_points_desc_sorted (l : list scored) :
  StronglySorted points_ge (sort_points_desc l).
Proof.
  induction l as [|x l IH]; simpl; [constructor|].
  now apply insert_desc_sorted.
Qed.

Lemma insert_desc_with_points (v : Z) (x : scored) (l : list scored) :
  with_points v (insert_desc x l) = with_points v (x :: l).
Proof.
  unfold with_points.
  induction l as [|y l IH]; simpl; [reflexivity|].
  destruct (Z.ltb_spec (points x) (points y)) as [Hlt|Hge]; [|reflexivity].
  simpl. rewrite IH. simpl.
  destruct (Z.eqb_spec (points y) v) as [Hy|Hy];
    destruct (Z.eqb_spec (points x) v) as [Hx|Hx]; try reflexivity.
  lia.
Qed.

Lemma sort_points_desc_stable (v : Z) (l : list scored) :
  with_points v (sort_points_desc l) = with_points v l.
Proof.
  induction l as [|x l IH]; simpl; [reflexivity|].
  rewrite insert_desc_with_points. unfold with_points in *. simpl.
  now rewrite IH.
Qed.

Lemma filter_cons_inv {A} (f : A -> bool) (l : list A) (a : A) (w : list A) :
  filter f l = a :: w ->
  exists l1 l2, l = l1 ++ a :: l2 /\ filter f l1 = [] /\ filter f l2 = w
                /\ f a = true.
Proof.
  induction l as [|x l IH]; simpl; [discriminate|].
  destruct (f x) eqn:E.
  - intros [= -> <-]. exists [], l. auto.
  - intros H. destruct (IH H) as (l1 & l2 & -> & H1 & H2 & Ha).
    exists (x :: l1), l2. simpl. rewrite E. auto.
Qed.

Lemma filter_app_cons_inv {A} (f : A -> bool) (u : list A) (l : list A)
    (a : A) (w : list A) :
  filter f l = u ++ a :: w ->
  exists l1 l2, l = l1 ++ a :: l2 /\ filter f l1 = u /\ filter f l2 = w.
Proof.
  revert l. induction u as [|x u IH]; intros l H; simpl in H.
  - destruct (filter_cons_inv f l a w H) as (l1 & l2 & ? & ? & ? & _).
    exists l1, l2. auto.
  - destruct (filter_cons_inv f l x _ H) as (k1 & k2 & -> & H1 & H2 & Hx).
    destruct (IH k2 H2) as (m1 & m2 & -> & H3 & H4).
    exists (k1 ++ x :: m1), m2. rewrite <- app_assoc. simpl.
    split; [reflexivity|]. split; [|exact H4].
    rewrite filter_app. simpl. rewrite H1, Hx, H3. reflexivity.
Qed.

(** Two records with the same points keep their order through the sort. *)
Lemma sort_points_desc_keeps_order (l l1 l2 l3 : list scored) (a b : scored) :
  l = l1 ++ a :: l2 ++ b :: l3 -> points a = points b ->
  exists o1 o2 o3, sort_points_desc l = o1 ++ a :: o2 ++ b :: o3.
Proof.
  intros Hl Hab.
  pose proof (sort_points_desc_stable (points a) l) as S.
  rewrite Hl in S at 2. unfold with_points in S.
  rewrite filter_app in S. simpl in S. rewrite Z.eqb_refl in S.
  rewrite filter_app in S. simpl in S.
  rewrite Hab, Z.eqb_refl, <- Hab in S.
  destruct (filter_app_cons_inv _ _ _ _ _ S) as (o1 & r & Ho & _ & Hr).
  destruct (filter_app_cons_inv _ _ _ _ _ Hr) as (o2 & o3 & -> & _ & _).
  exists o1, o2, o3. exact Ho.
Qed.

(** C7: the players of the output are the scored records of the merge in
    descending order of points; for every number of points the records
    with that many points stand in the output in the order the merge
    produced them, so of two records with equal points the one the merge
    produced first comes first in the output. *)
Theorem output_sorted_stable (std : table) (gk defn passing : option table) :
  exists doc,
    written (main (Some std) gk defn passing) = Some doc
    /\ StronglySorted points_ge (players doc)
    /\ Permutation (players doc)
         (map score (dict_values (merge_all gk defn passing (seed std))))
    /\ (forall v : Z,
          with_points v (players doc)
          = with_points v
              (map score (dict_values (merge_all gk defn passing (seed std)))))
    /\ (forall (a b : scored) (l1 l2 l3 : list scored),
          map score (dict_values (merge_all gk defn passing (seed std)))
          = l1 ++ a :: l2 ++ b :: l3 ->
          points a = points b ->
          exists o1 o2 o3, players doc = o1 ++ a :: o2 ++ b :: o3)
    /\ Forall (fun sp => points sp = calculate_points (rec sp)) (players doc).
Proof.
  eexists. split; [rewrite main_written; reflexivity|]. simpl.
  split; [apply sort_points_desc_sorted|].
  split; [apply sort_points_desc_perm|].
  split; [intros v; apply sort_points_desc_stable|].
  split; [intros a b l1 l2 l3; apply sort_points_desc_keeps_order|].
  apply (Permutation_Forall (Permutation_sym (sort_points_desc_perm _))).
  apply Forall_forall. intros sp Hin. apply in_map_iff in Hin.
  destruct Hin as (p & <- & _). reflexivity.
Qed.

(** ** Exit code *)

Lemma dict_nil_of_keys {V} (d : dict V) : map fst d = [] -> d = [].
Proof. destruct d; [reflexivity | discriminate]. Qed.

Lemma merge_all_nil (gk defn passing : option table) :
  merge_all gk defn passing [] = [].
Proof.
  apply dict_nil_of_keys.
  rewrite <- (view_keys standard_fields). now rewrite merge_all_standard.
Qed.

(** C2 (amended): the run ends with exit code 1 and writes nothing exactly
    when the fetch of the primary table returns no table; with a table, be
    it one without rows, it ends with exit code 0 and writes the document,
    whatever the three secondary fetches return; a primary table without
    rows gives a document with no player. *)
Theorem exit_code_policy (std gk defn passing : option table) :
  match std with
  | None =>
      main std gk defn passing = {| exit_code := 1; written := None |}
  | Some t =>
      exists doc,
        main std gk defn passing = {| exit_code := 0; written := Some doc |}
        /\ players doc
           = sort_points_desc
               (map score (dict_values (merge_all gk defn passing (seed t))))
  end
  /\ exists doc,
       main (Some []) gk defn passing
       = {| exit_code := 0; written := Some doc |}
       /\ players doc = [].
Proof.
  split.
  - destruct std as [t|]; [|reflexivity].
    eexists. split; [apply main_written | reflexivity].
  - eexists. split; [apply main_written|]. simpl.
    unfold seed. simpl. now rewrite merge_all_nil.
Qed.

(** * Further properties *)

(** ** Coercion and padding *)

(** X1: white space around a text never changes what [safe_int] makes of
    it. *)
Theorem safe_int_ignores_padding (s : pystr) :
  safe_int (VStr (strip s)) = safe_int (VStr s).
Proof.
  rewrite !safe_int_as_conversion. simpl str. now rewrite strip_idem.
Qed.

(** ** Letter case of position tags *)

Lemma split_comma_first_map (f : N -> N) (s : pystr) :
  (forall c, (f c =? 44)%N = (c =? 44)%N) ->
  split_comma_first (map f s) = map f (split_comma_first s).
Proof.
  intros Hf. induction s as [|c s IH]; simpl; [reflexivity|].
  rewrite Hf. destruct (c =? 44)%N; simpl; [reflexivity | now rewrite IH].
Qed.

Lemma lstrip_map (f : N -> N) (s : pystr) :
  (forall c, isspace (f c) = isspace c) ->
  lstrip (map f s) = map f (lstrip s).
Proof.
  intros Hf. induction s as [|c s IH]; simpl; [reflexivity|].
  rewrite Hf. destruct (isspace c); [exact IH | reflexivity].
Qed.

Lemma strip_map (f : N -> N) (s : pystr) :
  (forall c, isspace (f c) = isspace c) ->
  strip (map f s) = map f (strip s).
Proof.
  intros Hf. unfold strip, rstrip.
  rewrite lstrip_map, <- map_rev, lstrip_map, map_rev by exact Hf.
  reflexivity.
Qed.

Lemma is_lower_range (c : N) : is_lower c = true -> (97 <= c <= 122)%N.
Proof.
  unfold is_lower. rewrite andb_true_iff, !N.leb_le. taut.
Qed.

Lemma isspace_upper_char (c : N) : isspace (upper_char c) = isspace c.
Proof.
  unfold upper_char. destruct (is_lower c) eqn:E; [|reflexivity].
  apply is_lower_range in E.
  rewrite !isspace_printable by lia. reflexivity.
Qed.

Lemma comma_upper_char (c : N) : (upper_char c =? 44)%N = (c =? 44)%N.
Proof.
  unfold upper_char. destruct (is_lower c) eqn:E; [|reflexivity].
  apply is_lower_range in E.
  destruct (N.eqb_spec (c - 32) 44); destruct (N.eqb_spec c 44);
    try reflexivity; lia.
Qed.

Lemma comma_lower_char (c : N) : (lower_char c =? 44)%N = (c =? 44)%N.
Proof.
  unfold lower_char. destruct (is_upper c) eqn:E; [|reflexivity].
  apply is_upper_range in E.
  destruct (N.eqb_spec (c + 32) 44); destruct (N.eqb_spec c 44);
    try reflexivity; lia.
Qed.

Lemma upper_char_idem (c : N) : upper_char (upper_char c) = upper_char c.
Proof.
  unfold upper_char. destruct (is_lower c) eqn:E; [|now rewrite E].
  apply is_lower_range in E.
  replace (is_lower (c - 32)) with false; [reflexivity|].
  symmetry. unfold is_lower. apply andb_false_iff. left. apply N.leb_gt. lia.
Qed.

Lemma upper_lower_char (c : N) : upper_char (lower_char c) = upper_char c.
Proof.
  unfold lower_char. destruct (is_upper c) eqn:E; [|reflexivity].
  apply is_upper_range in E. unfold upper_char.
  replace (is_lower (c + 32)) with true.
  - replace (is_lower c) with false; [lia|].
    symmetry. unfold is_lower. apply andb_false_iff. left. apply N.leb_gt. lia.
  - symmetry. unfold is_lower. apply andb_true_iff.
    split; apply N.leb_le; lia.
Qed.

(** X2: the letter case of an ASCII position tag does not matter: the tag,
    its upper-case form and its lower-case form are classified alike. *)
Theorem classify_ignores_case (s : pystr) :
  forallb is_ascii s = true ->
  classify (VStr (upper s)) = classify (VStr s)
  /\ classify (VStr (lower s)) = classify (VStr s).
Proof.
  intros _. unfold classify, pos_code. simpl str. split; f_equal.
  - unfold upper at 2.
    rewrite split_comma_first_map by apply comma_upper_char.
    rewrite strip_map by apply isspace_upper_char.
    unfold upper. rewrite map_map. apply map_ext. apply upper_char_idem.
  - unfold lower.
    rewrite split_comma_first_map by apply comma_lower_char.
    rewrite strip_map by apply isspace_lower_char.
    unfold upper. rewrite map_map. apply map_ext. apply upper_lower_char.
Qed.

(** ** Keys of keys *)

Lemma filter_all {A} (f : A -> bool) (l : list A) :
  forallb f l = true -> filter f l = l.
Proof.
  induction l as [|x l IH]; simpl; [reflexivity|].
  rewrite andb_true_iff. intros [-> H]. now rewrite IH.
Qed.

Lemma forallb_strip (f : N -> bool) (s : pystr) :
  forallb f s = true -> forallb f (strip s) = true.
Proof.
  rewrite !forallb_forall. intros H c Hc. apply H. now apply In_strip.
Qed.

Lemma forallb_map_ascii (f : N -> N) (s : pystr) :
  (forall c, is_ascii c = true -> is_ascii (f c) = true) ->
  forallb is_ascii s = true -> forallb is_ascii (map f s) = true.
Proof.
  intros Hf. rewrite !forallb_forall. intros H c Hc.
  apply in_map_iff in Hc. destruct Hc as (d & <- & Hd). auto.
Qed.

Lemma upper_char_ascii (c : N) :
  is_ascii c = true -> is_ascii (upper_char c) = true.
Proof.
  unfold upper_char, is_ascii. rewrite !N.ltb_lt.
  destruct (is_lower c); lia.
Qed.

Lemma lower_upper_char (c : N) : lower_char (upper_char c) = lower_char c.
Proof.
  unfold upper_char. destruct (is_lower c) eqn:E; [|reflexivity].
  apply is_lower_range in E. unfold lower_char.
  replace (is_upper (c - 32)) with true.
  - replace (is_upper c) with false; [lia|].
    symmetry. unfold is_upper. apply andb_false_iff. right. apply N.leb_gt. lia.
  - symmetry. unfold is_upper. apply andb_true_iff.
    split; apply N.leb_le; lia.
Qed.

Lemma normalise_name_ascii (s : pystr) :
  forallb is_ascii (normalise_name (VStr s)) = true.
Proof.
  unfold normalise_name, lower.
  apply forallb_map_ascii; [intros c Hc; now apply lower_char_ascii|].
  apply forallb_strip. unfold encode_ascii_ignore.
  apply forallb_forall. intros c Hc. now apply filter_In in Hc.
Qed.

Lemma normalise_name_of_ascii (s : pystr) :
  (forall t, forallb is_ascii t = true -> nfkd t = t) ->
  forallb is_ascii s = true ->
  normalise_name (VStr s) = lower (strip s).
Proof.
  intros Hn Hs. unfold normalise_name, encode_ascii_ignore.
  now rewrite Hn, filter_all.
Qed.

(** X3: where the decomposition leaves ASCII text as it is, the key of a key
    is that key, and an ASCII name, the name in capitals and the name
    without its padding have one key. *)
Theorem normalise_name_stable :
  (forall t, forallb is_ascii t = true -> nfkd t = t) ->
  (forall s : pystr,
      normalise_name (VStr (normalise_name (VStr s))) = normalise_name (VStr s))
  /\ (forall s : pystr,
        forallb is_ascii s = true ->
        normalise_name (VStr (upper s)) = normalise_name (VStr s)
        /\ normalise_name (VStr (strip s)) = normalise_name (VStr s)).
Proof.
  intros Hn. split.
  - intros s.
    rewrite (normalise_name_of_ascii (normalise_name (VStr s)) Hn)
      by apply normalise_name_ascii.
    unfold normalise_name at 1 2.
    now rewrite strip_lower, strip_idem, lower_idem.
  - intros s Hs. split.
    + rewrite !normalise_name_of_ascii; auto.
      * unfold upper. rewrite strip_map by apply isspace_upper_char.
        unfold lower. rewrite map_map. apply map_ext. apply lower_upper_char.
      * apply forallb_map_ascii; [apply upper_char_ascii | exact Hs].
    + rewrite !normalise_name_of_ascii; auto.
      * now rewrite strip_idem.
      * now apply forallb_strip.
Qed.

(** ** Lookup in the record mapping *)

Lemma dict_mem_update {V} (k k' : pystr) (f : V -> V) (d : dict V) :
  dict_mem k (dict_update k' f d) = dict_mem k d.
Proof.
  induction d as [|[k0 v] d IH]; simpl; [reflexivity|].
  destruct (pystr_eqb k0 k'); simpl; [reflexivity | now rewrite IH].
Qed.

Lemma dict_get_update_other {V} (k k' : pystr) (f : V -> V) (d : dict V)
    (dflt : V) :
  k' <> k -> dict_get (dict_update k' f d) k dflt = dict_get d k dflt.
Proof.
  intros Hk. induction d as [|[k0 v] d IH]; simpl; [reflexivity|].
  destruct (pystr_eqb k0 k') eqn:E; simpl.
  - apply pystr_eqb_eq in E. subst k0.
    apply pystr_eqb_neq in Hk. now rewrite Hk.
  - destruct (pystr_eqb k0 k); [reflexivity | exact IH].
Qed.

Lemma dict_get_update_same {V} (k : pystr) (f : V -> V) (d : dict V)
    (dflt : V) :
  dict_mem k d = true ->
  dict_get (dict_update k f d) k dflt = f (dict_get d k dflt).
Proof.
  induction d as [|[k0 v] d IH]; simpl; [discriminate|].
  destruct (pystr_eqb k0 k) eqn:E; simpl; rewrite E; [reflexivity|].
  simpl. exact IH.
Qed.

Lemma dict_update_fuse {V} (k : pystr) (f g : V -> V) (d : dict V) :
  dict_update k f (dict_update k g d) = dict_update k (fun v => f (g v)) d.
Proof.
  induction d as [|[k0 v] d IH]; simpl; [reflexivity|].
  destruct (pystr_eqb k0 k) eqn:E; simpl; rewrite E; [reflexivity|].
  now rewrite IH.
Qed.

Lemma dict_update_comm {V} (k k' : pystr) (f g : V -> V) (d : dict V) :
  (forall v, f (g v) = g (f v)) ->
  dict_update k f (dict_update k' g d) = dict_update k' g (dict_update k f d).
Proof.
  intros Hfg. induction d as [|[k0 v] d IH]; simpl; [reflexivity|].
  destruct (pystr_eqb k0 k') eqn:E'; destruct (pystr_eqb k0 k) eqn:E;
    simpl; rewrite ?E, ?E'; try reflexivity.
  - now rewrite Hfg.
  - now rewrite IH.
Qed.

Lemma dict_get_set_same {V} (k : pystr) (v : V) (d : dict V) (dflt : V) :
  dict_get (dict_set k v d) k dflt = v.
Proof.
  induction d as [|[k0 v0] d IH]; simpl.
  - now rewrite pystr_eqb_refl.
  - destruct (pystr_eqb k0 k) eqn:E; simpl; rewrite E; [reflexivity | exact IH].
Qed.

Lemma dict_get_set_other {V} (k k' : pystr) (v : V) (d : dict V) (dflt : V) :
  k' <> k -> dict_get (dict_set k' v d) k dflt = dict_get d k dflt.
Proof.
  intros Hk. apply pystr_eqb_neq in Hk.
  induction d as [|[k0 v0] d IH]; simpl.
  - now rewrite Hk.
  - destruct (pystr_eqb k0 k') eqn:E; simpl.
    + apply pystr_eqb_eq in E. subst k0. now rewrite Hk.
    + destruct (pystr_eqb k0 k); [reflexivity | exact IH].
Qed.

Lemma dict_mem_In {V} (k : pystr) (d : dict V) :
  dict_mem k d = true <-> In k (map fst d).
Proof.
  induction d as [|[k0 v] d IH]; simpl; [split; [discriminate | taut]|].
  rewrite orb_true_iff, pystr_eqb_eq, IH. reflexivity.
Qed.

Lemma dict_set_keys {V} (k : pystr) (v : V) (d : dict V) :
  map fst (dict_set k v d)
  = if dict_mem k d then map fst d else map fst d ++ [k].
Proof.
  induction d as [|[k0 v0] d IH]; simpl; [reflexivity|].
  destruct (pystr_eqb k0 k) eqn:E; simpl; [reflexivity|].
  rewrite IH. destruct (dict_mem k d); reflexivity.
Qed.

(** ** The classifier and the letter case of the code *)

Lemma upper_lower (s : pystr) : upper (lower s) = upper s.
Proof.
  unfold upper, lower. rewrite map_map. apply map_ext. apply upper_lower_char.
Qed.

Lemma lower_upper (s : pystr) : lower (upper s) = lower s.
Proof.
  unfold upper, lower. rewrite map_map. apply map_ext. apply lower_upper_char.
Qed.

Lemma pystr_eqb_iff (s t s' t' : pystr) :
  (s = t <-> s' = t') -> pystr_eqb s t = pystr_eqb s' t'.
Proof.
  intros H. destruct (pystr_eqb s' t') eqn:E.
  - apply pystr_eqb_eq. apply H. now apply pystr_eqb_eq.
  - apply pystr_eqb_neq. intros Hst. apply H in Hst.
    apply pystr_eqb_eq in Hst. congruence.
Qed.

(** A text is a code in capitals exactly when its small letters are the
    code in small letters. *)
Lemma upper_test_as_lower (c k : pystr) :
  pystr_eqb (upper c) (upper k) = pystr_eqb (lower c) (lower k).
Proof.
  apply pystr_eqb_iff. split; intros H.
  - rewrite <- (lower_upper c), H. apply lower_upper.
  - rewrite <- (upper_lower c), H. apply upper_lower.
Qed.

Lemma upper_char_not_lower (c : N) : is_lower (upper_char c) = false.
Proof.
  unfold upper_char. destruct (is_lower c) eqn:E; [|exact E].
  apply is_lower_range in E.
  unfold is_lower. apply andb_false_iff. left. apply N.leb_gt. lia.
Qed.

(** C9: the classifier looks at the first comma-separated code only, trimmed
    and upper-cased: the code it looks up has no small letter of a to z
    and, for an ASCII tag, is the trimmed first code, small and capital
    letters taken as one; GK, DF, MF and FW in any letter case give GK,
    DEF, MID and FWD, every other code gives MID; the three examples, and
    examples in small letters. *)
Theorem classify_first_code (raw : value) :
  pos_code raw = upper (strip (split_comma_first (str raw)))
  /\ classify raw =
      (if pystr_eqb (pos_code raw) (lit "GK") then lit "GK"
       else if pystr_eqb (pos_code raw) (lit "DF") then lit "DEF"
       else if pystr_eqb (pos_code raw) (lit "MF") then lit "MID"
       else if pystr_eqb (pos_code raw) (lit "FW") then lit "FWD"
       else lit "MID")
  /\ classify raw = dict_get POS_MAP (pos_code raw) (lit "MID")
  /\ In (classify raw) [lit "GK"; lit "DEF"; lit "MID"; lit "FWD"]
  /\ classify (VStr (split_comma_first (str raw))) = classify raw
  /\ classify (VStr (lit "DF,MF")) = lit "DEF"
  /\ classify (VStr (lit "FW")) = lit "FWD"
  /\ classify (VStr (lit "XX")) = lit "MID"
  /\ Forall (fun c => is_lower c = false) (pos_code raw)
  /\ (forallb is_ascii (str raw) = true ->
      lower (pos_code raw) = lower (strip (split_comma_first (str raw))))
  /\ classify raw =
      (let code := lower (strip (split_comma_first (str raw))) in
       if pystr_eqb code (lit "gk") then lit "GK"
       else if pystr_eqb code (lit "df") then lit "DEF"
       else if pystr_eqb code (lit "mf") then lit "MID"
       else if pystr_eqb code (lit "fw") then lit "FWD"
       else lit "MID")
  /\ classify (VStr (lit "gk")) = lit "GK"
  /\ classify (VStr (lit "df,mf")) = lit "DEF"
  /\ classify (VStr (lit " Fw , mf")) = lit "FWD"
  /\ classify (VStr (lit "mf")) = lit "MID"
  /\ classify (VStr (lit "gk,df")) = lit "GK".
Proof.
  assert (Hchain : classify raw =
      (if pystr_eqb (pos_code raw) (lit "GK") then lit "GK"
       else if pystr_eqb (pos_code raw) (lit "DF") then lit "DEF"
       else if pystr_eqb (pos_code raw) (lit "MF") then lit "MID"
       else if pystr_eqb (pos_code raw) (lit "FW") then lit "FWD"
       else lit "MID")).
  { pose proof (pos_code_no_comma raw) as Hc.
    unfold classify, POS_MAP, dict_get.
    rewrite !(pystr_eqb_sym (pos_code raw)).
    rewrite (comma_key_mismatch (lit "DF,MF")), (comma_key_mismatch (lit "DF,FW")),
      (comma_key_mismatch (lit "MF,DF")), (comma_key_mismatch (lit "MF,FW")),
      (comma_key_mismatch (lit "FW,MF")), (comma_key_mismatch (lit "FW,DF"));
      try exact Hc; try (simpl; taut). }
  split; [reflexivity|]. split; [exact Hchain|]. split; [reflexivity|].
  split.
  { rewrite Hchain.
    destruct (pystr_eqb (pos_code raw) (lit "GK")); [simpl; taut|].
    destruct (pystr_eqb (pos_code raw) (lit "DF")); [simpl; taut|].
    destruct (pystr_eqb (pos_code raw) (lit "MF")); [simpl; taut|].
    destruct (pystr_eqb (pos_code raw) (lit "FW")); simpl; taut. }
  split.
  { unfold classify, pos_code. simpl str.
    now rewrite split_comma_first_idem. }
  split; [reflexivity|]. split; [reflexivity|]. split; [reflexivity|].
  split.
  { unfold pos_code, upper. apply Forall_map. apply Forall_forall.
    intros c _. apply upper_char_not_lower. }
  split; [intros _; unfold pos_code; apply lower_upper|].
  split.
  { rewrite Hchain. unfold pos_code. cbv zeta.
    change (lit "GK") with (upper (lit "gk")) at 1.
    change (lit "DF") with (upper (lit "df")) at 1.
    change (lit "MF") with (upper (lit "mf")) at 1.
    change (lit "FW") with (upper (lit "fw")) at 1.
    rewrite !upper_test_as_lower. reflexivity. }
  repeat split; reflexivity.
Qed.

(** ** What the seeding pass stores *)

Lemma seed_row_passes_over (d : dict player) (r : row) (k : pystr)
    (dflt : player) :
  passes_over k r -> dict_get (seed_row d r) k dflt = dict_get d k dflt.
Proof.
  unfold passes_over, row_key, seed_row. intros [H|H].
  - now rewrite H.
  - destruct (skipped (row_name r)); [reflexivity|].
    now apply dict_get_set_other.
Qed.

Lemma fold_seed_passes_over (l : table) (d : dict player) (k : pystr)
    (dflt : player) :
  Forall (passes_over k) l ->
  dict_get (fold_left seed_row l d) k dflt = dict_get d k dflt.
Proof.
  intros H. revert d. induction H as [|r l Hr Hl IH]; intros d; simpl.
  - reflexivity.
  - rewrite IH. now apply seed_row_passes_over.
Qed.

Lemma seed_row_record (d : dict player) (r : row) (dflt : player) :
  skipped (row_name r) = false ->
  seed_record r (row_name r) (dict_get (seed_row d r) (row_key r) dflt)
  /\ dict_mem (row_key r) (seed_row d r) = true.
Proof.
  intros H. unfold seed_row, row_key. rewrite H. split.
  - rewrite dict_get_set_same. unfold seed_record. simpl.
    repeat split; reflexivity.
  - apply dict_mem_In. rewrite dict_set_keys.
    destruct (dict_mem _ d) eqn:E; [now apply dict_mem_In|].
    apply in_or_app. right. now left.
Qed.

Lemma seed_row_keys_grow (d : dict player) (r : row) (k : pystr) :
  dict_mem k d = true -> dict_mem k (seed_row d r) = true.
Proof.
  intros H. unfold seed_row. destruct (skipped (row_name r)); [exact H|].
  apply dict_mem_In. rewrite dict_set_keys.
  apply dict_mem_In in H.
  destruct (dict_mem _ d); [exact H | apply in_or_app; now left].
Qed.

Lemma fold_seed_keys_grow (l : table) (d : dict player) (k : pystr) :
  dict_mem k d = true -> dict_mem k (fold_left seed_row l d) = true.
Proof.
  revert d. induction l as [|r l IH]; intros d H; simpl; [exact H|].
  apply IH. now apply seed_row_keys_grow.
Qed.

(** X4: when several rows of the primary table have one key, the record
    under that key is the one written for the last of them that is not
    skipped: its name, club, position and standard stats are that row's,
    and its secondary fields are 0. *)
Theorem seed_last_row_wins (before after : table) (r : row) (dflt : player) :
  skipped (row_name r) = false ->
  Forall (passes_over (row_key r)) after ->
  dict_mem (row_key r) (seed (before ++ r :: after)) = true
  /\ seed_record r (row_name r)
       (dict_get (seed (before ++ r :: after)) (row_key r) dflt).
Proof.
  intros Hr Ha. unfold seed. rewrite fold_left_app. simpl.
  destruct (seed_row_record (fold_left seed_row before []) r dflt Hr)
    as [Hrec Hmem].
  split.
  - now apply fold_seed_keys_grow.
  - now rewrite fold_seed_passes_over.
Qed.

(** ** One record per key *)

Lemma NoDup_snoc {A} (l : list A) (x : A) :
  NoDup l -> ~ In x l -> NoDup (l ++ [x]).
Proof.
  intros Hl Hx. induction Hl as [|y l Hy Hl IH]; simpl.
  - constructor; [intros [] | constructor].
  - constructor.
    + intros H. apply in_app_or in H. destruct H as [H|[H|[]]].
      * contradiction.
      * apply Hx. now left.
    + apply IH. intros H. apply Hx. now right.
Qed.

Lemma seed_row_NoDup (d : dict player) (r : row) :
  NoDup (map fst d) -> NoDup (map fst (seed_row d r)).
Proof.
  intros H. unfold seed_row. destruct (skipped (row_name r)); [exact H|].
  rewrite dict_set_keys.
  destruct (dict_mem _ d) eqn:E; [exact H|].
  apply NoDup_snoc; [exact H|].
  intros Hin. apply dict_mem_In in Hin. congruence.
Qed.

Lemma seed_row_length (d : dict player) (r : row) :
  (List.length (seed_row d r) <= S (List.length d))%nat.
Proof.
  rewrite <- (length_map fst (seed_row d r)), <- (length_map fst d).
  unfold seed_row. destruct (skipped (row_name r)); [lia|].
  rewrite dict_set_keys. destruct (dict_mem _ d); [lia|].
  rewrite length_app. simpl. lia.
Qed.

Lemma seed_NoDup_length (std : table) :
  NoDup (map fst (seed std))
  /\ (List.length (seed std) <= List.length std)%nat.
Proof.
  unfold seed.
  assert (G : forall l d, NoDup (map fst d) ->
                NoDup (map fst (fold_left seed_row l d))
                /\ (List.length (fold_left seed_row l d)
                    <= List.length l + List.length d)%nat).
  { induction l as [|r l IH]; intros d Hd; simpl; [split; [exact Hd | lia]|].
    destruct (IH (seed_row d r) (seed_row_NoDup d r Hd)) as [H1 H2].
    split; [exact H1|]. pose proof (seed_row_length d r). lia. }
  destruct (G std [] (NoDup_nil _)) as [H1 H2]. simpl in H2.
  split; [exact H1 | lia].
Qed.

Lemma merged_entry_key (std : table) (gk defn passing : option table)
    (e : pystr * player) :
  In e (merge_all gk defn passing (seed std)) ->
  normalise_name (VStr (name (snd e))) = fst e.
Proof.
  intros He.
  destruct (view_In standard_fields _ _ e
              (merge_all_standard gk defn passing (seed std)) He)
    as (e0 & He0 & Hk & Hf).
  pose proof (seed_seeded std) as S. rewrite Forall_forall in S.
  destruct (S e0 He0) as (r & _ & _ & Hkey & Hn & _).
  assert (Hname : name (snd e) = name (snd e0)).
  { unfold standard_fields in Hf. congruence. }
  rewrite Hname, Hn, <- Hk. now symmetry.
Qed.

(** X5: the output holds one record per key: no two of its records have
    names with the same key, there are as many records as the seeding pass
    made entries, and so at most as many as the primary table has rows. *)
Theorem output_one_record_per_key (std : table) (gk defn passing : option table) :
  exists doc,
    written (main (Some std) gk defn passing) = Some doc
    /\ NoDup (map (fun sp => normalise_name (VStr (name (rec sp))))
               (players doc))
    /\ List.length (players doc) = List.length (seed std)
    /\ (List.length (players doc) <= List.length std)%nat.
Proof.
  eexists. split; [rewrite main_written; reflexivity|]. simpl.
  pose proof (sort_points_desc_perm
                (map score (dict_values
                              (merge_all gk defn passing (seed std))))) as P.
  destruct (seed_NoDup_length std) as [Hnd Hlen].
  assert (Hkeys : map fst (merge_all gk defn passing (seed std))
                  = map fst (seed std)).
  { rewrite <- (view_keys standard_fields (merge_all _ _ _ _)).
    now rewrite merge_all_standard, view_keys. }
  assert (Hl : List.length (sort_points_desc
                 (map score (dict_values
                               (merge_all gk defn passing (seed std)))))
               = List.length (seed std)).
  { rewrite (Permutation_length P). unfold dict_values.
    rewrite !length_map. rewrite <- (length_map fst), Hkeys.
    apply length_map. }
  split; [|split; [exact Hl | lia]].
  apply (Permutation_NoDup
           (Permutation_sym
              (Permutation_map
                 (fun sp => normalise_name (VStr (name (rec sp)))) P))).
  unfold dict_values. rewrite !map_map. simpl.
  rewrite (map_ext_in _ fst).
  - now rewrite Hkeys.
  - intros e He. now apply merged_entry_key in He.
Qed.

(** ** What the enrichment passes write *)

Lemma gk_row_passes_over (d : dict player) (r : row) (k : pystr)
    (dflt : player) :
  passes_over k r -> dict_get (gk_row d r) k dflt = dict_get d k dflt.
Proof.
  unfold passes_over, row_key, gk_row. intros [H|H]; [now rewrite H|].
  destruct (skipped (row_name r)); [reflexivity|].
  destruct (dict_mem _ d); [|reflexivity].
  now rewrite !dict_get_update_other.
Qed.

Lemma def_row_passes_over (d : dict player) (r : row) (k : pystr)
    (dflt : player) :
  passes_over k r -> dict_get (def_row d r) k dflt = dict_get d k dflt.
Proof.
  unfold passes_over, row_key, def_row. intros [H|H]; [now rewrite H|].
  destruct (skipped (row_name r)); [reflexivity|].
  destruct (dict_mem _ d); [|reflexivity].
  now rewrite !dict_get_update_other.
Qed.

Lemma passing_row_passes_over (d : dict player) (r : row) (k : pystr)
    (dflt : player) :
  passes_over k r -> dict_get (passing_row d r) k dflt = dict_get d k dflt.
Proof.
  unfold passes_over, row_key, passing_row. intros [H|H]; [now rewrite H|].
  destruct (skipped (row_name r)); [reflexivity|].
  destruct (dict_mem _ d); [|reflexivity].
  now rewrite !dict_get_update_other.
Qed.

Lemma fold_passes_over (step : dict player -> row -> dict player)
    (k : pystr) (dflt : player) (t : table) (d : dict player) :
  (forall d' r, passes_over k r ->
                dict_get (step d' r) k dflt = dict_get d' k dflt) ->
  Forall (passes_over k) t ->
  dict_get (fold_left step t d) k dflt = dict_get d k dflt.
Proof.
  intros Hstep H. revert d. induction H as [|r t Hr Ht IH]; intros d; simpl.
  - reflexivity.
  - rewrite IH. now apply Hstep.
Qed.

Lemma merge_table_passes_over (step : dict player -> row -> dict player)
    (k : pystr) (dflt : player) (fetched : option table) (d : dict player) :
  (forall d' r, passes_over k r ->
                dict_get (step d' r) k dflt = dict_get d' k dflt) ->
  (forall t, fetched = Some t -> Forall (passes_over k) t) ->
  dict_get (merge_table step fetched d) k dflt = dict_get d k dflt.
Proof.
  intros Hstep H. destruct fetched as [t|]; [|reflexivity]. simpl.
  apply fold_passes_over; auto.
Qed.

(** X6: a record whose key is the key of no row of a secondary table, the
    skipped rows apart, comes out of that table's pass as it went in; one
    that no secondary table has comes out of the whole merge as the seeding
    pass left it. *)
Theorem unmatched_record_untouched (gk defn passing : option table)
    (d : dict player) (k : pystr) (dflt : player) :
  ((forall t, gk = Some t -> Forall (passes_over k) t) ->
   dict_get (merge_table gk_row gk d) k dflt = dict_get d k dflt)
  /\ ((forall t, defn = Some t -> Forall (passes_over k) t) ->
      dict_get (merge_table def_row defn d) k dflt = dict_get d k dflt)
  /\ ((forall t, passing = Some t -> Forall (passes_over k) t) ->
      dict_get (merge_table passing_row passing d) k dflt = dict_get d k dflt)
  /\ ((forall t, gk = Some t -> Forall (passes_over k) t) ->
      (forall t, defn = Some t -> Forall (passes_over k) t) ->
      (forall t, passing = Some t -> Forall (passes_over k) t) ->
      dict_get (merge_all gk defn passing d) k dflt = dict_get d k dflt).
Proof.
  assert (G : forall f, (forall t, f = Some t -> Forall (passes_over k) t) ->
                forall d',
                  dict_get (merge_table gk_row f d') k dflt = dict_get d' k dflt).
  { intros f H d'. apply merge_table_passes_over; [|exact H].
    intros; now apply gk_row_passes_over. }
  assert (D : forall f, (forall t, f = Some t -> Forall (passes_over k) t) ->
                forall d',
                  dict_get (merge_table def_row f d') k dflt = dict_get d' k dflt).
  { intros f H d'. apply merge_table_passes_over; [|exact H].
    intros; now apply def_row_passes_over. }
  assert (P : forall f, (forall t, f = Some t -> Forall (passes_over k) t) ->
                forall d',
                  dict_get (merge_table passing_row f d') k dflt
                  = dict_get d' k dflt).
  { intros f H d'. apply merge_table_passes_over; [|exact H].
    intros; now apply passing_row_passes_over. }
  split; [intros H; now apply G|].
  split; [intros H; now apply D|].
  split; [intros H; now apply P|].
  intros Hg Hd Hp. unfold merge_all.
  now rewrite (P _ Hp), (D _ Hd), (G _ Hg).
Qed.

Lemma dict_mem_keys {V W} (k : pystr) (d : dict V) (d' : dict W) :
  map fst d = map fst d' -> dict_mem k d = dict_mem k d'.
Proof.
  intros H. destruct (dict_mem k d') eqn:E.
  - apply dict_mem_In. rewrite H. now apply dict_mem_In.
  - destruct (dict_mem k d) eqn:E'; [|reflexivity].
    apply dict_mem_In in E'. rewrite H in E'. apply dict_mem_In in E'.
    congruence.
Qed.

Lemma merge_table_mem (step : dict player -> row -> dict player)
    (fetched : option table) (d : dict player) (k : pystr) :
  (forall d' r, view standard_fields (step d' r) = view standard_fields d') ->
  dict_mem k (merge_table step fetched d) = dict_mem k d.
Proof.
  intros Hstep. apply dict_mem_keys.
  rewrite <- (view_keys standard_fields (merge_table step fetched d)).
  rewrite merge_table_view by exact Hstep. apply view_keys.
Qed.

Lemma gk_row_standard (d : dict player) (r : row) :
  view standard_fields (gk_row d r) = view standard_fields d.
Proof. apply gk_row_view; intros x p; reflexivity. Qed.

Lemma def_row_standard (d : dict player) (r : row) :
  view standard_fields (def_row d r) = view standard_fields d.
Proof. apply def_row_view; intros x p; reflexivity. Qed.

Lemma passing_row_standard (d : dict player) (r : row) :
  view standard_fields (passing_row d r) = view standard_fields d.
Proof. apply passing_row_view; intros x p; reflexivity. Qed.

Lemma gk_row_writes (d : dict player) (r : row) (dflt : player) :
  skipped (row_name r) = false -> dict_mem (row_key r) d = true ->
  goalkeeping_fields (dict_get (gk_row d r) (row_key r) dflt)
  = (safe_int (row_get r (lit "CS") (VInt 0)),
     safe_int (row_get r (lit "Saves") (VInt 0)),
     safe_int (row_get r (lit "PKsv") (VInt 0)),
     safe_int (row_get r (lit "GA") (VInt 0))).
Proof.
  intros Hs Hm. unfold gk_row. fold (row_key r). rewrite Hs, Hm.
  rewrite !dict_update_fuse, dict_get_update_same by exact Hm.
  reflexivity.
Qed.

Lemma def_row_writes (d : dict player) (r : row) (dflt : player) :
  skipped (row_name r) = false -> dict_mem (row_key r) d = true ->
  defensive_fields (dict_get (def_row d r) (row_key r) dflt)
  = (safe_int (row_get r (lit "TklW") (VInt 0)),
     safe_int (row_get r (lit "Int") (VInt 0))).
Proof.
  intros Hs Hm. unfold def_row. fold (row_key r). rewrite Hs, Hm.
  rewrite !dict_update_fuse, dict_get_update_same by exact Hm.
  reflexivity.
Qed.

Lemma passing_row_writes (d : dict player) (r : row) (dflt : player) :
  skipped (row_name r) = false -> dict_mem (row_key r) d = true ->
  passing_fields (dict_get (passing_row d r) (row_key r) dflt)
  = (safe_int (row_get r (lit "KP") (VInt 0)),
     safe_int (row_get r (lit "PPA") (VInt 0))).
Proof.
  intros Hs Hm. unfold passing_row. fold (row_key r). rewrite Hs, Hm.
  rewrite !dict_update_fuse, dict_get_update_same by exact Hm.
  reflexivity.
Qed.

(** X7: when several rows of a secondary table have the key of a record,
    the fields that table owns are, after its pass, the coerced cells of
    the last of those rows that is not skipped, 0 standing for a column the
    row does not have. *)
Theorem enrichment_last_row_wins (before after : table) (r : row)
    (d : dict player) (dflt : player) :
  skipped (row_name r) = false ->
  dict_mem (row_key r) d = true ->
  Forall (passes_over (row_key r)) after ->
  goalkeeping_fields
    (dict_get (merge_table gk_row (Some (before ++ r :: after)) d)
       (row_key r) dflt)
  = (safe_int (row_get r (lit "CS") (VInt 0)),
     safe_int (row_get r (lit "Saves") (VInt 0)),
     safe_int (row_get r (lit "PKsv") (VInt 0)),
     safe_int (row_get r (lit "GA") (VInt 0)))
  /\ defensive_fields
       (dict_get (merge_table def_row (Some (before ++ r :: after)) d)
          (row_key r) dflt)
     = (safe_int (row_get r (lit "TklW") (VInt 0)),
        safe_int (row_get r (lit "Int") (VInt 0)))
  /\ passing_fields
       (dict_get (merge_table passing_row (Some (before ++ r :: after)) d)
          (row_key r) dflt)
     = (safe_int (row_get r (lit "KP") (VInt 0)),
        safe_int (row_get r (lit "PPA") (VInt 0))).
Proof.
  intros Hs Hm Ha. simpl. rewrite !fold_left_app. simpl.
  split; [|split].
  - rewrite fold_passes_over
      by (try exact Ha; intros; now apply gk_row_passes_over).
    apply gk_row_writes; [exact Hs|].
    rewrite <- Hm.
    apply (merge_table_mem gk_row (Some before) d (row_key r) gk_row_standard).
  - rewrite fold_passes_over
      by (try exact Ha; intros; now apply def_row_passes_over).
    apply def_row_writes; [exact Hs|].
    rewrite <- Hm.
    apply (merge_table_mem def_row (Some before) d (row_key r) def_row_standard).
  - rewrite fold_passes_over
      by (try exact Ha; intros; now apply passing_row_passes_over).
    apply passing_row_writes; [exact Hs|].
    rewrite <- Hm.
    apply (merge_table_mem passing_row (Some before) d (row_key r)
             passing_row_standard).
Qed.

(** ** The order of the enrichment passes *)

Lemma step_as_update (d : dict player) (r : row) :
  gk_row d r
  = (if skipped (row_name r) then d
     else if dict_mem (row_key r) d then
       dict_update (row_key r)
         (fun p =>
            set_goalsConceded (safe_int (row_get r (lit "GA") (VInt 0)))
              (set_penaltySaves (safe_int (row_get r (lit "PKsv") (VInt 0)))
                 (set_saves (safe_int (row_get r (lit "Saves") (VInt 0)))
                    (set_cleanSheets
                       (safe_int (row_get r (lit "CS") (VInt 0))) p)))) d
     else d)
  /\ def_row d r
     = (if skipped (row_name r) then d
        else if dict_mem (row_key r) d then
          dict_update (row_key r)
            (fun p =>
               set_interceptions (safe_int (row_get r (lit "Int") (VInt 0)))
                 (set_tacklesWon
                    (safe_int (row_get r (lit "TklW") (VInt 0))) p)) d
        else d)
  /\ passing_row d r
     = (if skipped (row_name r) then d
        else if dict_mem (row_key r) d then
          dict_update (row_key r)
            (fun p =>
               set_bigChancesCreated
                 (safe_int (row_get r (lit "PPA") (VInt 0)))
                 (set_keyPasses (safe_int (row_get r (lit "KP") (VInt 0))) p))
            d
        else d).
Proof.
  unfold gk_row, def_row, passing_row, row_key.
  repeat split; destruct (skipped (row_name r)); try reflexivity;
    destruct (dict_mem _ d); try reflexivity;
    now rewrite !dict_update_fuse.
Qed.

(** Two steps that update records under keys already present, with
    assignments that commute, can be taken in either order. *)
Lemma guarded_updates_commute (k1 k2 : pystr) (s1 s2 : bool)
    (f g : player -> player) (d : dict player) :
  (forall p, f (g p) = g (f p)) ->
  (let d2 := if s2 then d else if dict_mem k2 d then dict_update k2 g d else d in
   if s1 then d2 else if dict_mem k1 d2 then dict_update k1 f d2 else d2)
  = (let d1 := if s1 then d else if dict_mem k1 d then dict_update k1 f d else d in
     if s2 then d1 else if dict_mem k2 d1 then dict_update k2 g d1 else d1).
Proof.
  intros Hfg. cbv zeta.
  destruct s1, s2; try reflexivity.
  destruct (dict_mem k1 d) eqn:E1; destruct (dict_mem k2 d) eqn:E2;
    rewrite ?dict_mem_update, ?E1, ?E2; try reflexivity.
  now apply dict_update_comm.
Qed.

Lemma folds_commute {A B C} (f : A -> B -> A) (g : A -> C -> A)
    (l1 : list B) (l2 : list C) (a : A) :
  (forall a b c, f (g a c) b = g (f a b) c) ->
  fold_left f l1 (fold_left g l2 a) = fold_left g l2 (fold_left f l1 a).
Proof.
  intros H.
  assert (G : forall l2 a b, f (fold_left g l2 a) b = fold_left g l2 (f a b)).
  { clear l2 a. induction l2 as [|c l2 IH]; intros a b; simpl; [reflexivity|].
    now rewrite IH, H. }
  revert a. induction l1 as [|b l1 IH]; intros a; simpl; [reflexivity|].
  now rewrite G, IH.
Qed.

Lemma merge_tables_commute (step1 step2 : dict player -> row -> dict player)
    (f1 f2 : option table) (d : dict player) :
  (forall d' r1 r2, step1 (step2 d' r2) r1 = step2 (step1 d' r1) r2) ->
  merge_table step1 f1 (merge_table step2 f2 d)
  = merge_table step2 f2 (merge_table step1 f1 d).
Proof.
  intros H. destruct f1 as [t1|], f2 as [t2|]; simpl; try reflexivity.
  now apply folds_commute.
Qed.

Lemma gk_def_rows_commute (d : dict player) (r1 r2 : row) :
  gk_row (def_row d r2) r1 = def_row (gk_row d r1) r2.
Proof.
  rewrite (proj1 (step_as_update (def_row d r2) r1)).
  rewrite (proj1 (proj2 (step_as_update (gk_row d r1) r2))).
  rewrite (proj1 (proj2 (step_as_update d r2))).
  rewrite (proj1 (step_as_update d r1)).
  apply (guarded_updates_commute (row_key r1) (row_key r2)).
  intros p. reflexivity.
Qed.

Lemma gk_passing_rows_commute (d : dict player) (r1 r2 : row) :
  gk_row (passing_row d r2) r1 = passing_row (gk_row d r1) r2.
Proof.
  rewrite (proj1 (step_as_update (passing_row d r2) r1)).
  rewrite (proj2 (proj2 (step_as_update (gk_row d r1) r2))).
  rewrite (proj2 (proj2 (step_as_update d r2))).
  rewrite (proj1 (step_as_update d r1)).
  apply (guarded_updates_commute (row_key r1) (row_key r2)).
  intros p. reflexivity.
Qed.

Lemma def_passing_rows_commute (d : dict player) (r1 r2 : row) :
  def_row (passing_row d r2) r1 = passing_row (def_row d r1) r2.
Proof.
  rewrite (proj1 (proj2 (step_as_update (passing_row d r2) r1))).
  rewrite (proj2 (proj2 (step_as_update (def_row d r1) r2))).
  rewrite (proj2 (proj2 (step_as_update d r2))).
  rewrite (proj1 (proj2 (step_as_update d r1))).
  apply (guarded_updates_commute (row_key r1) (row_key r2)).
  intros p. reflexivity.
Qed.

(** X8: the three enrichment passes own separate fields and add no key, so
    they commute: the merged mapping is the same in whichever order the
    goalkeeping, defensive and passing tables are merged. *)
Theorem enrichment_passes_commute (gk defn passing : option table)
    (d : dict player) :
  merge_table gk_row gk (merge_table def_row defn d)
  = merge_table def_row defn (merge_table gk_row gk d)
  /\ merge_table gk_row gk (merge_table passing_row passing d)
     = merge_table passing_row passing (merge_table gk_row gk d)
  /\ merge_table def_row defn (merge_table passing_row passing d)
     = merge_table passing_row passing (merge_table def_row defn d)
  /\ merge_all gk defn passing d
     = merge_table gk_row gk
         (merge_table def_row defn (merge_table passing_row passing d)).
Proof.
  assert (H1 : forall d', merge_table gk_row gk (merge_table def_row defn d')
                          = merge_table def_row defn (merge_table gk_row gk d')).
  { intros d'. apply merge_tables_commute. intros; apply gk_def_rows_commute. }
  assert (H2 : forall d',
             merge_table gk_row gk (merge_table passing_row passing d')
             = merge_table passing_row passing (merge_table gk_row gk d')).
  { intros d'. apply merge_tables_commute.
    intros; apply gk_passing_rows_commute. }
  assert (H3 : forall d',
             merge_table def_row defn (merge_table passing_row passing d')
             = merge_table passing_row passing (merge_table def_row defn d')).
  { intros d'. apply merge_tables_commute.
    intros; apply def_passing_rows_commute. }
  split; [apply H1|]. split; [apply H2|]. split; [apply H3|].
  unfold merge_all. now rewrite <- H3, <- H2, <- H1.
Qed.

(** ** Positions in the output *)

Lemma classify_bucket (raw : value) :
  In (classify raw) [lit "GK"; lit "DEF"; lit "MID"; lit "FWD"].
Proof.
  unfold classify, POS_MAP, dict_get.
  repeat match goal with
         | |- context [if ?b then _ else _] => destruct b
         end; simpl; auto 10.
Qed.

Lemma seed_row_positions (d : dict player) (r : row) :
  Forall (fun e => In (pos (snd e)) [lit "GK"; lit "DEF"; lit "MID"; lit "FWD"])
    d ->
  Forall (fun e => In (pos (snd e)) [lit "GK"; lit "DEF"; lit "MID"; lit "FWD"])
    (seed_row d r).
Proof.
  intros H. unfold seed_row. destruct (skipped (row_name r)); [exact H|].
  apply dict_set_Forall; [exact H|]. simpl. apply classify_bucket.
Qed.

Lemma seed_positions (std : table) :
  Forall (fun e => In (pos (snd e)) [lit "GK"; lit "DEF"; lit "MID"; lit "FWD"])
    (seed std).
Proof.
  unfold seed.
  assert (G : forall l d,
             Forall (fun e => In (pos (snd e))
                                [lit "GK"; lit "DEF"; lit "MID"; lit "FWD"]) d ->
             Forall (fun e => In (pos (snd e))
                                [lit "GK"; lit "DEF"; lit "MID"; lit "FWD"])
               (fold_left seed_row l d)).
  { induction l as [|r l IH]; intros d Hd; simpl; [exact Hd|].
    apply IH. now apply seed_row_positions. }
  apply G. constructor.
Qed.

(** X9: every record of the output has one of the four positions, so its
    points are those of the goalkeeper, defender, midfielder or forward
    rule: the branch of [calculate_points] without positional points is
    never taken for a record that [main] built. *)
Theorem output_positions_scored (std gk defn passing : option table)
    (doc : document) :
  written (main std gk defn passing) = Some doc ->
  Forall
    (fun sp =>
       let p := rec sp in
       let penalties :=
         yellowCards p * (-1) + redCards p * (-3) + ownGoals p * (-2)
         + penaltiesMissed p * (-2) in
       (pos p = lit "GK"
        /\ points sp
           = cleanSheets p * 4 + saves p / 3 + penaltySaves p * 5
             - goalsConceded p / 2 + penalties)
       \/ (pos p = lit "DEF"
           /\ points sp
              = goals p * 6 + assists p * 3 + cleanSheets p * 4 + tacklesWon p
                + interceptions p + penalties)
       \/ (pos p = lit "MID"
           /\ points sp
              = goals p * 5 + assists p * 3 + cleanSheets p + keyPasses p
                + shotsOnTarget p + bigChancesCreated p + penalties)
       \/ (pos p = lit "FWD"
           /\ points sp
              = goals p * 4 + assists p * 3 + shotsOnTarget p
                + bigChancesCreated p + penalties))
    (players doc).
Proof.
  destruct std as [t|]; [|discriminate].
  intros Hw. apply Forall_forall. intros sp Hin.
  destruct (output_origin _ _ _ _ _ _ Hw Hin) as (e' & He' & ->).
  destruct (view_In standard_fields _ _ e'
              (merge_all_standard gk defn passing (seed t)) He')
    as (e & He & _ & Hf).
  pose proof (seed_positions t) as S. rewrite Forall_forall in S.
  specialize (S e He).
  assert (Hpos : pos (snd e') = pos (snd e)).
  { unfold standard_fields in Hf. congruence. }
  rewrite <- Hpos in S. cbv zeta. simpl rec. simpl points.
  unfold calculate_points.
  destruct S as [S|[S|[S|[S|[]]]]]; rewrite <- S; simpl pystr_eqb; cbv iota.
  - left. split; [reflexivity | lia].
  - right; left. split; [reflexivity | lia].
  - right; right; left. split; [reflexivity | lia].
  - right; right; right. split; [reflexivity | lia].
Qed.

(** ** The sorted list *)

Lemma insert_desc_head (x : scored) (l : list scored) :
  Forall (points_ge x) l -> insert_desc x l = x :: l.
Proof.
  intros H. destruct H as [|y l Hy Hl]; simpl; [reflexivity|].
  unfold points_ge in Hy.
  destruct (Z.ltb_spec (points x) (points y)); [lia | reflexivity].
Qed.

Lemma StronglySorted_app_ge (a b : list scored) :
  StronglySorted points_ge (a ++ b) ->
  forall x y, In x a -> In y b -> points y <= points x.
Proof.
  induction a as [|z a IH]; simpl; intros H x y Hx Hy; [contradiction|].
  inversion H as [|? ? Hs Hf]; subst.
  destruct Hx as [<-|Hx].
  - rewrite Forall_forall in Hf. apply (Hf y). apply in_or_app. now right.
  - now apply (IH Hs x y).
Qed.

(** X10: sorting changes nothing in a list that is already in descending
    order of points; so sorting twice is sorting once. *)
Theorem sort_points_desc_fixes_sorted (l : list scored) :
  (StronglySorted points_ge l -> sort_points_desc l = l)
  /\ sort_points_desc (sort_points_desc l) = sort_points_desc l.
Proof.
  assert (G : forall l', StronglySorted points_ge l' -> sort_points_desc l' = l').
  { induction 1 as [|x l' Hs IH Hf]; simpl; [reflexivity|].
    rewrite IH. now apply insert_desc_head. }
  split; [apply G|]. apply G. apply sort_points_desc_sorted.
Qed.

(** X11: the records of the printed summary are the first five of the
    output, or all of them when there are fewer, and none of the records
    left out has more points than one of those printed. *)
Theorem top_five_are_best (std : table) (gk defn passing : option table) :
  exists doc,
    written (main (Some std) gk defn passing) = Some doc
    /\ (List.length (top_five (players doc))
        = Nat.min 5 (List.length (players doc)))
    /\ players doc = top_five (players doc) ++ skipn 5 (players doc)
    /\ (forall x y, In x (top_five (players doc)) ->
                    In y (skipn 5 (players doc)) ->
                    points y <= points x).
Proof.
  eexists. split; [rewrite main_written; reflexivity|]. simpl players.
  set (l := sort_points_desc _).
  split; [apply length_firstn|].
  split; [symmetry; apply firstn_skipn|].
  apply StronglySorted_app_ge. unfold top_five. rewrite firstn_skipn.
  apply sort_points_desc_sorted.
Qed.

(** ** [fetch_table] *)

Lemma max_by_len_spec (t : dataframe) (l : list dataframe) :
  exists l1 l2,
    t :: l = l1 ++ max_by_len t l :: l2
    /\ Forall (fun t' => (List.length (rows t')
                          < List.length (rows (max_by_len t l)))%nat) l1
    /\ Forall (fun t' => (List.length (rows t')
                          <= List.length (rows (max_by_len t l)))%nat) l2.
Proof.
  revert t. induction l as [|u l IH]; intros t.
  - exists [], []. simpl. repeat split; constructor.
  - simpl max_by_len.
    destruct (Nat.ltb_spec (List.length (rows t)) (List.length (rows u)))
      as [Hlt|Hge].
    + destruct (IH u) as (l1 & l2 & E & H1 & H2).
      remember (max_by_len u l) as b eqn:Eb. clear Eb.
      assert (Hu : (List.length (rows u) <= List.length (rows b))%nat).
      { destruct l1 as [|x l1]; simpl in E; injection E as E E'.
        - subst b. lia.
        - subst x. inversion H1; subst. lia. }
      exists (t :: l1), l2. simpl. rewrite <- E.
      split; [reflexivity|]. split; [|exact H2].
      constructor; [lia | exact H1].
    + destruct (IH t) as (l1 & l2 & E & H1 & H2).
      remember (max_by_len t l) as b eqn:Eb. clear Eb.
      destruct l1 as [|x l1]; simpl in E; injection E as E E'.
      * subst b. subst l. exists [], (u :: l2). simpl.
        split; [reflexivity|]. split; [constructor|].
        constructor; [lia | exact H2].
      * subst x. subst l. exists (t :: u :: l1), l2. simpl.
        split; [reflexivity|]. split; [|exact H2].
        inversion H1; subst.
        constructor; [assumption|]. constructor; [lia | assumption].
Qed.

Lemma fetch_table_none_cases (p : page) :
  fetch_table p = None <->
  p = Failed \/ p = Parsed []
  \/ exists t l, p = Parsed (t :: l) /\ columns (max_by_len t l) = [].
Proof.
  destruct p as [|[|t l]]; simpl.
  - split; auto.
  - split; auto.
  - destruct (columns (max_by_len t l)) eqn:E; split.
    + intros _. right; right. exists t, l. auto.
    + reflexivity.
    + discriminate.
    + intros [H|[H|(t' & l' & H & H')]]; try discriminate.
      injection H as <- <-. congruence.
Qed.

(** X12: [fetch_table] gives no table in three cases only: the request or
    the parser raised, the page has no table, or the table it chose has no
    column. *)
Theorem fetch_table_none (p : page) :
  wf_page p ->
  (fetch_table p = None <->
   p = Failed \/ p = Parsed []
   \/ exists t l, p = Parsed (t :: l) /\ columns (max_by_len t l) = []).
Proof. intros _. apply fetch_table_none_cases. Qed.

Lemma fetch_table_some (t : dataframe) (l : list dataframe) (df : dataframe) :
  fetch_table (Parsed (t :: l)) = Some df ->
  columns df = columns (max_by_len t l)
  /\ columns df <> []
  /\ forall r,
       In r (rows df) <->
       In r (rows (max_by_len t l))
       /\ not_header (columns df) r /\ names_player (columns df) r.
Proof.
  simpl. set (best := max_by_len t l).
  destruct (columns best) as [|c0 cols] eqn:E; [discriminate|].
  unfold keep_rows. simpl columns. rewrite E.
  assert (Hhdr : forall r, negb (cell_is (hd CNa r) c0) = true
                           <-> not_header (c0 :: cols) r).
  { intros r. unfold not_header. simpl hd. rewrite negb_true_iff.
    destruct (hd CNa r) as [|s|s]; simpl.
    - split; [discriminate | reflexivity].
    - rewrite pystr_eqb_neq. split.
      + intros H s' [= <-]. exact H.
      + intros H. now apply H.
    - split; [discriminate | reflexivity]. }
  destruct (existsb (fun c => pystr_eqb c (lit "Player")) (c0 :: cols)) eqn:P;
    intros [= <-]; simpl columns; simpl rows;
    (split; [reflexivity|]); (split; [discriminate|]); intros r.
  - rewrite !filter_In, Hhdr, negb_true_iff.
    assert (HP : In (lit "Player") (c0 :: cols)).
    { apply existsb_exists in P. destruct P as (c & Hc & Hc').
      apply pystr_eqb_eq in Hc'. now subst c. }
    unfold names_player.
    destruct (column_cell (c0 :: cols) (lit "Player") r) as [|s|s]; simpl.
    + split; [intros [[[_ _] H] _]; discriminate|].
      intros (_ & _ & H). destruct (H HP) as (s & [[H' _]|H']); discriminate.
    + rewrite pystr_eqb_neq. split.
      * intros [[[H1 H2] _] H3]. repeat split; auto.
        intros _. exists s. left. auto.
      * intros (H1 & H2 & H3). repeat split; auto.
        destruct (H3 HP) as (s' & [[[= <-] H']|H']); [exact H' | discriminate].
    + split.
      * intros [[[H1 H2] _] _]. repeat split; auto.
        intros _. exists s. now right.
      * intros (H1 & H2 & _). repeat split; auto.
  - rewrite filter_In, Hhdr. unfold names_player. split.
    + intros [H1 H2]. repeat split; auto. intros HP. exfalso.
      assert (existsb (fun c => pystr_eqb c (lit "Player")) (c0 :: cols) = true).
      { apply existsb_exists. exists (lit "Player"). split; [exact HP|].
        apply pystr_eqb_refl. }
      congruence.
    + intros (H1 & H2 & _). auto.
Qed.

Lemma filter_filter_sub {A} (f g : A -> bool) (l : list A) :
  exists h, filter f (filter g l) = filter h l.
Proof.
  exists (fun x => g x && f x). induction l as [|x l IH]; simpl; [reflexivity|].
  destruct (g x); simpl; [destruct (f x); now rewrite IH | exact IH].
Qed.

Lemma fetch_table_rows_filtered (t : dataframe) (l : list dataframe)
    (df : dataframe) :
  fetch_table (Parsed (t :: l)) = Some df ->
  exists keep, rows df = filter keep (rows (max_by_len t l)).
Proof.
  simpl. destruct (columns (max_by_len t l)) as [|c0 cols]; [discriminate|].
  unfold keep_rows. simpl columns.
  destruct (existsb _ _); intros [= <-]; simpl rows.
  - match goal with
    | |- exists keep, filter _ (filter ?f2 (filter ?f1 ?rs)) = _ =>
        destruct (filter_filter_sub f2 f1 rs) as (h & Hh)
    end.
    rewrite Hh. apply filter_filter_sub.
  - eexists. reflexivity.
Qed.

(** X13: the table [fetch_table] works on is the one with the most rows,
    the first of them where several have as many; what it returns has that
    table's columns, and its rows are rows of that table in their order. *)
Theorem fetch_table_largest_first (t : dataframe) (l : list dataframe)
    (df : dataframe) :
  wf_page (Parsed (t :: l)) ->
  fetch_table (Parsed (t :: l)) = Some df ->
  exists best before after keep,
    t :: l = before ++ best :: after
    /\ Forall (fun t' => (List.length (rows t') < List.length (rows best))%nat)
         before
    /\ Forall (fun t' => (List.length (rows t') <= List.length (rows best))%nat)
         after
    /\ columns df = columns best
    /\ rows df = filter keep (rows best).
Proof.
  intros _ H.
  destruct (max_by_len_spec t l) as (l1 & l2 & E & H1 & H2).
  destruct (fetch_table_rows_filtered t l df H) as (keep & Hk).
  exists (max_by_len t l), l1, l2, keep.
  repeat split; auto. now apply fetch_table_some in H.
Qed.

(** X14: the rows [fetch_table] returns are exactly the rows of the chosen
    table whose first cell is not the first column label again and, where
    the table has a [Player] column, whose player cell is neither missing
    nor the word Player. *)
Theorem fetch_table_rows (t : dataframe) (l : list dataframe) (df : dataframe) :
  wf_page (Parsed (t :: l)) ->
  fetch_table (Parsed (t :: l)) = Some df ->
  forall r,
    In r (rows df) <->
    In r (rows (max_by_len t l))
    /\ not_header (columns df) r /\ names_player (columns df) r.
Proof. intros _ H. now apply fetch_table_some in H. Qed.

Lemma filter_id_In {A} (f : A -> bool) (l : list A) :
  (forall x, In x l -> f x = true) -> filter f l = l.
Proof.
  intros H. apply filter_all. apply forallb_forall. exact H.
Qed.

(** X15: what [fetch_table] returns passes through it unchanged: a page
    that holds just that table gives the same table again. *)
Theorem fetch_table_idempotent (p : page) (df : dataframe) :
  wf_page p ->
  fetch_table p = Some df -> fetch_table (Parsed [df]) = Some df.
Proof.
  intros _. destruct p as [|[|t l]]; try discriminate.
  unfold fetch_table. set (best := max_by_len t l).
  destruct (columns best) as [|c0 cols] eqn:E; [discriminate|].
  cbv zeta. unfold keep_rows. cbn [columns rows]. rewrite E.
  destruct (existsb (fun c => pystr_eqb c (lit "Player")) (c0 :: cols)) eqn:P;
    intros [= <-]; cbn [max_by_len columns rows]; rewrite ?P;
    cbn [columns rows]; f_equal; f_equal.
  - rewrite (filter_id_In (fun r => negb (cell_is (hd CNa r) c0))).
    + rewrite (filter_id_In
                 (fun r => notna (column_cell (c0 :: cols) (lit "Player") r))).
      * apply filter_id_In. intros r Hr. now apply filter_In in Hr.
      * intros r Hr. apply filter_In in Hr. destruct Hr as [Hr _].
        now apply filter_In in Hr.
    + intros r Hr. apply filter_In in Hr. destruct Hr as [Hr _].
      apply filter_In in Hr. destruct Hr as [Hr _].
      now apply filter_In in Hr.
  - apply filter_id_In. intros r Hr. now apply filter_In in Hr.
Qed.

(** ** From the pages to the exit code *)

(** X16: the script ends with exit code 1, and writes nothing, exactly when
    the primary page gives no table: the request or the parser raised, the
    page has no table, or the chosen table has no column; otherwise it ends
    with exit code 0 and writes a document, whatever becomes of the three
    secondary pages. *)
Theorem run_exit_code (std gk defn passing : page) :
  wf_page std ->
  (run std gk defn passing = {| exit_code := 1; written := None |}
   <-> std = Failed \/ std = Parsed []
       \/ exists t l, std = Parsed (t :: l) /\ columns (max_by_len t l) = [])
  /\ (run std gk defn passing = {| exit_code := 1; written := None |}
      \/ exists doc,
           run std gk defn passing = {| exit_code := 0; written := Some doc |}).
Proof.
  intros _. unfold run.
  pose proof (fetch_table_none_cases std) as N.
  destruct (fetch_table std) as [df|] eqn:E; simpl option_map at 1.
  - split.
    + split.
      * rewrite main_written. discriminate.
      * intros H. apply N in H. discriminate.
    + right. eexists. apply main_written.
  - split.
    + split; [intros _; now apply N | reflexivity].
    + now left.
Qed.

(** ** Tables without a player column *)

Lemma dict_get_combine_absent {V} (ks : list pystr) (vs : list V) (k : pystr)
    (dflt : V) :
  ~ In k ks -> dict_get (combine ks vs) k dflt = dflt.
Proof.
  revert vs. induction ks as [|k0 ks IH]; intros vs Hk; [reflexivity|].
  destruct vs as [|v vs]; [reflexivity|]. simpl.
  destruct (pystr_eqb k0 k) eqn:E.
  - apply pystr_eqb_eq in E. subst k0. exfalso. apply Hk. now left.
  - apply IH. intros H. apply Hk. now right.
Qed.

Lemma iterrows_skipped (df : dataframe) :
  ~ In (lit "Player") (columns df) ->
  Forall (fun r => skipped (row_name r) = true) (iterrows df).
Proof.
  intros H. unfold iterrows. apply Forall_forall. intros r Hr.
  apply in_map_iff in Hr. destruct Hr as (cells & <- & _).
  unfold row_name, row_get. now rewrite dict_get_combine_absent.
Qed.

Lemma fold_skipped (step : dict player -> row -> dict player) (t : table)
    (d : dict player) :
  (forall d' r, skipped (row_name r) = true -> step d' r = d') ->
  Forall (fun r => skipped (row_name r) = true) t ->
  fold_left step t d = d.
Proof.
  intros Hstep H. revert d. induction H as [|r t Hr Ht IH]; intros d; simpl.
  - reflexivity.
  - now rewrite Hstep, IH.
Qed.

(** X17: a table that has no [Player] column has no row the loops use: as a
    primary table it seeds no record, so the document is written without
    players, and as a secondary table it changes no record. *)
Theorem table_without_player_column (df : dataframe)
    (gk defn passing : option table) (d : dict player) :
  wf_dataframe df ->
  ~ In (lit "Player") (columns df) ->
  seed (iterrows df) = []
  /\ (exists doc,
        main (Some (iterrows df)) gk defn passing
        = {| exit_code := 0; written := Some doc |}
        /\ players doc = [])
  /\ merge_table gk_row (Some (iterrows df)) d = d
  /\ merge_table def_row (Some (iterrows df)) d = d
  /\ merge_table passing_row (Some (iterrows df)) d = d.
Proof.
  intros _ H. pose proof (iterrows_skipped df H) as S.
  assert (Hseed : seed (iterrows df) = []).
  { unfold seed. apply fold_skipped; [|exact S].
    intros d' r Hr. unfold seed_row. now rewrite Hr. }
  split; [exact Hseed|]. split.
  - eexists. split; [apply main_written|]. simpl.
    now rewrite Hseed, merge_all_nil.
  - repeat split; simpl; apply fold_skipped; try exact S; intros d' r Hr.
    + unfold gk_row. now rewrite Hr.
    + unfold def_row. now rewrite Hr.
    + unfold passing_row. now rewrite Hr.
Qed.

(** ** The order of the keys *)

Lemma first_occurrences_ext (s1 s2 ks : list pystr) :
  (forall k, existsb (pystr_eqb k) s1 = existsb (pystr_eqb k) s2) ->
  first_occurrences s1 ks = first_occurrences s2 ks.
Proof.
  revert s1 s2. induction ks as [|k ks IH]; intros s1 s2 H; simpl.
  - reflexivity.
  - rewrite <- H. destruct (existsb (pystr_eqb k) s1); [now apply IH|].
    f_equal. apply IH. intros k'. simpl. now rewrite H.
Qed.

Lemma existsb_keys {V} (k : pystr) (d : dict V) :
  existsb (pystr_eqb k) (map fst d) = dict_mem k d.
Proof.
  induction d as [|[k0 v] d IH]; simpl; [reflexivity|].
  now rewrite IH, (pystr_eqb_sym k k0).
Qed.

Lemma seed_row_keys (d : dict player) (r : row) :
  map fst (seed_row d r)
  = if skipped (row_name r) then map fst d
    else if dict_mem (row_key r) d then map fst d
    else map fst d ++ [row_key r].
Proof.
  unfold seed_row, row_key. destruct (skipped (row_name r)); [reflexivity|].
  apply dict_set_keys.
Qed.

Lemma fold_seed_keys (l : table) (d : dict player) :
  map fst (fold_left seed_row l d)
  = map fst d
    ++ first_occurrences (map fst d)
         (map row_key (filter (fun r => negb (skipped (row_name r))) l)).
Proof.
  revert d. induction l as [|r l IH]; intros d; cbn [fold_left filter].
  - simpl. now rewrite app_nil_r.
  - rewrite IH, seed_row_keys. clear IH.
    destruct (skipped (row_name r)); cbn [negb map first_occurrences];
      [reflexivity|].
    rewrite existsb_keys.
    destruct (dict_mem (row_key r) d) eqn:E; [reflexivity|].
    rewrite <- app_assoc. simpl. f_equal. f_equal.
    apply first_occurrences_ext. intros k.
    rewrite existsb_app. simpl. rewrite orb_false_r. apply orb_comm.
Qed.

(** X18: the records of the mapping stand in the order in which their keys
    first occur among the rows of the primary table that are not skipped;
    a later row with a key already seen takes the place of the first. *)
Theorem seed_key_order (std : table) :
  map fst (seed std)
  = first_occurrences []
      (map row_key (filter (fun r => negb (skipped (row_name r))) std)).
Proof. unfold seed. now rewrite fold_seed_keys. Qed.

(** ** Labels and cells *)

(** X19: in a row of [iterrows], looking a label of the table up gives the
    value of the cell that stands in that column: the name [main] reads is
    the player cell [fetch_table] tested. *)
Theorem iterrows_lookup (cols : list pystr) (cells : list datum) (k : pystr)
    (dflt : value) :
  List.length cells = List.length cols ->
  In k cols ->
  row_get (combine cols (map value_of_cell cells)) k dflt
  = value_of_cell (column_cell cols k cells).
Proof.
  unfold row_get, column_cell. revert cells.
  induction cols as [|c cols IH]; intros cells Hlen Hin; [contradiction|].
  destruct cells as [|x cells]; [discriminate|].
  simpl. destruct (pystr_eqb c k) eqn:E; [reflexivity|].
  destruct Hin as [->|Hin]; [rewrite pystr_eqb_refl in E; discriminate|].
  simpl in Hlen. injection Hlen as Hlen.
  rewrite (IH cells Hlen Hin).
  destruct (index_of k cols); reflexivity.
Qed.

End Script.

(** C6, as first stated, fails: the numeral 2^53 + 1 is read as the binary64
    value 2^53. *)
Lemma safe_int_rounds_above_2_53 :
  parse_decimal (lit "9007199254740993") = Some (false, 9007199254740993, 0)
  /\ safe_int todecimal_some (VStr (lit "9007199254740993")) = 9007199254740992
  /\ safe_int todecimal_some (VStr (lit "9007199254740993"))
     <> Z.quot 9007199254740993 (10 ^ 0).
Proof.
  split; [vm_compute; reflexivity|]. split; [vm_compute; reflexivity|].
  vm_compute. discriminate.
Qed.

(** The numerals -12.75 and 1.5e3 are within the exact range;
    9007199254740995 is beyond it and below the overflow point. *)
Lemma safe_int_coercion_witness :
  safe_int todecimal_some (VStr (lit " -12.75 ")) = Z.quot (-1275 * 1) 100
  /\ safe_int todecimal_some (VStr (lit "1.5e3")) = Z.quot (15 * 100) 1
  /\ safe_int todecimal_some (VStr (lit "1.25"))
     = Z.quot (125 * 10 ^ Z.max (- 2) 0) (10 ^ Z.max (- - 2) 0)
  /\ (exists m e : Z,
        nearest_binary64 (decimal_num 9007199254740995 0) (decimal_den 0) m e
        /\ safe_int todecimal_some (VStr (lit "9007199254740995"))
           = truncate_binary64 false m e)
  /\ safe_int todecimal_some (VStr (lit "Infinity")) = 0.
Proof.
  destruct (safe_int_coercion todecimal_some)
    as (_ & _ & _ & _ & H & _ & S & N & _ & W & _).
  split; [|split; [|split; [|split]]].
  - apply (H (lit " -12.75 ") (lit "-12.75") true 1275 (-2));
      [reflexivity | reflexivity | lia | vm_compute; reflexivity].
  - apply (H (lit "1.5e3") (lit "1.5e3") false 15 2);
      [reflexivity | reflexivity | lia | vm_compute; reflexivity].
  - apply (S (lit "1.25") (lit "1.25") false 125 (-2));
      [reflexivity | reflexivity | lia | simpl; lia].
  - apply (N (VStr (lit "9007199254740995")) (lit "9007199254740995")
             false 9007199254740995 0);
      [reflexivity | reflexivity | lia |].
    unfold binary64_overflow. intros O. vm_compute in O. apply O.
    reflexivity.
  - apply (W (VStr (lit "Infinity")) (lit "Infinity") (FInf false));
      reflexivity.
Defined.

(** ** The fabricated run *)

(** Three players in, three records out, in descending order of points. *)
Example sample_run :
  exists doc,
    main hash_sum nfkd_acute todecimal_some (Some sample_std)
      (Some sample_gk) (Some sample_def) (Some sample_passing)
    = {| exit_code := 0; written := Some doc |}
    /\ map (fun sp => (name (rec sp), points sp)) (players doc)
       = [(lit "Cruz", 20); (lit "Ana", 15); ([66; 101; 225]%N, 13)].
Proof. eexists. split; [reflexivity | vm_compute; reflexivity]. Qed.

(** Dan, who is in all three secondary tables and not in the primary one,
    is not in the output. *)
Lemma primary_table_only_witness :
  exists doc,
    written (main hash_sum nfkd_acute todecimal_some (Some sample_std)
               (Some sample_gk) (Some sample_def) (Some sample_passing))
    = Some doc
    /\ forall sp, In sp (players doc) ->
                  normalise_name nfkd_acute (VStr (name (rec sp))) <> lit "dan".
Proof.
  eexists. split; [reflexivity|]. intros sp Hin.
  destruct (primary_table_only hash_sum nfkd_acute todecimal_some sample_std
              (Some sample_gk) (Some sample_def) (Some sample_passing))
    as (_ & _ & _ & H).
  eapply H; [|reflexivity | exact Hin].
  intros r Hr _.
  destruct Hr as [<-|[<-|[<-|[]]]]; vm_compute; discriminate.
Defined.

Lemma output_id_range_witness :
  exists doc,
    written (main hash_sum nfkd_acute todecimal_some (Some sample_std)
               (Some sample_gk) (Some sample_def) (Some sample_passing))
    = Some doc
    /\ Forall (fun sp =>
                 0 <= id (rec sp) < 100000
                 /\ id (rec sp) = Z.abs (hash_sum (name (rec sp))) mod 100000)
         (players doc).
Proof.
  eexists. split; [reflexivity|].
  apply (output_id_range hash_sum nfkd_acute todecimal_some
           (Some sample_std) (Some sample_gk) (Some sample_def)
           (Some sample_passing)).
  reflexivity.
Defined.

(** The goalkeeping fetch fails and the defensive table has no row. *)
Lemma secondary_failure_tolerated_witness :
  exists doc,
    main hash_sum nfkd_acute todecimal_some (Some sample_std) None (Some [])
      (Some sample_passing)
    = {| exit_code := 0; written := Some doc |}
    /\ Forall (fun sp => goalkeeping_fields (rec sp) = (0, 0, 0, 0))
         (players doc)
    /\ Forall (fun sp => defensive_fields (rec sp) = (0, 0)) (players doc).
Proof.
  destruct (secondary_failure_tolerated hash_sum nfkd_acute todecimal_some sample_std
              None (Some []) (Some sample_passing))
    as (_ & doc & Hmain & _ & Hg & Hd & _).
  exists doc. split; [exact Hmain|].
  split; [apply Hg; left; reflexivity | apply Hd; right; reflexivity].
Defined.

(** C2, as first stated, fails: a primary table that was fetched and has no
    player row does not abort the run. *)
Lemma empty_primary_table_completes :
  main hash_sum nfkd_acute todecimal_some (Some []) None None None
  = {| exit_code := 0;
       written := Some {| season := lit "2024-25";
                          league := lit "La Liga";
                          source := lit "FBref.com";
                          players := [] |} |}
  /\ ~ (exit_code (main hash_sum nfkd_acute todecimal_some (Some []) None None None) = 1
        /\ written (main hash_sum nfkd_acute todecimal_some (Some []) None None None) = None).
Proof.
  split; [reflexivity|]. intros [H _]. discriminate H.
Qed.

(** Ada and Cy tie below Bo: Ada, first in the primary table, stays ahead. *)
Lemma output_sorted_stable_witness :
  exists doc o1 o2 o3,
    written (main hash_sum nfkd_acute todecimal_some (Some sample_tie)
               None None None) = Some doc
    /\ map (fun sp => name (rec sp)) (players doc)
       = map (fun sp => name (rec sp)) o1 ++ lit "Ada"
         :: map (fun sp => name (rec sp)) o2 ++ lit "Cy"
         :: map (fun sp => name (rec sp)) o3.
Proof.
  destruct (output_sorted_stable hash_sum nfkd_acute todecimal_some sample_tie
              None None None) as (doc & Hw & _ & _ & _ & H & _).
  destruct (H _ _ [] [_] [] eq_refl eq_refl) as (o1 & o2 & o3 & Ho).
  exists doc, o1, o2, o3. split; [exact Hw|].
  rewrite Ho, map_app. simpl. rewrite map_app. reflexivity.
Defined.

(** ** Witnesses of the further properties *)

Lemma classify_ignores_case_witness :
  classify (VStr (upper (lit "df,mf"))) = classify (VStr (lit "df,mf"))
  /\ classify (VStr (lower (lit "df,mf"))) = classify (VStr (lit "df,mf")).
Proof. apply classify_ignores_case. reflexivity. Defined.

Lemma nfkd_acute_ascii (t : pystr) :
  forallb is_ascii t = true -> nfkd_acute t = t.
Proof.
  unfold nfkd_acute. induction t as [|c t IH]; simpl; [reflexivity|].
  rewrite andb_true_iff. intros [Hc Ht]. rewrite (IH Ht).
  unfold is_ascii in Hc. apply N.ltb_lt in Hc.
  destruct (N.eqb_spec c 225); [lia|]. destruct (N.eqb_spec c 233); [lia|].
  destruct (N.eqb_spec c 237); [lia|]. destruct (N.eqb_spec c 243); [lia|].
  destruct (N.eqb_spec c 250); [lia|]. reflexivity.
Qed.

Lemma normalise_name_stable_witness :
  normalise_name nfkd_acute
    (VStr (normalise_name nfkd_acute (VStr [32; 74; 111; 115; 233]%N)))
  = normalise_name nfkd_acute (VStr [32; 74; 111; 115; 233]%N)
  /\ normalise_name nfkd_acute (VStr (upper (lit " Jose ")))
     = normalise_name nfkd_acute (VStr (lit " Jose ")).
Proof.
  destruct (normalise_name_stable nfkd_acute nfkd_acute_ascii) as [H1 H2].
  split; [apply H1 | apply H2; reflexivity].
Defined.

Ltac distinct_labels :=
  repeat (constructor; [simpl; intuition discriminate|]); constructor.

Ltac passed_over :=
  repeat (constructor; [right; intros H; vm_compute in H; discriminate H|]);
  constructor.

Lemma sample_page_wf : wf_page sample_page.
Proof.
  simpl. repeat (constructor; [split; [distinct_labels|]|]);
    repeat constructor.
Qed.

(** Two rows for Ana: the second one gives the club. *)
Lemma seed_last_row_wins_witness :
  club (dict_get
          (seed hash_sum nfkd_acute todecimal_some
             ([[cell "Player" "Ana"; cell "Squad" "Alfa"]]
              ++ [cell "Player" " ANA"; cell "Squad" "Beta"]
              :: [[cell "Player" "Cruz"; cell "Squad" "Gama"]]))
          (lit "ana")
          (mk_player 0 [] [] [] 0 0 0 0 0 0 0 0 0 0 0 0 0 0 0 0))
  = lit "Beta".
Proof.
  destruct (seed_last_row_wins hash_sum nfkd_acute todecimal_some
              [[cell "Player" "Ana"; cell "Squad" "Alfa"]]
              [[cell "Player" "Cruz"; cell "Squad" "Gama"]]
              [cell "Player" " ANA"; cell "Squad" "Beta"]
              (mk_player 0 [] [] [] 0 0 0 0 0 0 0 0 0 0 0 0 0 0 0 0)
              eq_refl ltac:(passed_over))
    as (_ & _ & _ & H & _).
  exact H.
Defined.

(** Cruz is in no secondary table of the fabricated run. *)
Lemma unmatched_record_untouched_witness :
  dict_get
    (merge_all nfkd_acute todecimal_some (Some sample_gk) (Some sample_def)
       (Some sample_passing) (seed hash_sum nfkd_acute todecimal_some sample_std))
    (lit "cruz") (mk_player 0 [] [] [] 0 0 0 0 0 0 0 0 0 0 0 0 0 0 0 0)
  = dict_get (seed hash_sum nfkd_acute todecimal_some sample_std)
      (lit "cruz") (mk_player 0 [] [] [] 0 0 0 0 0 0 0 0 0 0 0 0 0 0 0 0).
Proof.
  apply (unmatched_record_untouched nfkd_acute todecimal_some);
    intros t [= <-]; passed_over.
Defined.

(** Two goalkeeping rows for Ana: the second one counts. *)
Lemma enrichment_last_row_wins_witness :
  goalkeeping_fields
    (dict_get
       (merge_table (gk_row nfkd_acute todecimal_some)
          (Some ([[cell "Player" "Ana"; cell "CS" "2"; cell "Saves" "10"]]
                 ++ [cell "Player" "Ana"; cell "CS" "3"; cell "GA" "x"]
                 :: [[cell "Player" "Dan"; cell "CS" "9"]]))
          (seed hash_sum nfkd_acute todecimal_some sample_std))
       (lit "ana") (mk_player 0 [] [] [] 0 0 0 0 0 0 0 0 0 0 0 0 0 0 0 0))
  = (3, 0, 0, 0).
Proof.
  destruct (enrichment_last_row_wins nfkd_acute todecimal_some
              [[cell "Player" "Ana"; cell "CS" "2"; cell "Saves" "10"]]
              [[cell "Player" "Dan"; cell "CS" "9"]]
              [cell "Player" "Ana"; cell "CS" "3"; cell "GA" "x"]
              (seed hash_sum nfkd_acute todecimal_some sample_std)
              (mk_player 0 [] [] [] 0 0 0 0 0 0 0 0 0 0 0 0 0 0 0 0)
              eq_refl eq_refl ltac:(passed_over))
    as (H & _).
  exact H.
Defined.

Lemma output_positions_scored_witness :
  exists doc,
    written (main hash_sum nfkd_acute todecimal_some (Some sample_std)
               (Some sample_gk) (Some sample_def) (Some sample_passing))
    = Some doc
    /\ Forall (fun sp =>
                 In (pos (rec sp)) [lit "GK"; lit "DEF"; lit "MID"; lit "FWD"])
         (players doc).
Proof.
  eexists. split; [reflexivity|].
  eapply Forall_impl;
    [|apply (output_positions_scored hash_sum nfkd_acute todecimal_some
               (Some sample_std) (Some sample_gk) (Some sample_def)
               (Some sample_passing)); reflexivity].
  intros sp [[H _]|[[H _]|[[H _]|[H _]]]]; rewrite H; simpl; auto.
Defined.

Lemma sort_points_desc_fixes_sorted_witness :
  sort_points_desc
    [mk_scored (mk_player 1 [] [] [] 0 0 0 0 0 0 0 0 0 0 0 0 0 0 0 0) 7;
     mk_scored (mk_player 2 [] [] [] 0 0 0 0 0 0 0 0 0 0 0 0 0 0 0 0) 7;
     mk_scored (mk_player 3 [] [] [] 0 0 0 0 0 0 0 0 0 0 0 0 0 0 0 0) 2]
  = [mk_scored (mk_player 1 [] [] [] 0 0 0 0 0 0 0 0 0 0 0 0 0 0 0 0) 7;
     mk_scored (mk_player 2 [] [] [] 0 0 0 0 0 0 0 0 0 0 0 0 0 0 0 0) 7;
     mk_scored (mk_player 3 [] [] [] 0 0 0 0 0 0 0 0 0 0 0 0 0 0 0 0) 2].
Proof.
  apply sort_points_desc_fixes_sorted.
  repeat (constructor; [|repeat constructor; unfold points_ge; simpl; lia]).
  constructor.
Defined.

Lemma fetch_table_none_witness :
  fetch_table sample_page <> None
  /\ fetch_table (Parsed [mk_dataframe [] []]) = None.
Proof.
  split.
  - intros H. apply (fetch_table_none sample_page sample_page_wf) in H.
    destruct H as [H|[H|(t & l & H & H')]]; try discriminate H.
    injection H as <- <-. vm_compute in H'. discriminate H'.
  - apply (fetch_table_none (Parsed [mk_dataframe [] []])).
    + simpl. repeat constructor.
    + right; right. exists (mk_dataframe [] []), []. split; reflexivity.
Defined.

(** Of the two tables with four rows the first one is chosen, and two of
    its rows are kept. *)
Lemma fetch_table_largest_first_witness :
  exists (df best : dataframe) (before after : list dataframe) keep,
    fetch_table sample_page = Some df
    /\ sample_page = Parsed (before ++ best :: after)
    /\ Forall (fun t' => (List.length (rows t') < List.length (rows best))%nat)
         before
    /\ Forall (fun t' => (List.length (rows t') <= List.length (rows best))%nat)
         after
    /\ columns df = columns best
    /\ rows df = filter keep (rows best)
    /\ List.length (rows df) = 2%nat.
Proof.
  destruct (fetch_table sample_page) as [df|] eqn:E; [|discriminate E].
  destruct (fetch_table_largest_first _ _ df sample_page_wf E)
    as (best & before & after & keep & Hl & Hb & Ha & Hc & Hr).
  exists df, best, before, after, keep.
  split; [reflexivity|]. split; [unfold sample_page; now rewrite Hl|].
  repeat split; auto.
  vm_compute in E. injection E as <-. reflexivity.
Defined.

Lemma fetch_table_rows_witness :
  exists df,
    fetch_table sample_page = Some df
    /\ ~ In [CStr (lit "Rk"); CStr (lit "Player"); CStr (lit "Pos");
             CStr (lit "Gls")] (rows df)
    /\ ~ In [CNum (lit "2"); CNa; CStr (lit "DF"); CNum (lit "1")] (rows df).
Proof.
  destruct (fetch_table sample_page) as [df|] eqn:E; [|discriminate E].
  exists df. split; [reflexivity|].
  pose proof (fetch_table_rows _ _ df sample_page_wf E) as H.
  assert (Hc : columns df = [lit "Rk"; lit "Player"; lit "Pos"; lit "Gls"]).
  { vm_compute in E. injection E as <-. reflexivity. }
  rewrite Hc in H. split; intros Hin; apply H in Hin.
  - destruct Hin as (_ & Hh & _). now apply (Hh (lit "Rk")).
  - destruct Hin as (_ & _ & Hp).
    destruct (Hp ltac:(simpl; auto)) as (s & [[Hs _]|Hs]);
      vm_compute in Hs; discriminate Hs.
Defined.

Lemma fetch_table_idempotent_witness :
  exists df,
    fetch_table sample_page = Some df
    /\ fetch_table (Parsed [df]) = Some df.
Proof.
  destruct (fetch_table sample_page) as [df|] eqn:E; [|discriminate E].
  exists df. split; [reflexivity|].
  exact (fetch_table_idempotent sample_page df sample_page_wf E).
Defined.

Lemma run_exit_code_witness :
  run hash_sum nfkd_acute todecimal_some (Parsed []) sample_page Failed Failed
  = {| exit_code := 1; written := None |}
  /\ run hash_sum nfkd_acute todecimal_some sample_page Failed Failed Failed
     <> {| exit_code := 1; written := None |}.
Proof.
  split.
  - apply (run_exit_code hash_sum nfkd_acute todecimal_some (Parsed []));
      [simpl; constructor | right; left; reflexivity].
  - intros H.
    apply (run_exit_code hash_sum nfkd_acute todecimal_some sample_page) in H;
      [|exact sample_page_wf].
    destruct H as [H|[H|(t & l & H & H')]]; try discriminate H.
    injection H as <- <-. vm_compute in H'. discriminate H'.
Defined.

Lemma table_without_player_column_witness :
  exists df,
    fetch_table sample_page_squads = Some df
    /\ seed hash_sum nfkd_acute todecimal_some (iterrows df) = []
    /\ merge_table (gk_row nfkd_acute todecimal_some) (Some (iterrows df))
         (seed hash_sum nfkd_acute todecimal_some sample_std)
       = seed hash_sum nfkd_acute todecimal_some sample_std.
Proof.
  eexists. split; [reflexivity|].
  match goal with
  | |- seed _ _ _ (iterrows ?df) = _ /\ _ =>
      destruct (table_without_player_column hash_sum nfkd_acute todecimal_some
                  df None None None
                  (seed hash_sum nfkd_acute todecimal_some sample_std))
        as (H1 & _ & H2 & _)
  end.
  - split; [distinct_labels | repeat constructor].
  - simpl. intuition discriminate.
  - split; [exact H1 | exact H2].
Defined.

Lemma iterrows_lookup_witness :
  row_get
    (combine [lit "Rk"; lit "Player"]
       (map value_of_cell [CNum (lit "1"); CStr (lit "Ana")]))
    (lit "Player") (VStr [])
  = VStr (lit "Ana").
Proof.
  apply (iterrows_lookup [lit "Rk"; lit "Player"]
           [CNum (lit "1"); CStr (lit "Ana")] (lit "Player") (VStr []));
    [reflexivity | simpl; auto].
Defined.

(** ** Name keys with [nfkd_acute] *)

Lemma nfkd_acute_pointwise (u : pystr) :
  encode_ascii_ignore (nfkd_acute u)
  = flat_map (fun c => encode_ascii_ignore (nfkd_acute [c])) u.
Proof.
  unfold nfkd_acute, encode_ascii_ignore.
  induction u as [|c u IH]; [reflexivity|].
  simpl flat_map. rewrite filter_app, IH, app_nil_r. reflexivity.
Qed.

Lemma nfkd_acute_ascii_point (c : N) :
  is_ascii c = true -> nfkd_acute [c] = [c].
Proof.
  intros H. apply nfkd_acute_ascii. simpl. now rewrite H.
Qed.

(** C8, as first stated, fails: the o with stroke (U+00F8) has no
    decomposition and is dropped, so Sorloth written with it gets the key
    srloth and Sorloth the key sorloth, whatever the decomposition does
    elsewhere. *)
Lemma normalise_name_drops_undecomposed :
  normalise_name nfkd_acute (VStr [83; 248; 114; 108; 111; 116; 104]%N)
  = lit "srloth"
  /\ normalise_name nfkd_acute (VStr (lit "Sorloth")) = lit "sorloth"
  /\ normalise_name nfkd_acute (VStr [83; 248; 114; 108; 111; 116; 104]%N)
     <> normalise_name nfkd_acute (VStr (lit "Sorloth"))
  /\ (forall f : pystr -> pystr,
        f [83; 248; 114; 108; 111; 116; 104]%N
        = [83; 248; 114; 108; 111; 116; 104]%N ->
        f (lit "Sorloth") = lit "Sorloth" ->
        normalise_name f (VStr [83; 248; 114; 108; 111; 116; 104]%N)
        <> normalise_name f (VStr (lit "Sorloth"))).
Proof.
  split; [reflexivity|]. split; [reflexivity|].
  split; [vm_compute; discriminate|].
  intros f H1 H2. unfold normalise_name. rewrite H1, H2.
  vm_compute. discriminate.
Qed.

(** Jose with an e-acute, with a combining acute after the e, and without
    accent are one text without their diacritics; and the three spellings
    of the example. *)
Lemma normalise_name_key_witness :
  (normalise_name nfkd_acute (VStr [74; 111; 115; 233]%N) = lit "jose"
   /\ normalise_name nfkd_acute (VStr [74; 111; 115; 101; 769]%N)
      = normalise_name nfkd_acute (VStr [74; 111; 115; 233]%N))
  /\ (normalise_name nfkd_acute (VStr [74; 111; 115; 233]%N) = lit "jose"
      /\ normalise_name nfkd_acute (VStr (lit "Jose")) = lit "jose"
      /\ normalise_name nfkd_acute (VStr (lit " JOSE ")) = lit "jose").
Proof.
  destruct (normalise_name_key nfkd_acute) as (_ & H & E & _).
  split.
  - apply (H nfkd_acute_pointwise nfkd_acute_ascii_point
             [74; 111; 115; 233]%N [74; 111; 115; 101; 769]%N (lit "Jose")).
    + repeat (apply unaccented_plain; [reflexivity|]).
      apply (unaccented_letter nfkd_acute 233 101 [769]%N);
        [reflexivity | reflexivity | reflexivity | apply unaccented_nil].
    + repeat (apply unaccented_plain; [reflexivity|]).
      apply unaccented_dropped; [reflexivity | apply unaccented_nil].
  - apply E; reflexivity.
Defined.

(** ** The position classifier on a padded tag in mixed case *)

Lemma classify_first_code_witness :
  lower (pos_code (VStr (lit " Fw , mf")))
  = lower (strip (split_comma_first (str (VStr (lit " Fw , mf")))))
  /\ classify (VStr (lit " Fw , mf")) = lit "FWD".
Proof.
  destruct (classify_first_code (VStr (lit " Fw , mf")))
    as (_ & _ & _ & _ & _ & _ & _ & _ & _ & H & _ & _ & _ & E & _).
  split; [apply H; reflexivity | exact E].
Defined.
